(** * A shallow embedding of the lavalink wrapper

    The development follows the TypeScript sources:
    - [src/structures/Track.ts]            : [Track], [TrackPartial];
    - [util/Constants]                     : module [Constants];
    - [src/structures/LavalinkManager.ts]  : module [LavalinkManager]
      ([search], [resolveTrack]) and module [ManagerLifecycle] (the
      constructor, [decodeTracks], [createPlayer]);
    - [src/structures/Node.ts]             : module [Node] (options and
      constructor), [Node_send], and module [NodeLifecycle] ([reconnect],
      [destroy], the attempts of [connect], [_onClose], [_onError]);
    - [src/structures/Player.ts]           : module [Player]
      (the constructor, [connect], [play], [skip], [shuffle], [seek],
      [pause], [resume], [stop], [clear], [setLoop], [setVolume],
      [setFilters], [destroy], [_advanceQueue], [_handleMove],
      [_handlePayload], ...).

    JavaScript numbers that hold milliseconds, counters and indices are
    integers here ([Z] or [nat]); strings are [string]; a value that may be
    [null] or [undefined] is an [option]. *)

From Stdlib Require Import ZArith String Ascii Bool Lia.
From stdpp Require Import base option list strings pretty gmap.

Local Open Scope string_scope.

(** ** Exceptions and the result of a call that may throw *)

Inductive exn : Type :=
| Error (msg : string)
| TypeError (msg : string).

Inductive outcome (A : Type) : Type :=
| Returns (a : A)
| Throws (e : exn).
Arguments Returns {A} a.
Arguments Throws {A} e.

(** ** JavaScript truthiness of the values the code tests *)

Definition truthy_string (s : string) : bool := negb (String.eqb s "").

Definition truthy_ostring (o : option string) : bool :=
  match o with Some s => truthy_string s | None => false end.

Definition truthy_number (n : Z) : bool := negb (n =? 0)%Z.

Definition truthy_onumber (o : option Z) : bool :=
  match o with Some n => truthy_number n | None => false end.

(** ** Tracks (src/structures/Track.ts) *)

(** The [info] object of the server's track data; the [Track] constructor
    copies every field of it onto the track. *)
Record TrackInfo : Type := {
  identifier : string;
  isSeekable : bool;
  author : string;
  length : Z;
  isStream : bool;
  position : Z;
  title : string;
  uri : string;
  sourceName : string
}.

Record TrackData : Type := {
  data_track : string;
  data_info : TrackInfo
}.

Record Track : Type := {
  track : string;
  info : TrackInfo;
  requester : string
}.

Record TrackPartial : Type := {
  partial_title : string;
  partial_requester : string;
  partial_author : option string;
  partial_length : option Z
}.

(** [new Track(data, requester)] for defined [data]. *)
Definition new_Track (data : TrackData) (requester : string) : Track :=
  {| track := data_track data; info := data_info data; requester := requester |}.

(** An element of a queue or of a search result: [Track | TrackPartial]. *)
Inductive Entry : Type :=
| ETrack (t : Track)
| EPartial (p : TrackPartial).

(** [e instanceof TrackClass] and [e instanceof TrackPartialClass]. *)
Definition instanceof_Track (e : Entry) : bool :=
  match e with ETrack _ => true | EPartial _ => false end.

Definition instanceof_TrackPartial (e : Entry) : bool :=
  match e with ETrack _ => false | EPartial _ => true end.

(** ** Constants (util/Constants) *)

Module Constants.

(** The object literal [{ youtube: 'yt', spotify: 'sc' }]. *)
Definition SOURCE_IDENTIFIERS : list (string * string) :=
  [("youtube", "yt"); ("spotify", "sc")].

(** [/^https?:\/\//.test(s)] *)
Definition URL_REGEX_test (s : string) : bool :=
  String.prefix "http://" s || String.prefix "https://" s.

Definition SPOTIFY_BASE_URL : string := "https://api.spotify.com/v1".

End Constants.

(** Property access [obj[key]] on an object literal: [undefined] when the
    key is absent. *)
Fixpoint js_get (obj : list (string * string)) (key : string) : option string :=
  match obj with
  | [] => None
  | (k, v) :: rest => if String.eqb k key then Some v else js_get rest key
  end.

(** A value interpolated in a template literal: [undefined] prints as the
    nine letters of its name. *)
Definition js_interpolate (v : option string) : string :=
  match v with Some s => s | None => "undefined" end.

(** ** The manager: search and track resolution
    (src/structures/LavalinkManager.ts) *)

Module LavalinkManager.

Inductive Source : Type := youtube | soundcloud.

Definition Source_eqb (a b : Source) : bool :=
  match a, b with
  | youtube, youtube | soundcloud, soundcloud => true
  | _, _ => false
  end.

(** The string a [Source] is at run time. *)
Definition Source_key (s : Source) : string :=
  match s with youtube => "youtube" | soundcloud => "soundcloud" end.

Inductive LoadType : Type :=
| TRACK_LOADED | PLAYLIST_LOADED | SEARCH_RESULT | NO_MATCHES | LOAD_FAILED.

Definition LoadType_eqb (a b : LoadType) : bool :=
  match a, b with
  | TRACK_LOADED, TRACK_LOADED | PLAYLIST_LOADED, PLAYLIST_LOADED
  | SEARCH_RESULT, SEARCH_RESULT | NO_MATCHES, NO_MATCHES
  | LOAD_FAILED, LOAD_FAILED => true
  | _, _ => false
  end.

Record SearchResult : Type := {
  loadType : LoadType;
  tracks : list Entry;
  playlistInfo : option (option string * option Track);
  exception : option (string * string)
}.

(** The JSON body of a [/loadtracks] response. *)
Record LoadTracksJson : Type := {
  json_loadType : LoadType;
  json_tracks : list TrackData;
  json_playlistInfo : option (option string * option nat);
  json_exception : option (string * string)
}.

(** The fields of the manager that [search] reads. [searchNode] tells
    whether [leastLoadNodes[0]] exists. *)
Record Manager : Type := {
  searchNode : bool;
  enabledSources : list Source;
  defaultSource : Source;
  spotifyToken : option string
}.

(** Where a search goes: to the Spotify Web API with the kind and the id
    the pattern captured, or to the node's [/loadtracks] route with an
    identifier. *)
Inductive Route : Type :=
| ToSpotify (kind id : string)
| ToNode (identifier : string).

(** The identifier of the [/loadtracks] query:
    [URL_REGEX.test(query) ? query :
     `${SOURCE_IDENTIFIERS[source]}search:${query}`] *)
Definition loadtracks_identifier (query : string) (source : Source) : string :=
  if Constants.URL_REGEX_test query then query
  else js_interpolate (js_get Constants.SOURCE_IDENTIFIERS (Source_key source))
       ++ "search:" ++ query.

Section Search.

(** [query.match(Constants.SPOTIFY_REGEX)]: the two captured groups. *)
Variable SPOTIFY_REGEX_match : string -> option (string * string).

(** The paginated lookup of an album, playlist or track on the Spotify
    Web API, with kind, id and requester. *)
Variable spotify_lookup : string -> string -> string -> outcome SearchResult.

(** [searchNode.request('GET', '/loadtracks', { query: { identifier } })]:
    it rejects, or resolves with a JSON body or none. *)
Variable request_loadtracks : string -> outcome (option LoadTracksJson).

Variable manager : Manager.

Definition is_spotify_kind (k : string) : bool :=
  String.eqb k "album" || String.eqb k "playlist" || String.eqb k "track".

(** The first part of [search], up to the choice of the request. *)
Definition search_route (query : string) (source : Source) : outcome Route :=
  if negb (searchNode manager) then
    Throws (Error "No available nodes to perform a search")
  else if negb (existsb (Source_eqb source) (enabledSources manager)) then
    Throws (Error "The provided source is not enabled")
  else
    match SPOTIFY_REGEX_match query with
    | Some (kind, id) =>
        if truthy_ostring (spotifyToken manager) && is_spotify_kind kind
        then Returns (ToSpotify kind id)
        else Returns (ToNode (loadtracks_identifier query source))
    | None => Returns (ToNode (loadtracks_identifier query source))
    end.

(** The envelope built from a [/loadtracks] body. *)
Definition searchResult_of_json (json : LoadTracksJson) (requester : string)
  : SearchResult :=
  let ts := map (fun data => ETrack (new_Track data requester)) (json_tracks json) in
  {| loadType := json_loadType json;
     tracks := ts;
     playlistInfo :=
       match json_playlistInfo json with
       | Some (name, selected) =>
           Some (name,
                 match selected with
                 | Some i => match ts !! i with
                             | Some (ETrack t) => Some t
                             | _ => None
                             end
                 | None => None
                 end)
       | None => None
       end;
     exception := json_exception json |}.

Definition search (query requester : string) (source : Source)
  : outcome SearchResult :=
  match search_route query source with
  | Throws e => Throws e
  | Returns (ToSpotify kind id) => spotify_lookup kind id requester
  | Returns (ToNode ident) =>
      match request_loadtracks ident with
      | Throws e => Throws e
      | Returns None => Throws (Error "No search response data")
      | Returns (Some json) => Returns (searchResult_of_json json requester)
      end
  end.

(** *** resolveTrack *)

(** The canonicalization of the regular expression engine, which is
    not code of this repository: the string of the canonicalized
    characters of its argument, each character taken through the
    abstract operation Canonicalize of ECMAScript as a pattern with the
    flag [i] and without the flag [u] takes it. Under that flag a
    character of the pattern matches a character of the input when the
    two have the same canonicalization. *)
Variable Canonicalize : string -> string.

(** [new RegExp(`^${escape(name)}$`, 'i').test(s)]: every special
    character of [name] is escaped, so the pattern is [name] taken
    literally between [^] and [$], and it matches [s] when the two are
    equal character by character, up to canonicalization. *)
Definition regexp_exact_i_test (name s : string) : bool :=
  String.eqb (Canonicalize name) (Canonicalize s).

(** The predicate of the [sameAuthor] filter. The [??] after [test] never
    takes its right operand: [test] returns a boolean. *)
Definition same_author (hint : string) (t : Track) : bool :=
  existsb (fun name => regexp_exact_i_test name (author (info t)))
          [hint; hint ++ " - Topic"].

(** The predicate of the [sameDuration] filter. *)
Definition same_duration (hint : Z) (t : Track) : bool :=
  truthy_number (length (info t))
  && (hint - 2000 <=? length (info t))%Z
  && (length (info t) <=? hint + 200)%Z.

(** [search.tracks.filter((t) => t instanceof TrackClass)] *)
Fixpoint only_tracks (es : list Entry) : list Track :=
  match es with
  | [] => []
  | ETrack t :: rest => t :: only_tracks rest
  | EPartial _ :: rest => only_tracks rest
  end.

Definition resolve_query (p : TrackPartial) : string :=
  partial_title p ++
  (if truthy_ostring (partial_author p)
   then " - " ++ js_interpolate (partial_author p) else "").

Definition resolveTrack (p : TrackPartial) : outcome Track :=
  match search (resolve_query p) (partial_requester p) (defaultSource manager) with
  | Throws e => Throws e
  | Returns found =>
      let candidates := only_tracks (tracks found) in
      match candidates with
      | [] => Throws (Error "No results found")
      | first :: _ =>
          if negb (LoadType_eqb (loadType found) SEARCH_RESULT)
          then Throws (Error "No results found")
          else
            (* [candidates] is not empty and [first] is [search.tracks[0]] *)
            let by_author :=
              match partial_author p with
              | Some a =>
                  if truthy_string a
                  then head (List.filter (same_author a) candidates)
                  else None
              | None => None
              end in
            match by_author with
            | Some t => Returns t
            | None =>
                let by_duration :=
                  match partial_length p with
                  | Some l =>
                      if truthy_number l
                      then head (List.filter (same_duration l) candidates)
                      else None
                  | None => None
                  end in
                match by_duration with
                | Some t => Returns t
                | None => Returns first
                end
            end
      end
  end.

End Search.

End LavalinkManager.

(** ** What the program sends and emits *)

Definition Snowflake : Type := string.

(** Options of a [play] payload. *)
Record PlayOptions : Type := {
  startTime : option Z;
  endTime : option Z;
  opt_volume : option Z;
  opt_pause : option bool
}.

Definition no_options : PlayOptions :=
  {| startTime := None; endTime := None; opt_volume := None; opt_pause := None |}.

(** The filters document is passed through as it is. *)
Definition Filters : Type := list (string * string).

(** Payloads written to the node's websocket. *)
Inductive Frame : Type :=
| op_play (guildId : Snowflake) (track : string) (options : PlayOptions)
| op_stop (guildId : Snowflake)
| op_pause (guildId : Snowflake) (pause : bool)
| op_seek (guildId : Snowflake) (position : Z)
| op_volume (guildId : Snowflake) (volume : Z)
| op_filters (guildId : Snowflake) (filters : Filters)
| op_destroy (guildId : Snowflake).

(** Gateway payloads with [op: 4] sent on the guild's shard. *)
Record VoiceStateUpdate : Type := {
  guild_id : Snowflake;
  channel_id : option Snowflake;
  self_mute : bool;
  self_deaf : bool
}.

(** [PATCH /guilds/:id/voice-states/@me] requests. *)
Inductive ApiRequest : Type :=
| patch_suppress_false (guild channel : Snowflake)
| patch_request_to_speak (guild channel : Snowflake).

(** Events, under the names the manager gives them. An event is logged
    when the manager emits it: when it is emitted on a node or a player
    that still has the listeners of its constructor, which forward it. *)
Inductive Event : Type :=
| NODE_CONNECTED (node : nat)
| NODE_DESTROYED (node : nat) (reason : string)
| NODE_DISCONNECTED (node : nat) (code : Z) (reason : string)
| NODE_ERROR (node : nat) (error : exn)
| NODE_RECONNECTING (node : nat)
| PLAYER_CONNECTED (guild : Snowflake)
| PLAYER_DESTROYED (guild : Snowflake) (reason : string)
| PLAYER_ERROR (guild : Snowflake) (error : exn)
| PLAYER_MOVED (guild : Snowflake) (oldChannel newChannel : option Snowflake)
| PLAYER_PAUSED (guild : Snowflake) (reason : string)
| PLAYER_RESUMED (guild : Snowflake) (reason : string).

(** ** Nodes (src/structures/Node.ts) *)

Module Node.

Inductive NodeState : Type :=
| DISCONNECTED | CONNECTING | RECONNECTING | CONNECTED | DESTROYED.

Definition NodeState_eqb (a b : NodeState) : bool :=
  match a, b with
  | DISCONNECTED, DISCONNECTED | CONNECTING, CONNECTING
  | RECONNECTING, RECONNECTING | CONNECTED, CONNECTED
  | DESTROYED, DESTROYED => true
  | _, _ => false
  end.

(** The options as the caller gives them. *)
Record NodeOptions : Type := {
  host : option string;
  port : option Z;
  password : option string;
  secure : option bool;
  clientName : option string;
  requestTimeout : option Z;
  maxRetrys : option Z;
  retryDelay : option Z;
  connectionTimeout : option Z
}.

(** [this.options], every field defined. *)
Record CompleteNodeOptions : Type := {
  c_host : string;
  c_port : Z;
  c_password : string;
  c_secure : bool;
  c_clientName : string;
  c_connectionTimeout : Z;
  c_requestTimeout : Z;
  c_maxRetrys : Z;
  c_retryDelay : Z
}.

(** [a ?? b] *)
Definition nullish {A : Type} (a : option A) (b : A) : A :=
  match a with Some x => x | None => b end.

Definition complete (o : NodeOptions) : CompleteNodeOptions :=
  {| c_host := nullish (host o) "localhost";
     c_port := nullish (port o) 2333%Z;
     c_password := nullish (password o) "youshallnotpass";
     c_secure := nullish (secure o) false;
     c_clientName := nullish (clientName o) "rose-lavalink";
     c_connectionTimeout := nullish (connectionTimeout o) 15000%Z;
     c_requestTimeout := nullish (requestTimeout o) 15000%Z;
     c_maxRetrys := nullish (maxRetrys o) 10%Z;
     c_retryDelay := nullish (retryDelay o) 15000%Z |}.

Record t : Type := {
  options : CompleteNodeOptions;
  identifier : nat;
  state : NodeState;
  (** compared with [maxRetrys] *)
  reconnectAttempts : Z;
  (** whether the retry interval is armed *)
  reconnectTimeout : bool;
  (** whether [ws] holds a socket *)
  ws : bool;
  (** whether the promise of a [connect] started by [reconnect] is pending *)
  attempt : bool;
  (** whether the listeners of the constructor are still attached *)
  listeners : bool
}.

Definition set_options (v : CompleteNodeOptions) (x : t) : t :=
  {| options := v; identifier := identifier x; state := state x;
     reconnectAttempts := reconnectAttempts x;
     reconnectTimeout := reconnectTimeout x; ws := ws x;
     attempt := attempt x; listeners := listeners x |}.

Definition set_identifier (v : nat) (x : t) : t :=
  {| options := options x; identifier := v; state := state x;
     reconnectAttempts := reconnectAttempts x;
     reconnectTimeout := reconnectTimeout x; ws := ws x;
     attempt := attempt x; listeners := listeners x |}.

Definition set_state (v : NodeState) (x : t) : t :=
  {| options := options x; identifier := identifier x; state := v;
     reconnectAttempts := reconnectAttempts x;
     reconnectTimeout := reconnectTimeout x; ws := ws x;
     attempt := attempt x; listeners := listeners x |}.

Definition set_reconnectAttempts (v : Z) (x : t) : t :=
  {| options := options x; identifier := identifier x; state := state x;
     reconnectAttempts := v; reconnectTimeout := reconnectTimeout x;
     ws := ws x; attempt := attempt x; listeners := listeners x |}.

Definition set_reconnectTimeout (v : bool) (x : t) : t :=
  {| options := options x; identifier := identifier x; state := state x;
     reconnectAttempts := reconnectAttempts x; reconnectTimeout := v;
     ws := ws x; attempt := attempt x; listeners := listeners x |}.

Definition set_ws (v : bool) (x : t) : t :=
  {| options := options x; identifier := identifier x; state := state x;
     reconnectAttempts := reconnectAttempts x;
     reconnectTimeout := reconnectTimeout x; ws := v; attempt := attempt x;
     listeners := listeners x |}.

Definition set_attempt (v : bool) (x : t) : t :=
  {| options := options x; identifier := identifier x; state := state x;
     reconnectAttempts := reconnectAttempts x;
     reconnectTimeout := reconnectTimeout x; ws := ws x; attempt := v;
     listeners := listeners x |}.

Definition set_listeners (v : bool) (x : t) : t :=
  {| options := options x; identifier := identifier x; state := state x;
     reconnectAttempts := reconnectAttempts x;
     reconnectTimeout := reconnectTimeout x; ws := ws x;
     attempt := attempt x; listeners := v |}.

(** The constructor. [options], [identifier] and [manager] may be
    undefined; a node that is built has emitted [CREATED]. *)
Definition new (options : option NodeOptions) (identifier : option nat)
    (manager : bool) : outcome t :=
  match options with
  | None => Throws (TypeError "Expected options to be defined")
  | Some o =>
      match identifier with
      | None => Throws (TypeError "Expected identifier to be defined")
      | Some i =>
          if negb manager then Throws (TypeError "Expected manager to be defined")
          else
            let c := complete o in
            if (c_connectionTimeout c >? c_retryDelay c)%Z
            then Throws (Error "Node connection timeout must be greater than the reconnect retry delay")
            else Returns {| options := c; identifier := i; state := DISCONNECTED;
                            reconnectAttempts := 0%Z; reconnectTimeout := false;
                            ws := false; attempt := false; listeners := true |}
      end
  end.

End Node.

(** ** The environment of a player

    The node the player is bound to, the tables of the manager, what has
    been written to the node and to the gateway, the events delivered, and
    the index of the next answer of the outside world. *)

Record Env : Type := {
  (** [this.node] *)
  node : Node.t;
  (** payloads written to the node's socket, oldest first *)
  node_sent : list Frame;
  (** [ws.close(code, reason)] calls *)
  node_closed : list (Z * string);
  gateway_sent : list VoiceStateUpdate;
  api_sent : list ApiRequest;
  events : list Event;
  (** [manager.players]: guild id to player object, in insertion order *)
  manager_players : list (Snowflake * nat);
  (** the keys of [manager.nodes] *)
  manager_nodes : list nat;
  (** index of the next answer of the outside world *)
  clock : nat
}.

Definition set_node (v : Node.t) (x : Env) : Env :=
  {| node := v; node_sent := node_sent x; node_closed := node_closed x;
     gateway_sent := gateway_sent x; api_sent := api_sent x;
     events := events x; manager_players := manager_players x;
     manager_nodes := manager_nodes x; clock := clock x |}.

Definition set_node_sent (v : list Frame) (x : Env) : Env :=
  {| node := node x; node_sent := v; node_closed := node_closed x;
     gateway_sent := gateway_sent x; api_sent := api_sent x;
     events := events x; manager_players := manager_players x;
     manager_nodes := manager_nodes x; clock := clock x |}.

Definition set_node_closed (v : list (Z * string)) (x : Env) : Env :=
  {| node := node x; node_sent := node_sent x; node_closed := v;
     gateway_sent := gateway_sent x; api_sent := api_sent x;
     events := events x; manager_players := manager_players x;
     manager_nodes := manager_nodes x; clock := clock x |}.

Definition set_gateway_sent (v : list VoiceStateUpdate) (x : Env) : Env :=
  {| node := node x; node_sent := node_sent x; node_closed := node_closed x;
     gateway_sent := v; api_sent := api_sent x; events := events x;
     manager_players := manager_players x; manager_nodes := manager_nodes x;
     clock := clock x |}.

Definition set_api_sent (v : list ApiRequest) (x : Env) : Env :=
  {| node := node x; node_sent := node_sent x; node_closed := node_closed x;
     gateway_sent := gateway_sent x; api_sent := v; events := events x;
     manager_players := manager_players x; manager_nodes := manager_nodes x;
     clock := clock x |}.

Definition set_events (v : list Event) (x : Env) : Env :=
  {| node := node x; node_sent := node_sent x; node_closed := node_closed x;
     gateway_sent := gateway_sent x; api_sent := api_sent x; events := v;
     manager_players := manager_players x; manager_nodes := manager_nodes x;
     clock := clock x |}.

Definition set_manager_players (v : list (Snowflake * nat)) (x : Env) : Env :=
  {| node := node x; node_sent := node_sent x; node_closed := node_closed x;
     gateway_sent := gateway_sent x; api_sent := api_sent x;
     events := events x; manager_players := v;
     manager_nodes := manager_nodes x; clock := clock x |}.

Definition set_manager_nodes (v : list nat) (x : Env) : Env :=
  {| node := node x; node_sent := node_sent x; node_closed := node_closed x;
     gateway_sent := gateway_sent x; api_sent := api_sent x;
     events := events x; manager_players := manager_players x;
     manager_nodes := v; clock := clock x |}.

Definition set_clock (v : nat) (x : Env) : Env :=
  {| node := node x; node_sent := node_sent x; node_closed := node_closed x;
     gateway_sent := gateway_sent x; api_sent := api_sent x;
     events := events x; manager_players := manager_players x;
     manager_nodes := manager_nodes x; clock := v |}.

(** [Collection#delete] and [Collection#has] on [manager.players]. *)
Definition players_delete (guild : Snowflake) (m : list (Snowflake * nat))
  : list (Snowflake * nat) :=
  List.filter (fun kv => negb (String.eqb (fst kv) guild)) m.

Definition players_has (guild : Snowflake) (m : list (Snowflake * nat)) : bool :=
  existsb (fun kv => String.eqb (fst kv) guild) m.

(** The answers of the outside world, by the index of the call. *)

Inductive gateway_result : Type :=
| gateway_accepted
| gateway_rejected
| gateway_threw (e : exn).

Record Outside : Type := {
  (** [manager.resolveTrack(partial)] *)
  resolveTrack_at : nat -> TrackPartial -> outcome Track;
  (** the error passed to the callback of [ws.send], if any *)
  ws_send_error : nat -> option exn;
  (** [Math.random()], as the fraction [n / (n + d + 1)] of [(n, d)] *)
  Math_random : nat -> nat * nat;
  (** [_getStagePermissions()]: [becomeSpeaker] and [request] *)
  stagePermissions : nat -> outcome (bool * bool);
  (** the error of a REST request to the host application, if any *)
  api_error : nat -> option exn;
  (** whether [api.channels.get(voiceChannelId)] is a stage channel *)
  channel_is_stage : nat -> outcome bool;
  (** the shard's [ws._send] *)
  gateway_send : nat -> gateway_result
}.

(** [Math.floor(Math.random() * n)] *)
Definition floor_random (u : nat * nat) (n : nat) : nat :=
  (fst u * n) / (fst u + snd u + 1).

(** [Node#send]: the promise resolves, rejects or never settles. *)
Inductive sent : Type :=
| Sent
| Rejected (e : exn)
| Unsettled.

Definition node_emit (ev : Event) (e : Env) : Env :=
  if Node.listeners (node e) then set_events (events e ++ [ev]) e else e.

Definition Node_send (out : Outside) (msg : Frame) (e : Env) : sent * Env :=
  if negb (Node.NodeState_eqb (Node.state (node e)) Node.CONNECTED) then
    (Rejected (Error "Cannot send payloads before a connection is established"), e)
  else if Node.ws (node e) then
    match ws_send_error out (clock e) with
    | Some err =>
        (Rejected err,
         set_clock (S (clock e))
           (node_emit (NODE_ERROR (Node.identifier (node e)) err) e))
    | None =>
        (Sent, set_clock (S (clock e)) (set_node_sent (node_sent e ++ [msg]) e))
    end
  else (Unsettled, e).

(** ** Players (src/structures/Player.ts) *)

Module Player.

Inductive PlayerState : Type :=
| DISCONNECTED | CONNECTING | CONNECTED | PAUSED | PLAYING | DESTROYED.

Definition PlayerState_eqb (a b : PlayerState) : bool :=
  match a, b with
  | DISCONNECTED, DISCONNECTED | CONNECTING, CONNECTING
  | CONNECTED, CONNECTED | PAUSED, PAUSED | PLAYING, PLAYING
  | DESTROYED, DESTROYED => true
  | _, _ => false
  end.

(** ['off' | 'single' | 'queue'] *)
Inductive LoopType : Type := Off | Single | Queue.

(** ['destroy' | 'pause'] *)
Inductive Behavior : Type := behavior_destroy | behavior_pause.

Record CompletePlayerOptions : Type := {
  guildId : Snowflake;
  textChannelId : Snowflake;
  voiceChannelId : Snowflake;
  selfMute : bool;
  selfDeafen : bool;
  connectionTimeout : Z;
  becomeSpeaker : bool;
  moveBehavior : Behavior;
  stageMoveBehavior : Behavior
}.

(** The voice state data of the gateway, as far as the player reads it. *)
Record VoiceState : Type := {
  voice_channel_id : option Snowflake;
  suppress : bool
}.

(** What is left to run of a call that was started and not awaited. *)
Inductive Cont : Type :=
| after__disconnect
| after_pause (reason : string)
| after_resume (reason : string)
| play_rejected (error : exn)
| on_connect.

Record t : Type := {
  currentVoiceChannel : option Snowflake;
  filters : Filters;
  isSpeaker : option bool;
  isStage : option bool;
  loop : LoopType;
  options : CompletePlayerOptions;
  position : option Z;
  queue : list Entry;
  queuePosition : option nat;
  state : PlayerState;
  volume : Z;
  lastVoiceState : option VoiceState;
  sentPausedPlay : option bool;
  (** [this.node.identifier] *)
  node_identifier : nat;
  (** whether the listeners of the constructor are still attached *)
  listeners : bool;
  (** whether the [once] listeners of [connect] are attached *)
  connecting : bool;
  (** calls started and not awaited, oldest first *)
  pending : list Cont
}.

Definition set_currentVoiceChannel (v : option Snowflake) (x : t) : t :=
  {| currentVoiceChannel := v; filters := filters x;
     isSpeaker := isSpeaker x; isStage := isStage x; loop := loop x;
     options := options x; position := position x; queue := queue x;
     queuePosition := queuePosition x; state := state x;
     volume := volume x; lastVoiceState := lastVoiceState x;
     sentPausedPlay := sentPausedPlay x;
     node_identifier := node_identifier x; listeners := listeners x;
     connecting := connecting x; pending := pending x |}.

Definition set_filters (v : Filters) (x : t) : t :=
  {| currentVoiceChannel := currentVoiceChannel x; filters := v;
     isSpeaker := isSpeaker x; isStage := isStage x; loop := loop x;
     options := options x; position := position x; queue := queue x;
     queuePosition := queuePosition x; state := state x;
     volume := volume x; lastVoiceState := lastVoiceState x;
     sentPausedPlay := sentPausedPlay x;
     node_identifier := node_identifier x; listeners := listeners x;
     connecting := connecting x; pending := pending x |}.

Definition set_isSpeaker (v : option bool) (x : t) : t :=
  {| currentVoiceChannel := currentVoiceChannel x; filters := filters x;
     isSpeaker := v; isStage := isStage x; loop := loop x;
     options := options x; position := position x; queue := queue x;
     queuePosition := queuePosition x; state := state x;
     volume := volume x; lastVoiceState := lastVoiceState x;
     sentPausedPlay := sentPausedPlay x;
     node_identifier := node_identifier x; listeners := listeners x;
     connecting := connecting x; pending := pending x |}.

Definition set_isStage (v : option bool) (x : t) : t :=
  {| currentVoiceChannel := currentVoiceChannel x; filters := filters x;
     isSpeaker := isSpeaker x; isStage := v; loop := loop x;
     options := options x; position := position x; queue := queue x;
     queuePosition := queuePosition x; state := state x;
     volume := volume x; lastVoiceState := lastVoiceState x;
     sentPausedPlay := sentPausedPlay x;
     node_identifier := node_identifier x; listeners := listeners x;
     connecting := connecting x; pending := pending x |}.

Definition set_loop (v : LoopType) (x : t) : t :=
  {| currentVoiceChannel := currentVoiceChannel x; filters := filters x;
     isSpeaker := isSpeaker x; isStage := isStage x; loop := v;
     options := options x; position := position x; queue := queue x;
     queuePosition := queuePosition x; state := state x;
     volume := volume x; lastVoiceState := lastVoiceState x;
     sentPausedPlay := sentPausedPlay x;
     node_identifier := node_identifier x; listeners := listeners x;
     connecting := connecting x; pending := pending x |}.

Definition set_options (v : CompletePlayerOptions) (x : t) : t :=
  {| currentVoiceChannel := currentVoiceChannel x; filters := filters x;
     isSpeaker := isSpeaker x; isStage := isStage x; loop := loop x;
     options := v; position := position x; queue := queue x;
     queuePosition := queuePosition x; state := state x;
     volume := volume x; lastVoiceState := lastVoiceState x;
     sentPausedPlay := sentPausedPlay x;
     node_identifier := node_identifier x; listeners := listeners x;
     connecting := connecting x; pending := pending x |}.

Definition set_position (v : option Z) (x : t) : t :=
  {| currentVoiceChannel := currentVoiceChannel x; filters := filters x;
     isSpeaker := isSpeaker x; isStage := isStage x; loop := loop x;
     options := options x; position := v; queue := queue x;
     queuePosition := queuePosition x; state := state x;
     volume := volume x; lastVoiceState := lastVoiceState x;
     sentPausedPlay := sentPausedPlay x;
     node_identifier := node_identifier x; listeners := listeners x;
     connecting := connecting x; pending := pending x |}.

Definition set_queue (v : list Entry) (x : t) : t :=
  {| currentVoiceChannel := currentVoiceChannel x; filters := filters x;
     isSpeaker := isSpeaker x; isStage := isStage x; loop := loop x;
     options := options x; position := position x; queue := v;
     queuePosition := queuePosition x; state := state x;
     volume := volume x; lastVoiceState := lastVoiceState x;
     sentPausedPlay := sentPausedPlay x;
     node_identifier := node_identifier x; listeners := listeners x;
     connecting := connecting x; pending := pending x |}.

Definition set_queuePosition (v : option nat) (x : t) : t :=
  {| currentVoiceChannel := currentVoiceChannel x; filters := filters x;
     isSpeaker := isSpeaker x; isStage := isStage x; loop := loop x;
     options := options x; position := position x; queue := queue x;
     queuePosition := v; state := state x; volume := volume x;
     lastVoiceState := lastVoiceState x;
     sentPausedPlay := sentPausedPlay x;
     node_identifier := node_identifier x; listeners := listeners x;
     connecting := connecting x; pending := pending x |}.

Definition set_state (v : PlayerState) (x : t) : t :=
  {| currentVoiceChannel := currentVoiceChannel x; filters := filters x;
     isSpeaker := isSpeaker x; isStage := isStage x; loop := loop x;
     options := options x; position := position x; queue := queue x;
     queuePosition := queuePosition x; state := v; volume := volume x;
     lastVoiceState := lastVoiceState x;
     sentPausedPlay := sentPausedPlay x;
     node_identifier := node_identifier x; listeners := listeners x;
     connecting := connecting x; pending := pending x |}.

Definition set_volume (v : Z) (x : t) : t :=
  {| currentVoiceChannel := currentVoiceChannel x; filters := filters x;
     isSpeaker := isSpeaker x; isStage := isStage x; loop := loop x;
     options := options x; position := position x; queue := queue x;
     queuePosition := queuePosition x; state := state x; volume := v;
     lastVoiceState := lastVoiceState x;
     sentPausedPlay := sentPausedPlay x;
     node_identifier := node_identifier x; listeners := listeners x;
     connecting := connecting x; pending := pending x |}.

Definition set_lastVoiceState (v : option VoiceState) (x : t) : t :=
  {| currentVoiceChannel := currentVoiceChannel x; filters := filters x;
     isSpeaker := isSpeaker x; isStage := isStage x; loop := loop x;
     options := options x; position := position x; queue := queue x;
     queuePosition := queuePosition x; state := state x;
     volume := volume x; lastVoiceState := v;
     sentPausedPlay := sentPausedPlay x;
     node_identifier := node_identifier x; listeners := listeners x;
     connecting := connecting x; pending := pending x |}.

Definition set_sentPausedPlay (v : option bool) (x : t) : t :=
  {| currentVoiceChannel := currentVoiceChannel x; filters := filters x;
     isSpeaker := isSpeaker x; isStage := isStage x; loop := loop x;
     options := options x; position := position x; queue := queue x;
     queuePosition := queuePosition x; state := state x;
     volume := volume x; lastVoiceState := lastVoiceState x;
     sentPausedPlay := v; node_identifier := node_identifier x;
     listeners := listeners x; connecting := connecting x;
     pending := pending x |}.

Definition set_node_identifier (v : nat) (x : t) : t :=
  {| currentVoiceChannel := currentVoiceChannel x; filters := filters x;
     isSpeaker := isSpeaker x; isStage := isStage x; loop := loop x;
     options := options x; position := position x; queue := queue x;
     queuePosition := queuePosition x; state := state x;
     volume := volume x; lastVoiceState := lastVoiceState x;
     sentPausedPlay := sentPausedPlay x; node_identifier := v;
     listeners := listeners x; connecting := connecting x;
     pending := pending x |}.

Definition set_listeners (v : bool) (x : t) : t :=
  {| currentVoiceChannel := currentVoiceChannel x; filters := filters x;
     isSpeaker := isSpeaker x; isStage := isStage x; loop := loop x;
     options := options x; position := position x; queue := queue x;
     queuePosition := queuePosition x; state := state x;
     volume := volume x; lastVoiceState := lastVoiceState x;
     sentPausedPlay := sentPausedPlay x;
     node_identifier := node_identifier x; listeners := v;
     connecting := connecting x; pending := pending x |}.

Definition set_connecting (v : bool) (x : t) : t :=
  {| currentVoiceChannel := currentVoiceChannel x; filters := filters x;
     isSpeaker := isSpeaker x; isStage := isStage x; loop := loop x;
     options := options x; position := position x; queue := queue x;
     queuePosition := queuePosition x; state := state x;
     volume := volume x; lastVoiceState := lastVoiceState x;
     sentPausedPlay := sentPausedPlay x;
     node_identifier := node_identifier x; listeners := listeners x;
     connecting := v; pending := pending x |}.

Definition set_pending (v : list Cont) (x : t) : t :=
  {| currentVoiceChannel := currentVoiceChannel x; filters := filters x;
     isSpeaker := isSpeaker x; isStage := isStage x; loop := loop x;
     options := options x; position := position x; queue := queue x;
     queuePosition := queuePosition x; state := state x;
     volume := volume x; lastVoiceState := lastVoiceState x;
     sentPausedPlay := sentPausedPlay x;
     node_identifier := node_identifier x; listeners := listeners x;
     connecting := connecting x; pending := v |}.

Record St : Type := {
  this : t;
  env : Env
}.

Definition set_this (v : t) (x : St) : St :=
  {| this := v; env := env x |}.

Definition set_env (v : Env) (x : St) : St :=
  {| this := this x; env := v |}.

(** *** Computations on a player and its environment *)

Inductive result (A : Type) : Type :=
| Ok (a : A) (s : St)
| Throw (e : exn) (s : St)
| Stuck (s : St).
Arguments Ok {A} a s.
Arguments Throw {A} e s.
Arguments Stuck {A} s.

Definition M (A : Type) : Type := St -> result A.

(** The state a computation ends in, however it ends. *)
Definition final {A : Type} (r : result A) : St :=
  match r with Ok _ s | Throw _ s | Stuck s => s end.

#[export] Instance M_ret : MRet M := fun A a s => Ok a s.

#[export] Instance M_bind : MBind M := fun A B f m s =>
  match m s with
  | Ok a s' => f a s'
  | Throw e s' => Throw e s'
  | Stuck s' => Stuck s'
  end.

Definition throw {A : Type} (e : exn) : M A := fun s => Throw e s.
Definition stuck {A : Type} : M A := fun s => Stuck s.
Definition get : M t := fun s => Ok (this s) s.
Definition update (f : t -> t) : M unit := fun s => Ok tt (set_this (f (this s)) s).
Definition update_env (f : Env -> Env) : M unit :=
  fun s => Ok tt (set_env (f (env s)) s).
Definition skip_ : M unit := mret tt.

(** The next answer of the outside world. *)
Definition next_answer : M nat :=
  fun s => Ok (clock (env s)) (set_env (set_clock (S (clock (env s))) (env s)) s).

Definition playable (s : PlayerState) : bool :=
  match s with CONNECTED | PAUSED | PLAYING => true | _ => false end.

Definition guild (p : t) : Snowflake := guildId (options p).

(** The getter [currentTrack]. *)
Definition currentTrack (p : t) : option Entry :=
  match queuePosition p with
  | Some i => queue p !! i
  | None => None
  end.

(** [n++] on a field that may hold [null]. *)
Definition js_incr (n : option nat) : option nat :=
  match n with Some i => Some (S i) | None => Some 1 end.

Definition option_eqb (a b : option Snowflake) : bool :=
  match a, b with
  | Some x, Some y => String.eqb x y
  | None, None => true
  | _, _ => false
  end.

Definition truthy_obool (b : option bool) : bool :=
  match b with Some true => true | _ => false end.

(** [[q[i], q[j]] = [q[j], q[i]]] for indices inside the array. *)
Definition js_swap (i j : nat) (q : list Entry) : list Entry :=
  match q !! j, q !! i with
  | Some qj, Some qi => <[j := qi]> (<[i := qj]> q)
  | _, _ => q
  end.

Section Operations.

Variable out : Outside.

Definition emit (ev : Event) : M unit := fun s =>
  if listeners (this s)
  then Ok tt (set_env (set_events (events (env s) ++ [ev]) (env s)) s)
  else Ok tt s.

(** [await this.node.send(msg)] *)
Definition send (msg : Frame) : M unit := fun s =>
  match Node_send out msg (env s) with
  | (Sent, e) => Ok tt (set_env e s)
  | (Rejected err, e) => Throw err (set_env e s)
  | (Unsettled, e) => Stuck (set_env e s)
  end.

(** [void this.node.send(msg)]; the result tells whether the payload
    was written. *)
Definition void_send (msg : Frame) : M bool := fun s =>
  match Node_send out msg (env s) with
  | (Sent, e) => Ok true (set_env e s)
  | (_, e) => Ok false (set_env e s)
  end.

(** An awaited REST request to the host application. *)
Definition api_request (r : ApiRequest) : M unit :=
  n ← next_answer;
  match api_error out n with
  | Some e => throw e
  | None => update_env (fun e => set_api_sent (api_sent e ++ [r]) e)
  end.

Definition leave (g : Snowflake) : VoiceStateUpdate :=
  {| guild_id := g; channel_id := None; self_mute := false; self_deaf := false |}.

(** [void this._disconnect()]: the gateway payload goes out now, the
    two assignments after the [await] are left pending. *)
Definition void__disconnect : M unit :=
  p ← get;
  n ← next_answer;
  match gateway_send out n with
  | gateway_accepted =>
      update_env (fun e => set_gateway_sent (gateway_sent e ++ [leave (guild p)]) e) ;;
      update (fun p => set_pending (pending p ++ [after__disconnect]) p)
  | _ => skip_
  end.

(** [this.emit('DESTROYED', { player: this, reason })]: the listener of
    the constructor, then [onDestroy] of a [connect] that waits. *)
Definition emit_DESTROYED (reason : string) : M unit :=
  p ← get;
  emit (PLAYER_DESTROYED (guild p) reason) ;;
  if connecting p then
    update (set_connecting false) ;;
    (if truthy_ostring (currentVoiceChannel p) then void__disconnect else skip_) ;;
    emit (PLAYER_ERROR (guild p)
            (Error ("Failed to connect to the voice channel, Player was destroyed: "
                    ++ reason)))
  else skip_.

(** [this.emit('CONNECTED', this)]: the listener of the constructor,
    then [onConnect] of a [connect] that waits, up to its first
    [await]. *)
Definition emit_CONNECTED : M unit :=
  p ← get;
  emit (PLAYER_CONNECTED (guild p)) ;;
  if connecting p then
    update (set_connecting false) ;;
    if becomeSpeaker (options p)
    then update (fun p => set_pending (pending p ++ [on_connect]) p)
    else skip_
  else skip_.

(** [connect()], up to the creation of its promise; the promise is
    settled by [onConnect], [onDestroy] or the timer. *)
Definition connect : M unit :=
  p ← get;
  if negb (PlayerState_eqb (state p) DISCONNECTED) then
    throw (Error "Cannot initiate a connection when the player isn't in a disconnected state")
  else
    n ← next_answer;
    match gateway_send out n with
    | gateway_accepted =>
        update_env (fun e => set_gateway_sent
          (gateway_sent e ++
             [{| guild_id := guild p; channel_id := Some (voiceChannelId (options p));
                 self_mute := selfMute (options p);
                 self_deaf := selfDeafen (options p) |}]) e)
    | gateway_rejected => skip_
    | gateway_threw e => throw e
    end ;;
    update (set_state CONNECTING) ;;
    update (set_connecting true).

Definition destroy (reason : string) : M unit :=
  p ← get;
  (if truthy_ostring (currentVoiceChannel p) then void__disconnect else skip_) ;;
  void_send (op_destroy (guild p)) ;;
  update (set_queue []) ;;
  update (set_queuePosition None) ;;
  update (set_position None) ;;
  update (set_state DESTROYED) ;;
  emit_DESTROYED reason ;;
  update (fun p => set_connecting false (set_listeners false p)) ;;
  update_env (fun e => set_manager_players (players_delete (guild p) (manager_players e)) e).

(** [_stop()] *)
Definition _stop : M unit :=
  p ← get;
  send (op_stop (guild p)) ;;
  update (set_position None) ;;
  update (set_state CONNECTED).

Definition with_volume (v : option Z) (o : PlayOptions) : PlayOptions :=
  {| startTime := startTime o; endTime := endTime o; opt_volume := v;
     opt_pause := opt_pause o |}.

Definition with_pause (b : option bool) (o : PlayOptions) : PlayOptions :=
  {| startTime := startTime o; endTime := endTime o; opt_volume := opt_volume o;
     opt_pause := b |}.

(** [options ?? {}] *)
Definition or_empty (o : option PlayOptions) : PlayOptions :=
  match o with Some x => x | None => no_options end.

(** [_play(track, options)] *)
Definition _play (tr : Track) (opts : option PlayOptions) : M unit :=
  p ← get;
  if negb (playable (state p)) then
    throw (Error "Cannot play when the player isn't in a connected, paused, or playing state")
  else
    opts1 ←
      match opts ≫= opt_volume with
      | Some v =>
          if (v <? 0)%Z || (v >? 1000)%Z
          then throw (Error "Volume must be between 0 and 1000")
          else
            update (set_volume v) ;;
            mret (if (v =? 100)%Z then with_volume None <$> opts else opts)
      | None =>
          if negb (volume p =? 100)%Z
          then mret (Some (with_volume (Some (volume p)) (or_empty opts)))
          else mret opts
      end;
    let opts2 :=
      if truthy_obool (isStage p) && negb (truthy_obool (isSpeaker p))
      then Some (with_pause (Some true) (or_empty opts1))
      else opts1 in
    (if truthy_obool (opts2 ≫= opt_pause)
     then update (set_sentPausedPlay (Some true)) else skip_) ;;
    send (op_play (guild p) (track tr) (or_empty opts2)).

(** [if (queue[i] instanceof TrackPartialClass)
       queue[i] = await this.manager.resolveTrack(queue[i])] *)
Definition resolve_at (i : nat) : M unit :=
  p ← get;
  match queue p !! i with
  | Some (EPartial partial) =>
      n ← next_answer;
      match resolveTrack_at out n partial with
      | Returns tr => update (set_queue (<[i := ETrack tr]> (queue p)))
      | Throws e => throw e
      end
  | _ => skip_
  end.

(** The four lines shared by [play], [skip] and [shuffle]: resolve the
    entry at [i], check that it is a track with a handle, play it, make
    it the current one. *)
Definition resolve_and_play (i : nat) (opts : option PlayOptions)
    (invalid : exn) : M unit :=
  resolve_at i ;;
  p ← get;
  match queue p !! i with
  | Some (ETrack tr) =>
      if truthy_string (track tr) then
        _play tr opts ;;
        update (set_queuePosition (Some i))
      else throw invalid
  | _ => throw invalid
  end.

(** [play(track, options)]: one entry or an array of entries. *)
Definition play (tr : Entry + list Entry) (opts : option PlayOptions) : M unit :=
  p ← get;
  if negb (playable (state p)) then
    throw (Error "Cannot play when the player isn't in a connected, paused, or playing state")
  else
    update (set_queue (queue p ++ match tr with inl e => [e] | inr es => es end)) ;;
    p ← get;
    if PlayerState_eqb (state p) CONNECTED then
      let newPosition :=
        match tr with
        | inr es => List.length (queue p) - List.length es
        | inl _ => List.length (queue p) - 1
        end in
      resolve_and_play newPosition opts (TypeError "Invalid track")
    else skip_.

(** [this._play(track).catch(handler)]: a rejection leaves the handler
    pending; a promise that never settles leaves nothing. *)
Definition _play_catch (tr : Track) : M unit := fun s =>
  match _play tr None s with
  | Ok _ s' => Ok tt s'
  | Throw e s' =>
      Ok tt (set_this (set_pending (pending (this s') ++ [play_rejected e]) (this s')) s')
  | Stuck s' => Ok tt s'
  end.

Definition is_single (l : LoopType) : bool :=
  match l with Single => true | _ => false end.

Definition is_queue (l : LoopType) : bool :=
  match l with Queue => true | _ => false end.

(** The choice of the index at the head of [_advanceQueue]:
    [if (this.queuePosition === null) this.queuePosition = 0
     else {
       if (this.loop !== 'single') this.queuePosition++
       if (!this.currentTrack && this.loop === 'queue') this.queuePosition = 0
     }] *)
Definition advance_index : M unit :=
  p ← get;
  match queuePosition p with
  | None => update (set_queuePosition (Some 0))
  | Some i =>
      (if negb (is_single (loop p))
       then update (set_queuePosition (Some (S i))) else skip_) ;;
      p ← get;
      if negb (bool_decide (is_Some (currentTrack p))) && is_queue (loop p)
      then update (set_queuePosition (Some 0)) else skip_
  end.

(** [_advanceQueue()]. The recursion of the source has no bound; [fuel]
    bounds it here and the computation is [Stuck] when it runs out. *)
Fixpoint _advanceQueue (fuel : nat) : M unit :=
  match fuel with
  | O => stuck
  | S fuel' =>
      p ← get;
      if negb (playable (state p)) then
        emit (PLAYER_ERROR (guild p)
          (Error "Cannot advance the queue when the player isn't in a connected, paused, or playing state"))
      else
        advance_index ;;
        p ← get;
        match currentTrack p, queuePosition p with
        | Some _, Some i =>
            resolve_at i ;;
            p ← get;
            let unable :=
              emit (PLAYER_ERROR (guild p)
                (Error "Unable to get Track from new queue position while advancing the queue")) ;;
              (if is_single (loop p)
               then update (fun p => set_queuePosition (js_incr (queuePosition p)) p)
               else skip_) ;;
              _advanceQueue fuel' in
            match currentTrack p with
            | Some (ETrack tr) =>
                if truthy_string (track tr) then _play_catch tr else unable
            | _ => unable
            end
        | _, _ => update (set_queuePosition None)
        end
  end.

(** [skip(index)] *)
Definition skip (fuel : nat) (index : option Z) : M unit :=
  p ← get;
  if negb (playable (state p)) then
    throw (Error "Cannot skip when the player isn't in a connected, paused, or playing state")
  else
    _stop ;;
    match index with
    | Some i =>
        if (i <? 0)%Z || (i >=? Z.of_nat (List.length (queue p)))%Z
        then throw (Error "Invalid index")
        else resolve_and_play (Z.to_nat i) None (TypeError "Invalid track")
    | None => _advanceQueue fuel
    end.

(** The loop of [shuffle], from [currentIndex] down to [0]. *)
Fixpoint shuffle_loop (currentIndex : nat) : M unit :=
  match currentIndex with
  | O => skip_
  | S currentIndex' =>
      n ← next_answer;
      let randomIndex := floor_random (Math_random out n) currentIndex in
      update (fun p => set_queue (js_swap currentIndex' randomIndex (queue p)) p) ;;
      shuffle_loop currentIndex'
  end.

(** [shuffle()] *)
Definition shuffle : M unit :=
  p ← get;
  if negb (playable (state p)) then
    throw (Error "Cannot shuffle when the player isn't in a connected, paused, or playing state")
  else
    _stop ;;
    shuffle_loop (List.length (queue p)) ;;
    resolve_and_play 0 None (Error "Invalid track at new queue position 0").

(** [stop()] *)
Definition stop : M unit :=
  p ← get;
  if negb (playable (state p)) then
    throw (Error "Cannot stop when the player isn't in a connected, paused, or playing state")
  else
    _stop ;;
    update (set_queuePosition None).

(** [setLoop(type)] *)
Definition setLoop (type : LoopType) : M unit :=
  update (set_loop type).

(** [this.emit(name, ...)] of an event that the constructor does not
    forward to the manager. The constructor attaches a forwarder to
    CONNECTED, CREATED, DESTROYED, ERROR, MOVED and to the four track
    events; it attaches none to PAUSED and none to RESUMED, so the
    manager emits neither [PLAYER_PAUSED] nor [PLAYER_RESUMED], which
    its typings declare, and nothing is logged. *)
Definition emit_unforwarded (ev : Event) : M unit := skip_.

(** [pause(reason)] and [resume(reason)], awaited. *)
Definition pause (reason : string) : M unit :=
  p ← get;
  if negb (playable (state p)) then
    throw (Error "Cannot pause when the player isn't in a connected, paused, or playing state")
  else
    send (op_pause (guild p) true) ;;
    update (set_state PAUSED) ;;
    emit_unforwarded (PLAYER_PAUSED (guild p) reason).

Definition resume (reason : string) : M unit :=
  p ← get;
  if negb (playable (state p)) then
    throw (Error "Cannot resume when the player isn't in a connected, paused, or playing state")
  else
    send (op_pause (guild p) false) ;;
    update (set_state PLAYING) ;;
    emit_unforwarded (PLAYER_RESUMED (guild p) reason).

(** [void this.pause(reason)] and [void this.resume(reason)]: the
    payload goes out now, what follows the [await] is left pending; a
    rejection is dropped. *)
Definition void_pause (reason : string) : M unit :=
  p ← get;
  if negb (playable (state p)) then skip_
  else
    written ← void_send (op_pause (guild p) true);
    if written : bool
    then update (fun p => set_pending (pending p ++ [after_pause reason]) p)
    else skip_.

Definition void_resume (reason : string) : M unit :=
  p ← get;
  if negb (playable (state p)) then skip_
  else
    written ← void_send (op_pause (guild p) false);
    if written : bool
    then update (fun p => set_pending (pending p ++ [after_resume reason]) p)
    else skip_.

(** Whether [_handleMove] left through a [return] or reached its last
    two assignments. *)
Inductive flow : Type := Returned | Continue.

Definition Behavior_is_destroy (b : Behavior) : bool :=
  match b with behavior_destroy => true | behavior_pause => false end.

Definition Behavior_is_pause (b : Behavior) : bool :=
  match b with behavior_pause => true | behavior_destroy => false end.

(** [_handleMove(newChannel, data)] before its last two assignments. *)
Definition _handleMove_branches (newChannel : option Snowflake)
    (data : VoiceState) : M flow :=
  p ← get;
  (if negb (option_eqb newChannel (currentVoiceChannel p))
   then emit (PLAYER_MOVED (guild p) (currentVoiceChannel p) newChannel)
   else skip_) ;;
  let wasCorrect := option_eqb (Some (voiceChannelId (options p))) (currentVoiceChannel p) in
  let nowCorrect := option_eqb (Some (voiceChannelId (options p))) newChannel in
  let wasSuppressed :=
    match lastVoiceState p with Some d => suppress d | None => false end in
  let nowSuppressed := suppress data in
  if playable (state p) then
    if Behavior_is_destroy (moveBehavior (options p))
       && (negb nowCorrect || negb (bool_decide (is_Some newChannel)))
    then
      destroy "Player was moved out of the voice channel" ;; mret Returned
    else
      (if Behavior_is_pause (moveBehavior (options p)) then
         if PlayerState_eqb (state p) PAUSED && negb wasCorrect && nowCorrect
         then void_resume "Moved into the voice channel"
         else if PlayerState_eqb (state p) PLAYING && wasCorrect && negb nowCorrect
         then void_pause "Moved out of the voice channel"
         else skip_
       else skip_) ;;
      if truthy_obool (isStage p) && becomeSpeaker (options p)
         && bool_decide (is_Some (lastVoiceState p))
      then
        update (set_isSpeaker (Some (negb nowSuppressed))) ;;
        if Behavior_is_destroy (stageMoveBehavior (options p))
           && negb wasSuppressed && nowSuppressed
        then destroy "Player was moved to the audience" ;; mret Returned
        else if Behavior_is_pause (stageMoveBehavior (options p)) then
          if PlayerState_eqb (state p) PAUSED && wasSuppressed && negb nowSuppressed
          then void_resume "Became a speaker" ;; mret Continue
          else if PlayerState_eqb (state p) PLAYING && negb wasSuppressed && nowSuppressed
          then
            void_pause "Moved to the audience" ;;
            n ← next_answer;
            match stagePermissions out n with
            | Throws e => throw e
            | Returns (canBecomeSpeaker, canRequest) =>
                (if canRequest
                 then api_request (patch_request_to_speak (guild p) (voiceChannelId (options p)))
                 else if canBecomeSpeaker
                 then api_request (patch_suppress_false (guild p) (voiceChannelId (options p)))
                 else skip_) ;;
                mret Continue
            end
          else mret Continue
        else mret Continue
      else mret Continue
  else if PlayerState_eqb (state p) CONNECTING then
    (if nowCorrect
     then update (set_state CONNECTED) ;; emit_CONNECTED
     else destroy "Connected to incorrect channel") ;;
    mret Continue
  else mret Continue.

(** [_handleMove(newChannel, data)] *)
Definition _handleMove (newChannel : option Snowflake) (data : VoiceState)
  : M unit :=
  f ← _handleMove_branches newChannel data;
  match f with
  | Returned => skip_
  | Continue =>
      update (set_currentVoiceChannel newChannel) ;;
      update (set_lastVoiceState (Some data))
  end.

(** What a pending call does when it is resumed. *)
Definition resume_cont (fuel : nat) (c : Cont) : M unit :=
  match c with
  | after__disconnect =>
      update (set_currentVoiceChannel None) ;;
      update (set_state DISCONNECTED)
  | after_pause reason =>
      p ← get;
      update (set_state PAUSED) ;;
      emit_unforwarded (PLAYER_PAUSED (guild p) reason)
  | after_resume reason =>
      p ← get;
      update (set_state PLAYING) ;;
      emit_unforwarded (PLAYER_RESUMED (guild p) reason)
  | play_rejected error =>
      p ← get;
      emit (PLAYER_ERROR (guild p) error) ;;
      (if is_single (loop p)
       then update (fun p => set_queuePosition (js_incr (queuePosition p)) p)
       else skip_) ;;
      _advanceQueue fuel
  | on_connect =>
      p ← get;
      n ← next_answer;
      match channel_is_stage out n with
      | Throws e => throw e
      | Returns false => update (set_isStage (Some false))
      | Returns true =>
          update (set_isStage (Some true)) ;;
          update (set_isSpeaker (Some false)) ;;
          n ← next_answer;
          match stagePermissions out n with
          | Throws e => throw e
          | Returns (canBecomeSpeaker, canRequest) =>
              if canBecomeSpeaker then
                api_request (patch_suppress_false (guild p) (voiceChannelId (options p))) ;;
                update (set_isSpeaker (Some true))
              else if canRequest then
                api_request (patch_request_to_speak (guild p) (voiceChannelId (options p)))
              else
                p ← get;
                (if truthy_ostring (currentVoiceChannel p) then void__disconnect else skip_) ;;
                emit (PLAYER_ERROR (guild p)
                  (Error "Failed to connect to the stage channel, the bot does not have permissions to request to or become a speaker"))
          end
      end
  end.

(** Resume the oldest pending call. *)
Definition resume_next (fuel : nat) : M unit :=
  p ← get;
  match pending p with
  | [] => skip_
  | c :: rest => update (set_pending rest) ;; resume_cont fuel c
  end.

(** [seek(position)] *)
Definition seek (position : option Z) : M unit :=
  p ← get;
  if negb (playable (state p)) then
    throw (Error "Cannot seek when the player isn't in a connected, paused, or playing state")
  else
    match position with
    | None => throw (TypeError "Expected position to be defined")
    | Some ms =>
        if (ms <? 0)%Z then throw (Error "Position must be greater than 0")
        else send (op_seek (guild p) ms)
    end.

(** [setVolume(volume)] *)
Definition setVolume (v : Z) : M unit :=
  p ← get;
  if negb (playable (state p)) then
    throw (Error "Cannot set volume when the player isn't in a connected, paused, or playing state")
  else if (v <? 0)%Z || (v >? 1000)%Z then
    throw (Error "Volume must be between 0 and 1000")
  else
    update (set_volume v) ;;
    send (op_volume (guild p) v).

(** [setFilters(filters)] *)
Definition setFilters (f : option Filters) : M unit :=
  p ← get;
  if negb (playable (state p)) then
    throw (Error "Cannot set filters when the player isn't in a connected, paused, or playing state")
  else
    match f with
    | None => throw (TypeError "Expected filters to be defined")
    | Some filters =>
        send (op_filters (guild p) filters) ;;
        update (set_filters filters)
    end.

(** [clear(stop)] *)
Definition clear (stop_first : bool) : M unit :=
  (if stop_first then stop else skip_) ;;
  p ← get;
  update (set_queue match currentTrack p with Some e => [e] | None => [] end).

End Operations.

(** *** The constructor *)

(** The options as the caller gives them. *)
Record PlayerOptions : Type := {
  o_guildId : option Snowflake;
  o_textChannelId : option Snowflake;
  o_voiceChannelId : option Snowflake;
  o_selfMute : option bool;
  o_selfDeafen : option bool;
  o_connectionTimeout : option Z;
  o_becomeSpeaker : option bool;
  o_moveBehavior : option Behavior;
  o_stageMoveBehavior : option Behavior
}.

(** [new Player(options, node, manager)], where [players] is
    [manager.players]. A player that is built has emitted [CREATED]. *)
Definition new (o : option PlayerOptions) (node : nat) (manager : bool)
    (players : list (Snowflake * nat)) : outcome t :=
  match o with
  | None => Throws (TypeError "Expected options to be defined")
  | Some o =>
      if negb manager then Throws (TypeError "Expected manager to be defined")
      else
        if negb (truthy_ostring (o_guildId o))
        then Throws (TypeError "Expected options.guildId to be defined")
        else if negb (truthy_ostring (o_textChannelId o))
        then Throws (TypeError "Expected options.textChannelId to be defined")
        else if negb (truthy_ostring (o_voiceChannelId o))
        then Throws (TypeError "Expected options.voiceChannelId to be defined")
        else
          let g := default "" (o_guildId o) in
          if players_has g players
          then Throws (Error "A player with the specified guild ID is already defined")
          else
            Returns
              {| currentVoiceChannel := None; filters := []; isSpeaker := None;
                 isStage := None; loop := Off;
                 options :=
                   {| guildId := g;
                      textChannelId := default "" (o_textChannelId o);
                      voiceChannelId := default "" (o_voiceChannelId o);
                      selfMute := Node.nullish (o_selfMute o) false;
                      selfDeafen := Node.nullish (o_selfDeafen o) true;
                      connectionTimeout := Node.nullish (o_connectionTimeout o) 15000%Z;
                      becomeSpeaker := Node.nullish (o_becomeSpeaker o) true;
                      moveBehavior := Node.nullish (o_moveBehavior o) behavior_destroy;
                      stageMoveBehavior :=
                        Node.nullish (o_stageMoveBehavior o) behavior_pause |};
                 position := None; queue := []; queuePosition := None;
                 state := DISCONNECTED; volume := 100%Z; lastVoiceState := None;
                 sentPausedPlay := None; node_identifier := node;
                 listeners := true; connecting := false; pending := [] |}
  end.

(** *** Payloads of the node ([_handlePayload], the listener of [RAW]) *)

(** [payload.type] of a payload with [op: 'event']. *)
Inductive EventType : Type :=
| TrackEndEvent (reason : string)
| TrackExceptionEvent (message severity cause : string)
| TrackStartEvent
| TrackStuckEvent (thresholdMs : Z)
(** any other type, as [WebSocketClosedEvent] *)
| OtherEvent.

Inductive Payload : Type :=
(** [{ op: 'playerUpdate', guildId, state: { position } }] *)
| playerUpdate (guildId : Snowflake) (position : option Z)
(** [{ op: 'event', guildId, track, type, ... }] *)
| event (guildId : Snowflake) (track : option string) (type : EventType)
(** any other op, as [stats], with the [guildId] it may carry *)
| otherOp (guildId : option Snowflake).

Definition entry_title (e : Entry) : string :=
  match e with ETrack t => title (info t) | EPartial p => partial_title p end.

Definition entry_requester (e : Entry) : string :=
  match e with ETrack t => requester t | EPartial p => partial_requester p end.

(** What [_handlePayload] writes on the [requester] of the decoded
    track: the requester of an entry, an entry of the queue, or
    [undefined]. *)
Inductive Requester : Type :=
| requester_of (r : string)
| requester_entry (e : Entry)
| requester_undefined.

(** The track of a track event: the decoded track, with the [requester]
    that was written on it. *)
Record EventTrack : Type := {
  decoded : Track;
  written_requester : Requester
}.

(** The events of the player that carry a track. *)
Inductive TrackEvent : Type :=
| TRACK_END (guild : Snowflake) (track : option EventTrack) (reason : string)
| TRACK_EXCEPTION (guild : Snowflake) (track : option EventTrack)
    (message severity cause : string)
| TRACK_START (guild : Snowflake) (track : option EventTrack)
| TRACK_STUCK (guild : Snowflake) (track : option EventTrack) (thresholdMs : Z).

(** [this.currentTrack?.title === track.title ? this.currentTrack.requester
     : this.queue.find((v) => v.title === track.title)] *)
Definition requester_for (p : t) (tr : Track) : Requester :=
  let found :=
    match List.find (fun v => String.eqb (entry_title v) (title (info tr))) (queue p) with
    | Some e => requester_entry e
    | None => requester_undefined
    end in
  match currentTrack p with
  | Some current =>
      if String.eqb (entry_title current) (title (info tr))
      then requester_of (entry_requester current)
      else found
  | None => found
  end.

Section Payloads.

Variable out : Outside.

(** [manager.decodeTracks(tracks)], by the index of the call. *)
Variable decodeTracks_at : nat -> list string -> outcome (list Track).

(** An emission of a track event. The event is the result of the
    computation: it is delivered when the player still has the
    listeners of its constructor, and it is the first thing
    [_handlePayload] emits. *)
Definition emit_track (ev : TrackEvent) : M (option TrackEvent) :=
  p ← get;
  mret (if listeners p then Some ev else None).

(** [void this._advanceQueue()]: the handler goes on whatever becomes
    of the call. *)
Definition void__advanceQueue (fuel : nat) : M unit := fun s =>
  match _advanceQueue out fuel s with
  | Ok _ s' | Throw _ s' | Stuck s' => Ok tt s'
  end.

(** [await this._stop().catch(() => {})] *)
Definition _stop_catch : M unit := fun s =>
  match _stop out s with
  | Ok _ s' | Throw _ s' => Ok tt s'
  | Stuck s' => Stuck s'
  end.

(** [typeof payload.track === 'string'
      ? (await this.manager.decodeTracks([payload.track]))[0] : null],
    then the assignment of its [requester]. *)
Definition decode_track (encoded : option string) : M (option EventTrack) :=
  match encoded with
  | Some e =>
      n ← next_answer;
      match decodeTracks_at n [e] with
      | Throws err => throw err
      | Returns l =>
          p ← get;
          mret ((fun tr => {| decoded := tr; written_requester := requester_for p tr |})
                  <$> head l)
      end
  | None => mret None
  end.

(** [_handlePayload({ node, payload })]; the result is the track event
    it emitted. *)
Definition _handlePayload (fuel : nat) (payload : Payload)
  : M (option TrackEvent) :=
  p ← get;
  match payload with
  | otherOp _ => mret None
  | playerUpdate g ms =>
      if negb (String.eqb g (guild p)) then mret None
      else update (set_position ms) ;; mret None
  | event g encoded type =>
      if negb (String.eqb g (guild p)) then mret None
      else
        tr ← decode_track encoded;
        match type with
        | TrackEndEvent reason =>
            update (set_position None) ;;
            update (set_state CONNECTED) ;;
            ev ← emit_track (TRACK_END (guild p) tr reason);
            (if negb (String.eqb reason "STOPPED") && negb (String.eqb reason "REPLACED")
             then void__advanceQueue fuel else skip_) ;;
            mret ev
        | TrackExceptionEvent message severity cause =>
            emit_track (TRACK_EXCEPTION (guild p) tr message severity cause)
        | TrackStartEvent =>
            p ← get;
            (if truthy_obool (sentPausedPlay p)
             then update (set_state PAUSED) ;; update (set_sentPausedPlay None)
             else update (set_state PLAYING)) ;;
            emit_track (TRACK_START (guild p) tr)
        | TrackStuckEvent ms =>
            ev ← emit_track (TRACK_STUCK (guild p) tr ms);
            _stop_catch ;;
            void__advanceQueue fuel ;;
            mret ev
        | OtherEvent => mret None
        end
  end.

End Payloads.

End Player.

(** ** The life cycle of a node (src/structures/Node.ts)

    [destroy] reaches every player of the manager's table, so these
    methods run on the player objects, by address, together with the
    environment they share. *)

Module NodeLifecycle.

Record World : Type := {
  (** the player objects, by address *)
  heap : gmap nat Player.t;
  shared : Env
}.

Definition set_heap (v : gmap nat Player.t) (x : World) : World :=
  {| heap := v; shared := shared x |}.

Definition set_shared (v : Env) (x : World) : World :=
  {| heap := heap x; shared := v |}.

Definition update_node (f : Node.t -> Node.t) (w : World) : World :=
  set_shared (set_node (f (node (shared w))) (shared w)) w.

Definition emit (ev : Event) (w : World) : World :=
  set_shared (node_emit ev (shared w)) w.

Section Lifecycle.

Variable out : Outside.

(** [player.destroy(reason)] on the object at address [a]. *)
Definition destroy_player (reason : string) (w : World) (a : nat) : World :=
  match heap w !! a with
  | Some p =>
      match Player.destroy out reason
              {| Player.this := p; Player.env := shared w |} with
      | Player.Ok _ s | Player.Throw _ s | Player.Stuck s =>
          {| heap := <[a := Player.this s]> (heap w); shared := Player.env s |}
      end
  | None => w
  end.

(** [manager.players.filter((player) =>
      player.node.identifier === this.identifier)]: the addresses, in
    the order of the table. *)
Definition attached (w : World) : list nat :=
  List.filter
    (fun a => match heap w !! a with
              | Some p => Nat.eqb (Player.node_identifier p)
                                  (Node.identifier (node (shared w)))
              | None => false
              end)
    (map snd (manager_players (shared w))).

(** [destroy(reason)] *)
Definition destroy (reason : string) (w : World) : World :=
  let w1 :=
    if Node.ws (node (shared w))
    then set_shared (set_node_closed (node_closed (shared w) ++ [(1000%Z, "destroy")])
                       (shared w)) w
    else w in
  let w2 := update_node (Node.set_ws false) w1 in
  let w3 := update_node (Node.set_reconnectAttempts 0%Z) w2 in
  let w4 := update_node (Node.set_reconnectTimeout false) w3 in
  let w5 := foldl (destroy_player "Attached node destroyed") w4 (attached w4) in
  let w6 := update_node (Node.set_state Node.DESTROYED) w5 in
  let w7 := emit (NODE_DESTROYED (Node.identifier (node (shared w6))) reason) w6 in
  let w8 := update_node (Node.set_listeners false) w7 in
  set_shared
    (set_manager_nodes
       (List.filter (fun i => negb (Nat.eqb i (Node.identifier (node (shared w8)))))
          (manager_nodes (shared w8)))
       (shared w8)) w8.

(** [connect()] up to the creation of the socket and of the promise, as
    [reconnect] calls it. *)
Definition connect (w : World) : outcome World :=
  let n := node (shared w) in
  if negb (Node.NodeState_eqb (Node.state n) Node.DISCONNECTED)
     && negb (Node.NodeState_eqb (Node.state n) Node.RECONNECTING)
  then Throws (Error "Cannot initiate a connection when the node isn't in a disconnected or reconnecting state")
  else
    let w1 := update_node (Node.set_ws true) w in
    Returns
      (if negb (Node.NodeState_eqb (Node.state n) Node.RECONNECTING)
       then update_node (Node.set_state Node.CONNECTING) w1
       else w1).

(** The handler [() => this.reconnectAttempts++] of a rejected attempt. *)
Definition count_failure (w : World) : World :=
  if Node.attempt (node (shared w)) then
    update_node (Node.set_attempt false)
      (update_node (fun n => Node.set_reconnectAttempts (Node.reconnectAttempts n + 1)%Z n) w)
  else w.

(** [reconnect()] arms the interval. *)
Definition reconnect (w : World) : World :=
  update_node (Node.set_reconnectTimeout true)
    (update_node (Node.set_state Node.RECONNECTING) w).

(** One run of the callback of the interval. *)
Definition reconnect_tick (w : World) : World :=
  let n := node (shared w) in
  if negb (Node.reconnectTimeout n) then w
  else if negb (Node.c_maxRetrys (Node.options n) =? 0)%Z
          && (Node.reconnectAttempts n >=? Node.c_maxRetrys (Node.options n))%Z
  then
    destroy "Manual destroy"
      (emit (NODE_ERROR (Node.identifier n)
               (Error ("Unable to reconnect after " ++ pretty (Node.reconnectAttempts n)
                       ++ " attempts."))) w)
  else
    let w1 := update_node (Node.set_ws false) w in
    let w2 := update_node (Node.set_state Node.RECONNECTING) w1 in
    let w3 := emit (NODE_RECONNECTING (Node.identifier n)) w2 in
    match connect w3 with
    | Returns w4 => update_node (Node.set_attempt true) w4
    | Throws _ =>
        update_node (fun n => Node.set_reconnectAttempts (Node.reconnectAttempts n + 1)%Z n) w3
    end.

(** The socket of the attempt emits [error]. *)
Definition attempt_error (error : option exn) (w : World) : World :=
  if negb (Node.ws (node (shared w))) then w
  else
    let w1 := update_node (Node.set_ws false) w in
    let w2 :=
      if negb (Node.NodeState_eqb (Node.state (node (shared w1))) Node.RECONNECTING)
      then update_node (Node.set_state Node.DISCONNECTED) w1 else w1 in
    let w3 :=
      match error with
      | Some e => emit (NODE_ERROR (Node.identifier (node (shared w2))) e) w2
      | None => w2
      end in
    count_failure w3.

(** The timer of the attempt runs out. *)
Definition attempt_timeout (w : World) : World :=
  if negb (Node.attempt (node (shared w))) then w
  else
    count_failure
      (emit (NODE_ERROR (Node.identifier (node (shared w)))
               (Error "Timed out while connecting to the lavalink server")) w).

(** The socket of the attempt emits [open]: [_onOpen()], then the
    promise resolves. *)
Definition attempt_open (w : World) : World :=
  if negb (Node.ws (node (shared w))) then w
  else
    let w1 := update_node (Node.set_reconnectTimeout false) w in
    let w2 := update_node (Node.set_state Node.CONNECTED) w1 in
    let w3 := emit (NODE_CONNECTED (Node.identifier (node (shared w2)))) w2 in
    update_node (Node.set_attempt false) w3.

(** How an attempt fails. *)
Inductive failure : Type :=
| by_error (error : option exn)
| by_timeout.

Definition fail (f : failure) (w : World) : World :=
  match f with
  | by_error error => attempt_error error w
  | by_timeout => attempt_timeout w
  end.

(** A run of the interval followed by the failure of its attempt, once
    for each element of [fs]. *)
Definition failed_rounds (fs : list failure) (w : World) : World :=
  foldl (fun w f => fail f (reconnect_tick w)) w fs.

(** [_onError(error)], the listener of [error] on an open socket. *)
Definition _onError (error : option exn) (w : World) : World :=
  match error with
  | Some e => emit (NODE_ERROR (Node.identifier (node (shared w))) e) w
  | None => w
  end.

(** [_onClose(code, reason)], the listener of [close] on an open
    socket. *)
Definition _onClose (code : Z) (reason : string) (w : World) : World :=
  let w1 := update_node (Node.set_state Node.DISCONNECTED) w in
  let w2 :=
    emit (NODE_DISCONNECTED (Node.identifier (node (shared w1))) code
            (if truthy_string reason then reason else "No reason specified")) w1 in
  if negb (code =? 1000)%Z && negb (String.eqb reason "destroy")
  then reconnect w2 else w2.

(** What happens to a node between its construction and its end: a
    call of [connect] or [destroy], a run of the retry interval, the
    failure or the success of an attempt to connect, or an [error] or
    a [close] of its socket. The outcome of an attempt and a close are
    taken whenever the node holds a socket, so the runs of [run]
    include every run of a node. *)
Inductive action : Type :=
| call_connect
| call_destroy (reason : string)
| interval_runs
| attempt_fails (f : failure)
| attempt_opens
| socket_error (error : option exn)
| socket_close (code : Z) (reason : string).

Definition act (a : action) (w : World) : World :=
  match a with
  | call_connect =>
      match connect w with Returns w' => w' | Throws _ => w end
  | call_destroy reason => destroy reason w
  | interval_runs => reconnect_tick w
  | attempt_fails f => fail f w
  | attempt_opens => attempt_open w
  | socket_error error => _onError error w
  | socket_close code reason =>
      if Node.ws (node (shared w)) then _onClose code reason w else w
  end.

Definition run (l : list action) (w : World) : World := foldl (fun w a => act a w) w l.

End Lifecycle.

End NodeLifecycle.

(** ** The manager object (src/structures/LavalinkManager.ts)

    The constructor, [decodeTracks] and [createPlayer]. A world holds one
    node, so [leastLoadNodes[0]] is that node when it is in the manager's
    table and CONNECTED, and is undefined otherwise. *)

Module ManagerLifecycle.

Import LavalinkManager NodeLifecycle.

Record SpotifyAuth : Type := {
  clientId : string;
  clientSecret : string
}.

(** The options as the caller gives them. *)
Record LavalinkManagerOptions : Type := {
  nodeOptions : option (list Node.NodeOptions);
  o_enabledSources : option (list Source);
  o_defaultSource : option Source;
  spotifyAuth : option SpotifyAuth
}.

(** The manager the constructor builds: its nodes, by identifier, and
    [this.options]. *)
Record t : Type := {
  nodes : list Node.t;
  c_nodeOptions : list Node.NodeOptions;
  c_enabledSources : list Source;
  c_defaultSource : Source;
  c_spotifyAuth : option SpotifyAuth
}.

(** [for (const [i, nodeOption] of options.nodeOptions.entries())
      this.nodes.set(i, new NodeClass(nodeOption, i, this))],
    from the index [i] on. *)
Fixpoint new_nodes (i : nat) (l : list Node.NodeOptions) : outcome (list Node.t) :=
  match l with
  | [] => Returns []
  | o :: rest =>
      match Node.new (Some o) (Some i) true with
      | Throws e => Throws e
      | Returns n =>
          match new_nodes (S i) rest with
          | Throws e => Throws e
          | Returns ns => Returns (n :: ns)
          end
      end
  end.

(** [new LavalinkManager(options, worker)] *)
Definition new (options : option LavalinkManagerOptions) (worker : bool) : outcome t :=
  match options with
  | None => Throws (TypeError "Expected options to be defined")
  | Some o =>
      if negb worker then Throws (TypeError "Expected worker to be defined")
      else
        match nodeOptions o with
        | None | Some [] => Throws (Error "At least 1 node must be defined")
        | Some l =>
            if match o_enabledSources o, o_defaultSource o with
               | Some enabled, Some source => negb (existsb (Source_eqb source) enabled)
               | _, _ => false
               end
            then Throws (Error "Default source must be defined in enabled sources")
            else if match spotifyAuth o with
                    | Some auth =>
                        negb (truthy_string (clientId auth))
                        || negb (truthy_string (clientSecret auth))
                    | None => false
                    end
            then Throws (Error "Spotify auth is not properly defined")
            else
              match new_nodes 0 l with
              | Throws e => Throws e
              | Returns ns =>
                  Returns
                    {| nodes := ns;
                       c_nodeOptions := l;
                       c_enabledSources :=
                         Node.nullish (o_enabledSources o) [youtube; soundcloud];
                       c_defaultSource := Node.nullish (o_defaultSource o) youtube;
                       c_spotifyAuth := spotifyAuth o |}
              end
        end
  end.

(** Whether [leastLoadNodes[0]] is defined: some node of the manager is
    CONNECTED. *)
Definition has_connected_node (m : t) : bool :=
  existsb (fun n => Node.NodeState_eqb (Node.state n) Node.CONNECTED) (nodes m).

(** What [search] reads of the manager. *)
Definition searching (m : t) (token : option string) : Manager :=
  {| searchNode := has_connected_node m;
     enabledSources := c_enabledSources m;
     defaultSource := c_defaultSource m;
     spotifyToken := token |}.

(** [decodeTracks(tracks)], where [decodeNode] tells whether
    [leastLoadNodes[0]] is defined and [request_decodetracks] is
    [decodeNode.request('POST', '/decodetracks', { body: tracks })]. *)
Definition decodeTracks (decodeNode : bool)
    (request_decodetracks : list string -> outcome (option (list TrackData)))
    (tracks : list string) : outcome (list Track) :=
  if negb decodeNode then Throws (Error "No available nodes to decode the track")
  else
    match request_decodetracks tracks with
    | Throws e => Throws e
    | Returns None => Throws (Error "No decode response data")
    | Returns (Some json) => Returns (map (fun data => new_Track data "N/A") json)
    end.

(** Whether [leastLoadNodes[0]] is defined in a world. *)
Definition node_available (w : World) : bool :=
  existsb (Nat.eqb (Node.identifier (node (shared w)))) (manager_nodes (shared w))
  && Node.NodeState_eqb (Node.state (node (shared w))) Node.CONNECTED.

(** [createPlayer(options)]: the address of the player and the world
    that holds it. *)
Definition createPlayer (options : option Player.PlayerOptions) (w : World)
  : outcome (nat * World) :=
  if negb (truthy_ostring (options ≫= Player.o_guildId))
  then Throws (TypeError "Expected options.guildId to be defined")
  else
    let g := default "" (options ≫= Player.o_guildId) in
    if players_has g (manager_players (shared w))
    then Throws (Error "A player already exists for that guild")
    else if negb (node_available w)
    then Throws (Error "No available nodes to bind the player to")
    else
      match Player.new options (Node.identifier (node (shared w))) true
              (manager_players (shared w)) with
      | Throws e => Throws e
      | Returns p =>
          let a := fresh (dom (heap w)) in
          Returns
            (a,
             {| heap := <[a := p]> (heap w);
                shared :=
                  set_manager_players (manager_players (shared w) ++ [(g, a)])
                    (shared w) |})
      end.

End ManagerLifecycle.

(** * Specifications *)

(** ** Search and resolution, in the words of the specification *)

Module ResolveSpec.

(** Equality of two strings, letter case apart. The claim names no
    notion of letter case: it is taken to be the one of the comparison
    the code makes, the canonicalization of its regular expression. *)
Definition equal_ignoring_case (Canonicalize : string -> string) (a b : string) : Prop :=
  Canonicalize a = Canonicalize b.

(** The author of the candidate is the hint or the hint followed by
    [" - Topic"]. *)
Definition author_matches (Canonicalize : string -> string) (hint : string) (t : Track)
  : Prop :=
  equal_ignoring_case Canonicalize hint (author (info t))
  \/ equal_ignoring_case Canonicalize (hint ++ " - Topic") (author (info t)).

(** The duration of the candidate lies in [[hint - 2000, hint + 200]]. *)
Definition in_window (hint : Z) (t : Track) : Prop :=
  (hint - 2000 <= length (info t) <= hint + 200)%Z.

(** [t] is the first element of [l] that satisfies [P]. *)
Definition first_such (P : Track -> Prop) (l : list Track) (t : Track) : Prop :=
  exists before after : list Track,
    l = (before ++ t :: after)%list /\ P t /\ Forall (fun x => ~ P x) before.

End ResolveSpec.

(** ** Concrete data for the examples *)

Module Examples.

Import LavalinkManager.

Definition info_of (who : string) (ms : Z) : TrackInfo :=
  {| identifier := "id"; isSeekable := true; author := who; length := ms;
     isStream := false; position := 0%Z; title := "Song"; uri := "";
     sourceName := "youtube" |}.

Definition data_of (handle who : string) (ms : Z) : TrackData :=
  {| data_track := handle; data_info := info_of who ms |}.

Definition track_of (handle who : string) (ms : Z) : Track :=
  new_Track (data_of handle who ms) "user".

(** A manager with a connected node, both sources and no Spotify token. *)
Definition manager : Manager :=
  {| searchNode := true; enabledSources := [youtube; soundcloud];
     defaultSource := youtube; spotifyToken := None |}.

(** The canonicalization of the regular expression engine on strings of
    ASCII characters, as the strings of the examples are: a letter from
    [a] to [z] is taken to its capital and every other character is left
    as it is. *)
Definition canonicalize (c : ascii) : ascii :=
  let n := nat_of_ascii c in
  if (97 <=? n)%nat && (n <=? 122)%nat then ascii_of_nat (n - 32) else c.

Fixpoint canonicalize_string (s : string) : string :=
  match s with
  | EmptyString => EmptyString
  | String c rest => String (canonicalize c) (canonicalize_string rest)
  end.

Definition no_spotify_match (query : string) : option (string * string) := None.

Definition no_spotify_lookup (kind id requester : string) : outcome SearchResult :=
  Throws (Error "unreachable").

(** A node that answers every search with the same candidates. *)
Definition answer (candidates : list TrackData) (identifier : string)
  : outcome (option LoadTracksJson) :=
  Returns (Some {| json_loadType := SEARCH_RESULT; json_tracks := candidates;
                   json_playlistInfo := None; json_exception := None |}).

(** A hint with author and duration. *)
Definition hint (who : string) (ms : option Z) : TrackPartial :=
  {| partial_title := "Song"; partial_requester := "user";
     partial_author := Some who; partial_length := ms |}.

(** An unresolved entry and a decoded track with a title of their own. *)
Definition titled (name : string) : TrackPartial :=
  {| partial_title := name; partial_requester := "user";
     partial_author := None; partial_length := None |}.

Definition data_titled (name : string) : TrackData :=
  {| data_track := name;
     data_info := {| identifier := "id"; isSeekable := true; author := "Artist";
                     length := 1000%Z; isStream := false; position := 0%Z;
                     title := name; uri := ""; sourceName := "youtube" |} |}.

Definition decoded_titled (name : string) : Track := new_Track (data_titled name) "N/A".

(** A manager whose node decodes a track string to a track of that
    title. *)
Definition decodes_titled (n : nat) (encoded : list string) : outcome (list Track) :=
  ManagerLifecycle.decodeTracks true
    (fun tracks => Returns (Some (map data_titled tracks))) encoded.

End Examples.

Module ResolveExamples.

Import LavalinkManager Examples.

(** Two candidates: the first matches the hint by duration only, the
    second by author, under the channel-suffix convention and in another
    letter case. *)
Definition by_duration_only : TrackData := data_of "AAAA" "Somebody Else" 180000.
Definition by_author : TrackData := data_of "BBBB" "artist - topic" 240000.

(** Two candidates that match no author; the second has duration [0]. *)
Definition long_track : TrackData := data_of "CCCC" "Other" 9000.
Definition empty_track : TrackData := data_of "DDDD" "Someone" 0.

Definition resolve (candidates : list TrackData) (p : TrackPartial) : outcome Track :=
  resolveTrack no_spotify_match no_spotify_lookup (answer candidates) manager
    canonicalize_string p.

End ResolveExamples.

Module NodeExamples.

(** The options object [{}]. *)
Definition no_options : Node.NodeOptions :=
  {| Node.host := None; Node.port := None; Node.password := None;
     Node.secure := None; Node.clientName := None; Node.requestTimeout := None;
     Node.maxRetrys := None; Node.retryDelay := None;
     Node.connectionTimeout := None |}.

Definition timeouts (connection retry : Z) : Node.NodeOptions :=
  {| Node.host := None; Node.port := None; Node.password := None;
     Node.secure := None; Node.clientName := None; Node.requestTimeout := None;
     Node.maxRetrys := None; Node.retryDelay := Some retry;
     Node.connectionTimeout := Some connection |}.

End NodeExamples.

(** ** Players, in the words of the specification *)

Module PlayerSpec.

Import Player.





(** The index the queue advance moves to, before it looks at the entry:
    0 from null; unchanged under loop mode single; else the next index,
    and past the last entry 0 under loop mode queue and null under loop
    mode off. *)
Definition next_index (l : LoopType) (current : option nat) (len : nat)
  : option nat :=
  match current with
  | None => Some 0
  | Some i =>
      match l with
      | Single => Some i
      | Queue => if (S i <? len)%nat then Some (S i) else Some 0
      | Off => if (S i <? len)%nat then Some (S i) else None
      end
  end.

(** The index [advance_index] leaves, as a function of the player. *)
Definition chosen_index (p : Player.t) : nat :=
  match queuePosition p with
  | None => 0
  | Some i =>
      let j := if is_single (loop p) then i else S i in
      if negb (bool_decide (is_Some (queue p !! j))) && is_queue (loop p) then 0 else j
  end.

(** The entry is a track with a handle, or resolves to one at the time
    of [s]. *)
Definition will_play (out : Outside) (s : St) (e : Entry) : Prop :=
  match e with
  | ETrack tr => track tr <> ""
  | EPartial partial =>
      exists tr, resolveTrack_at out (clock (env s)) partial = Returns tr
                 /\ track tr <> ""
  end.

(** [m] never changes the value of [f], however it ends. *)
Definition keeps {A X : Type} (f : St -> X) (m : M A) : Prop :=
  forall s, f (final (m s)) = f s.

(** [f] reads the player alone, not its environment. *)
Definition of_player {X : Type} (f : St -> X) : Prop :=
  forall s e, f (set_env e s) = f s.

(** The part of a player that the queue index is about. *)
Definition core (s : St) : list Entry * option nat * PlayerState * LoopType :=
  (queue (this s), queuePosition (this s), state (this s), loop (this s)).

(** What left the player towards the node and the host application. *)
Definition env_sent (s : St) : list Frame * list VoiceStateUpdate * list ApiRequest :=
  (node_sent (env s), gateway_sent (env s), api_sent (env s)).

(** Whether [_handleMove] leaves through one of its two [return
    this.destroy(...)]: the player is in CONNECTED, PAUSED or PLAYING and
    either the move behaviour is destroy and the new channel is not the
    bound one (or is null), or the player is on a stage it speaks on, the
    stage move behaviour is destroy and it has just been suppressed. *)
Definition leaves_by_destroy (p : Player.t) (newChannel : option Snowflake)
    (data : VoiceState) : bool :=
  playable (state p)
  && ((Behavior_is_destroy (moveBehavior (options p))
       && (negb (option_eqb (Some (voiceChannelId (options p))) newChannel)
           || negb (bool_decide (is_Some newChannel))))
      || ((truthy_obool (isStage p) && becomeSpeaker (options p)
           && bool_decide (is_Some (lastVoiceState p)))
          && (Behavior_is_destroy (stageMoveBehavior (options p))
              && negb match lastVoiceState p with
                      | Some d => suppress d
                      | None => false
                      end
              && suppress data))).

(** The entries a call of [play] pushes on the queue. *)
Definition pushed (tr : Entry + list Entry) : list Entry :=
  match tr with inl e => [e] | inr es => es end.

(** [m] always returns. *)
Definition total {A : Type} (m : M A) : Prop :=
  forall s, exists a s', m s = Ok a s'.

(** The tables of the manager and the node, as the player sees them. *)
Definition tables (s : St) : list (Snowflake * nat) * list nat * Node.t * list (Z * string) :=
  (manager_players (env s), manager_nodes (env s), node (env s), node_closed (env s)).

(** What [destroy] clears and sets. *)
Definition torn_down (p : Player.t) : Prop :=
  queue p = [] /\ queuePosition p = None /\ position p = None
  /\ state p = DESTROYED /\ listeners p = false /\ connecting p = false.

(** The last observed channel and voice state. *)
Definition observed (s : St) : option Snowflake * option VoiceState :=
  (currentVoiceChannel (this s), lastVoiceState (this s)).

End PlayerSpec.

Module PlayerExamples.

Import Player.

(** An outside world where every call succeeds; a partial resolves to a
    track by the author it names. *)
Definition quiet : Outside :=
  {| resolveTrack_at := fun _ partial =>
       Returns (Examples.track_of "RESOLVED" (js_interpolate (partial_author partial)) 1000);
     ws_send_error := fun _ => None;
     Math_random := fun _ => (0, 0);
     stagePermissions := fun _ => Returns (true, true);
     api_error := fun _ => None;
     channel_is_stage := fun _ => Returns false;
     gateway_send := fun _ => gateway_accepted |}.

(** The same world, where no partial resolves. *)
Definition unresolvable : Outside :=
  {| resolveTrack_at := fun _ _ => Throws (Error "No results found");
     ws_send_error := fun _ => None;
     Math_random := fun _ => (0, 0);
     stagePermissions := fun _ => Returns (true, true);
     api_error := fun _ => None;
     channel_is_stage := fun _ => Returns false;
     gateway_send := fun _ => gateway_accepted |}.

Definition connected_node : Node.t :=
  {| Node.options := Node.complete NodeExamples.no_options; Node.identifier := 0;
     Node.state := Node.CONNECTED; Node.reconnectAttempts := 0%Z;
     Node.reconnectTimeout := false; Node.ws := true; Node.attempt := false;
     Node.listeners := true |}.

(** The player at address 0 is registered for the guild "G". *)
Definition env0 : Env :=
  {| node := connected_node; node_sent := []; node_closed := []; gateway_sent := [];
     api_sent := []; events := []; manager_players := [("G", 0)];
     manager_nodes := [0]; clock := 0 |}.

Definition options0 (move : Behavior) : CompletePlayerOptions :=
  {| guildId := "G"; textChannelId := "T"; voiceChannelId := "V";
     selfMute := false; selfDeafen := true; connectionTimeout := 15000%Z;
     becomeSpeaker := true; moveBehavior := move;
     stageMoveBehavior := behavior_pause |}.

(** A player in the voice channel "V" it is bound to. *)
Definition player0 (move : Behavior) (l : LoopType) (st : PlayerState)
    (q : list Entry) (index : option nat) : Player.t :=
  {| currentVoiceChannel := Some "V"; filters := []; isSpeaker := None;
     isStage := Some false; loop := l; options := options0 move; position := None;
     queue := q; queuePosition := index; state := st; volume := 100%Z;
     lastVoiceState := None; sentPausedPlay := None; node_identifier := 0;
     listeners := true; connecting := false; pending := [] |}.

Definition start (l : LoopType) (st : PlayerState) (q : list Entry)
    (index : option nat) : St :=
  {| this := player0 behavior_destroy l st q index; env := env0 |}.

(** The same player under another move behaviour. *)
Definition start_with (move : Behavior) (st : PlayerState) : St :=
  {| this := player0 move Off st [] None; env := env0 |}.

(** The voice state of a bot that is now in the channel "W". *)
Definition moved_to_W : VoiceState :=
  {| voice_channel_id := Some "W"; suppress := false |}.

(** A connected player with an empty queue, and what one and two calls
    of [destroy()] in a row leave of it. *)
Definition joined : St := start Off CONNECTED [] None.

Definition destroyed_once : St :=
  final (destroy quiet "Manual destroy" joined).

Definition destroyed_twice : St :=
  final (destroy quiet "Manual destroy" destroyed_once).

(** A playing player whose queue holds a track, the current one, and
    then an unresolved entry. *)
Definition half_resolved : St :=
  start Off PLAYING
    [ETrack (Examples.track_of "AAAA" "Artist" 1000);
     EPartial (Examples.hint "Artist" None)]
    (Some 0).

(** A player that has just been created for the channel "V". *)
Definition fresh : St :=
  {| this := set_currentVoiceChannel None (player0 behavior_destroy Off DISCONNECTED [] None);
     env := env0 |}.

(** A manager whose node decodes every track string to a track of that
    handle. *)
Definition decodes (n : nat) (encoded : list string) : outcome (list Track) :=
  ManagerLifecycle.decodeTracks true
    (fun tracks => Returns (Some (map (fun handle => Examples.data_of handle "Artist" 1000) tracks)))
    encoded.

(** A manager with no connected node to decode on. *)
Definition decode_fails (n : nat) (encoded : list string) : outcome (list Track) :=
  ManagerLifecycle.decodeTracks false (fun _ => Returns None) encoded.

Definition song (handle : string) : Entry :=
  ETrack (Examples.track_of handle "Artist" 1000).

Definition hinted : Entry := EPartial (Examples.hint "Artist" None).




(** A track whose handle is the empty string. *)
Definition no_handle : Entry := ETrack (Examples.track_of "" "Artist" 1000).

End PlayerExamples.

(** ** The life cycle of a node, in the words of the specification *)

Module NodeSpec.

Import NodeLifecycle.

(** The player [p], at address [a] before, has been destroyed with
    [reason]: the object is torn down, its guild is no longer in the
    manager's table, and its [DESTROYED] event went out if it had
    listeners. *)
Definition destroyed_with (reason : string) (p : Player.t) (a : nat) (w : World)
  : Prop :=
  exists p',
    heap w !! a = Some p'
    /\ PlayerSpec.torn_down p'
    /\ Player.options p' = Player.options p
    /\ players_has (Player.guild p) (manager_players (shared w)) = false
    /\ (Player.listeners p = true ->
        PLAYER_DESTROYED (Player.guild p) reason ∈ events (shared w)).

(** What the rounds of failed attempts leave untouched, and the node
    fields they leave set. *)
Definition retrying (w0 w : World) (attempts : Z) : Prop :=
  heap w = heap w0
  /\ manager_players (shared w) = manager_players (shared w0)
  /\ manager_nodes (shared w) = manager_nodes (shared w0)
  /\ Node.options (node (shared w)) = Node.options (node (shared w0))
  /\ Node.identifier (node (shared w)) = Node.identifier (node (shared w0))
  /\ Node.reconnectTimeout (node (shared w)) = true
  /\ Node.state (node (shared w)) = Node.RECONNECTING
  /\ Node.reconnectAttempts (node (shared w)) = attempts.

(** The player at address [a] is in the manager's table and bound to the
    node of [w]. *)
Definition attached_player (w : World) (a : nat) (p : Player.t) : Prop :=
  a ∈ map snd (manager_players (shared w))
  /\ heap w !! a = Some p
  /\ Player.node_identifier p = Node.identifier (node (shared w)).

(** A node that is CONNECTED holds a socket. *)
Definition socket_invariant (w : World) : Prop :=
  Node.state (node (shared w)) = Node.CONNECTED -> Node.ws (node (shared w)) = true.

(** Every player object that the manager's table leads to is filed
    under its own guild. *)
Definition consistent (w : World) : Prop :=
  forall g a p,
    (g, a) ∈ manager_players (shared w) ->
    heap w !! a = Some p ->
    Player.guild p = g.

End NodeSpec.

Module ReconnectExamples.

Import NodeLifecycle.

(** A node with [maxRetrys = 3] whose socket has just closed, and the
    connected player of guild "G" bound to it. *)
Definition closed_node (retries : Z) : Node.t :=
  {| Node.options :=
       Node.complete
         {| Node.host := None; Node.port := None; Node.password := None;
            Node.secure := None; Node.clientName := None;
            Node.requestTimeout := None; Node.maxRetrys := Some retries;
            Node.retryDelay := None; Node.connectionTimeout := None |};
     Node.identifier := 0; Node.state := Node.DISCONNECTED;
     Node.reconnectAttempts := 0%Z; Node.reconnectTimeout := false;
     Node.ws := true; Node.attempt := false; Node.listeners := true |}.

Definition world (retries : Z) : World :=
  {| heap := {[ 0 := Player.this PlayerExamples.joined ]};
     shared := set_node (closed_node retries) PlayerExamples.env0 |}.

(** The node built from the options [{}], with the identifier 0, and the
    world of a manager that holds it and no player. *)
Definition new_node : Node.t :=
  {| Node.options := Node.complete NodeExamples.no_options; Node.identifier := 0;
     Node.state := Node.DISCONNECTED; Node.reconnectAttempts := 0%Z;
     Node.reconnectTimeout := false; Node.ws := false; Node.attempt := false;
     Node.listeners := true |}.

Definition new_world : World :=
  {| heap := ∅;
     shared :=
       {| node := new_node; node_sent := []; node_closed := []; gateway_sent := [];
          api_sent := []; events := []; manager_players := []; manager_nodes := [0];
          clock := 0 |} |}.

End ReconnectExamples.

Module ManagerExamples.

Import ManagerLifecycle.

(** The options [{ nodeOptions: [{}], enabledSources: ['soundcloud'] }]. *)
Definition soundcloud_only : LavalinkManagerOptions :=
  {| nodeOptions := Some [NodeExamples.no_options];
     o_enabledSources := Some [LavalinkManager.soundcloud];
     o_defaultSource := None;
     spotifyAuth := None |}.

(** The options of a player for the guild "G2". *)
Definition for_G2 : Player.PlayerOptions :=
  {| Player.o_guildId := Some "G2"; Player.o_textChannelId := Some "T";
     Player.o_voiceChannelId := Some "V"; Player.o_selfMute := None;
     Player.o_selfDeafen := None; Player.o_connectionTimeout := None;
     Player.o_becomeSpeaker := None; Player.o_moveBehavior := None;
     Player.o_stageMoveBehavior := None |}.

(** A manager with a connected node and the player of the guild "G". *)
Definition world : NodeLifecycle.World :=
  {| NodeLifecycle.heap := {[ 0 := Player.this PlayerExamples.joined ]};
     NodeLifecycle.shared := PlayerExamples.env0 |}.

End ManagerExamples.

(** * Theorems *)

(** ** Search and resolution *)

Section SearchFacts.

Import LavalinkManager.

Lemma loadtracks_identifier_url query source :
  Constants.URL_REGEX_test query = true ->
  loadtracks_identifier query source = query.
Proof. unfold loadtracks_identifier. intros ->. reflexivity. Qed.

Lemma loadtracks_identifier_youtube query :
  Constants.URL_REGEX_test query = false ->
  loadtracks_identifier query youtube = "ytsearch:" ++ query.
Proof. unfold loadtracks_identifier. intros ->. reflexivity. Qed.

Lemma loadtracks_identifier_soundcloud query :
  Constants.URL_REGEX_test query = false ->
  loadtracks_identifier query soundcloud = "undefinedsearch:" ++ query.
Proof. unfold loadtracks_identifier. intros ->. reflexivity. Qed.

End SearchFacts.

Section ResolveFacts.

Import LavalinkManager ResolveSpec.

Variable Canonicalize : string -> string.

Lemma same_author_iff hint t :
  same_author Canonicalize hint t = true <-> author_matches Canonicalize hint t.
Proof.
  unfold same_author, author_matches, equal_ignoring_case, regexp_exact_i_test.
  simpl. rewrite orb_false_r, orb_true_iff, !String.eqb_eq. reflexivity.
Qed.

Lemma same_duration_iff hint t :
  same_duration hint t = true <-> length (info t) <> 0%Z /\ in_window hint t.
Proof.
  unfold same_duration, in_window, truthy_number.
  rewrite !andb_true_iff, negb_true_iff, Z.eqb_neq, !Z.leb_le. tauto.
Qed.

Lemma head_filter_first_such (f : Track -> bool) (P : Track -> Prop) l t :
  (forall x, f x = true <-> P x) ->
  first_such P l t -> head (List.filter f l) = Some t.
Proof.
  intros Hf (before & after & -> & Ht & Hbefore).
  induction Hbefore as [|x before Hx _ IH]; simpl.
  - apply Hf in Ht. rewrite Ht. reflexivity.
  - destruct (f x) eqn:E; [|exact IH].
    apply Hf in E. contradiction.
Qed.

Lemma head_filter_none (f : Track -> bool) (P : Track -> Prop) l :
  (forall x, f x = true <-> P x) ->
  Forall (fun x => ~ P x) l -> head (List.filter f l) = None.
Proof.
  intros Hf H. induction H as [|x l Hx _ IH]; simpl; [reflexivity|].
  destruct (f x) eqn:E; [|exact IH].
  apply Hf in E. contradiction.
Qed.

Variable SPOTIFY_REGEX_match : string -> option (string * string).
Variable spotify_lookup : string -> string -> string -> outcome SearchResult.
Variable request_loadtracks : string -> outcome (option LoadTracksJson).
Variable manager : Manager.

Abbreviation search := (search SPOTIFY_REGEX_match spotify_lookup request_loadtracks manager).
Abbreviation resolveTrack :=
  (resolveTrack SPOTIFY_REGEX_match spotify_lookup request_loadtracks manager Canonicalize).

(** A search that throws makes the resolution throw the same exception. *)
Lemma resolveTrack_search_throws p e :
  search (resolve_query p) (partial_requester p) (defaultSource manager) = Throws e ->
  resolveTrack p = Throws e.
Proof. unfold LavalinkManager.resolveTrack. intros ->. reflexivity. Qed.

Lemma resolveTrack_no_results p found :
  search (resolve_query p) (partial_requester p) (defaultSource manager) = Returns found ->
  loadType found <> SEARCH_RESULT \/ only_tracks (tracks found) = [] ->
  resolveTrack p = Throws (Error "No results found").
Proof.
  unfold LavalinkManager.resolveTrack. intros -> H.
  destruct (only_tracks (tracks found)) as [|first rest]; [reflexivity|].
  destruct H as [H|H]; [|discriminate].
  destruct (loadType found); try reflexivity. contradiction.
Qed.

Lemma resolveTrack_by_author p a found t :
  partial_author p = Some a -> a <> "" ->
  search (resolve_query p) (partial_requester p) (defaultSource manager) = Returns found ->
  loadType found = SEARCH_RESULT ->
  first_such (author_matches Canonicalize a) (only_tracks (tracks found)) t ->
  resolveTrack p = Returns t.
Proof.
  unfold LavalinkManager.resolveTrack. intros Ha Hne -> Hl Hfirst.
  pose proof (head_filter_first_such _ _ _ _ (same_author_iff a) Hfirst) as Hh.
  destruct (only_tracks (tracks found)) as [|first rest] eqn:E.
  { destruct Hfirst as (b & ? & Hb & _). destruct b; discriminate. }
  rewrite Hl, Ha. simpl LoadType_eqb. cbv iota.
  assert (truthy_string a = true) as ->.
  { unfold truthy_string. apply negb_true_iff, String.eqb_neq. exact Hne. }
  simpl negb. cbv iota. rewrite Hh. reflexivity.
Qed.

Lemma resolveTrack_no_author_match p a found :
  partial_author p = Some a ->
  Forall (fun t => ~ author_matches Canonicalize a t) (only_tracks (tracks found)) ->
  match partial_author p with
  | Some a => if truthy_string a
              then head (List.filter (same_author Canonicalize a) (only_tracks (tracks found)))
              else None
  | None => None
  end = None.
Proof.
  intros -> H. destruct (truthy_string a); [|reflexivity].
  exact (head_filter_none _ _ _ (same_author_iff a) H).
Qed.

Lemma resolveTrack_by_duration p a l found t :
  partial_author p = Some a ->
  search (resolve_query p) (partial_requester p) (defaultSource manager) = Returns found ->
  loadType found = SEARCH_RESULT ->
  Forall (fun t => ~ author_matches Canonicalize a t) (only_tracks (tracks found)) ->
  partial_length p = Some l -> l <> 0%Z ->
  first_such (fun t => length (info t) <> 0%Z /\ in_window l t)
             (only_tracks (tracks found)) t ->
  resolveTrack p = Returns t.
Proof.
  unfold LavalinkManager.resolveTrack. intros Ha -> Hl Hnone Hlen Hne Hfirst.
  pose proof (head_filter_first_such _ _ _ _ (same_duration_iff l) Hfirst) as Hh.
  pose proof (resolveTrack_no_author_match p a found Ha Hnone) as Hna.
  destruct (only_tracks (tracks found)) as [|first rest] eqn:E.
  { destruct Hfirst as (b & ? & Hb & _). destruct b; discriminate. }
  rewrite Hl. simpl LoadType_eqb. cbv iota. simpl negb. cbv iota.
  rewrite Hna, Hlen.
  assert (truthy_number l = true) as ->.
  { unfold truthy_number. apply negb_true_iff, Z.eqb_neq. exact Hne. }
  rewrite Hh. reflexivity.
Qed.

Lemma resolveTrack_first p a found t rest :
  partial_author p = Some a ->
  search (resolve_query p) (partial_requester p) (defaultSource manager) = Returns found ->
  loadType found = SEARCH_RESULT ->
  Forall (fun t => ~ author_matches Canonicalize a t) (only_tracks (tracks found)) ->
  (partial_length p = None \/ partial_length p = Some 0%Z \/
   exists l, partial_length p = Some l /\
     Forall (fun t => ~ (length (info t) <> 0%Z /\ in_window l t))
            (only_tracks (tracks found))) ->
  only_tracks (tracks found) = t :: rest ->
  resolveTrack p = Returns t.
Proof.
  unfold LavalinkManager.resolveTrack. intros Ha -> Hl Hnone Hlen E.
  pose proof (resolveTrack_no_author_match p a found Ha Hnone) as Hna.
  assert (match partial_length p with
          | Some l => if truthy_number l
                      then head (List.filter (same_duration l) (only_tracks (tracks found)))
                      else None
          | None => None
          end = None) as Hnd.
  { destruct Hlen as [-> | [-> | (l & -> & Hall)]]; try reflexivity.
    destruct (truthy_number l); [|reflexivity].
    exact (head_filter_none _ _ _ (same_duration_iff l) Hall). }
  rewrite E in *. rewrite Hl. simpl LoadType_eqb. cbv iota. simpl negb. cbv iota.
  rewrite Hna, Hnd. reflexivity.
Qed.

End ResolveFacts.

(** C7, amended. For a hint with a (non-empty) author, [resolveTrack]
    throws when the search is not a plain search result or holds no track;
    otherwise it returns the first candidate whose author is the hint's
    author or that author followed by " - Topic", letter case apart as the
    regular expression of the code takes it, whatever the canonicalization
    of the engine is;
    failing that, when the hint has a duration other than 0, the first
    candidate whose duration is not 0 and lies within
    [hint - 2000, hint + 200]; failing that, the first candidate. *)
Theorem resolveTrack_priority
    (SPOTIFY_REGEX_match : string -> option (string * string))
    (spotify_lookup : string -> string -> string -> outcome LavalinkManager.SearchResult)
    (request_loadtracks : string -> outcome (option LavalinkManager.LoadTracksJson))
    (manager : LavalinkManager.Manager) (Canonicalize : string -> string)
    (p : TrackPartial) (a : string) (found : LavalinkManager.SearchResult) :
  partial_author p = Some a -> a <> "" ->
  LavalinkManager.search SPOTIFY_REGEX_match spotify_lookup request_loadtracks manager
    (LavalinkManager.resolve_query p) (partial_requester p)
    (LavalinkManager.defaultSource manager) = Returns found ->
  let resolved :=
    LavalinkManager.resolveTrack SPOTIFY_REGEX_match spotify_lookup
      request_loadtracks manager Canonicalize p in
  let candidates := LavalinkManager.only_tracks (LavalinkManager.tracks found) in
  (LavalinkManager.loadType found <> LavalinkManager.SEARCH_RESULT \/ candidates = [] ->
   resolved = Throws (Error "No results found"))
  /\ (LavalinkManager.loadType found = LavalinkManager.SEARCH_RESULT ->
      (forall t,
          ResolveSpec.first_such (ResolveSpec.author_matches Canonicalize a) candidates t ->
          resolved = Returns t)
      /\ (Forall (fun t => ~ ResolveSpec.author_matches Canonicalize a t) candidates ->
          (forall l t,
              partial_length p = Some l -> l <> 0%Z ->
              ResolveSpec.first_such
                (fun t => length (info t) <> 0%Z /\ ResolveSpec.in_window l t)
                candidates t ->
              resolved = Returns t)
          /\ (partial_length p = None \/ partial_length p = Some 0%Z \/
              (exists l, partial_length p = Some l /\
                 Forall (fun t => ~ (length (info t) <> 0%Z /\ ResolveSpec.in_window l t))
                        candidates) ->
              forall t rest, candidates = t :: rest -> resolved = Returns t))).
Proof.
  intros Ha Hne Hs resolved candidates. subst resolved candidates. split.
  - intros H. eapply resolveTrack_no_results; eauto.
  - intros Hl. split.
    + intros t Ht. eapply resolveTrack_by_author; eauto.
    + intros Hnone. split.
      * intros l t Hlen Hl0 Ht. eapply resolveTrack_by_duration; eauto.
      * intros Hlen t rest E. eapply resolveTrack_first; eauto.
Qed.

(** The author match wins over a duration match that comes first in the
    results. *)
Lemma resolveTrack_priority_witness :
  ResolveExamples.resolve
    [ResolveExamples.by_duration_only; ResolveExamples.by_author]
    (Examples.hint "Artist" (Some 180000%Z))
  = Returns (new_Track ResolveExamples.by_author "user").
Proof.
  refine (proj1 (proj2 (resolveTrack_priority
                          Examples.no_spotify_match Examples.no_spotify_lookup
                          (Examples.answer [ResolveExamples.by_duration_only;
                                            ResolveExamples.by_author])
                          Examples.manager Examples.canonicalize_string
                          (Examples.hint "Artist" (Some 180000%Z)) "Artist" _
                          eq_refl _ eq_refl) eq_refl) _ _).
  - discriminate.
  - exists [new_Track ResolveExamples.by_duration_only "user"], [].
    split; [reflexivity|]. split.
    + right. reflexivity.
    + constructor; [|constructor].
      intros [H|H]; vm_compute in H; discriminate.
Defined.

(** C7 as stated fails: with a hint of 100 ms and no author match, the
    candidate of duration 0 lies in the window [-1900, 300] and is the first
    that does, yet the first candidate of the results is returned. *)
Lemma resolveTrack_window_counterexample :
  Forall (fun t => ~ ResolveSpec.author_matches Examples.canonicalize_string "Artist" t)
    [new_Track ResolveExamples.long_track "user";
     new_Track ResolveExamples.empty_track "user"]
  /\ ResolveSpec.first_such (ResolveSpec.in_window 100)
       [new_Track ResolveExamples.long_track "user";
        new_Track ResolveExamples.empty_track "user"]
       (new_Track ResolveExamples.empty_track "user")
  /\ ResolveExamples.resolve
       [ResolveExamples.long_track; ResolveExamples.empty_track]
       (Examples.hint "Artist" (Some 100%Z))
     = Returns (new_Track ResolveExamples.long_track "user")
  /\ new_Track ResolveExamples.long_track "user"
     <> new_Track ResolveExamples.empty_track "user".
Proof.
  split; [|split; [|split]].
  - repeat constructor; intros [H|H]; vm_compute in H; discriminate.
  - exists [new_Track ResolveExamples.long_track "user"], [].
    split; [reflexivity|]. split.
    + unfold ResolveSpec.in_window. simpl. lia.
    + constructor; [|constructor]. unfold ResolveSpec.in_window. simpl. lia.
  - reflexivity.
  - intros H. vm_compute in H. discriminate H.
Qed.

(** C9. The identifier of the [/loadtracks] request is the query itself for
    a URL and "ytsearch:" before the query for the source youtube; for the
    source soundcloud the table of identifiers has no entry, and the
    request carries "undefinedsearch:" before the query. *)
Theorem search_identifier_of_source
    (SPOTIFY_REGEX_match : string -> option (string * string)) :
  (forall query source,
      Constants.URL_REGEX_test query = true ->
      LavalinkManager.search_route SPOTIFY_REGEX_match Examples.manager query source
      = Returns (LavalinkManager.ToNode query))
  /\ (forall query,
      Constants.URL_REGEX_test query = false ->
      LavalinkManager.search_route SPOTIFY_REGEX_match Examples.manager query
        LavalinkManager.youtube
      = Returns (LavalinkManager.ToNode ("ytsearch:" ++ query)))
  /\ LavalinkManager.search_route SPOTIFY_REGEX_match Examples.manager "hello"
       LavalinkManager.soundcloud
     = Returns (LavalinkManager.ToNode "undefinedsearch:hello")
  /\ js_get Constants.SOURCE_IDENTIFIERS "soundcloud" = None.
Proof.
  unfold LavalinkManager.search_route. simpl.
  split; [|split; [|split]].
  - intros query source Hurl.
    rewrite (loadtracks_identifier_url _ _ Hurl).
    destruct source; simpl; destruct (SPOTIFY_REGEX_match query) as [[? ?]|]; reflexivity.
  - intros query Hurl.
    rewrite (loadtracks_identifier_youtube _ Hurl).
    destruct (SPOTIFY_REGEX_match query) as [[? ?]|]; reflexivity.
  - destruct (SPOTIFY_REGEX_match "hello") as [[? ?]|]; reflexivity.
  - reflexivity.
Qed.

(** ** The constructor of a node *)

Lemma Node_new_succeeds_iff o i :
  (exists n, Node.new (Some o) (Some i) true = Returns n)
  <-> (Node.c_connectionTimeout (Node.complete o) <= Node.c_retryDelay (Node.complete o))%Z.
Proof.
  unfold Node.new. cbn [negb].
  destruct (Node.c_connectionTimeout (Node.complete o)
            >? Node.c_retryDelay (Node.complete o))%Z eqn:E.
  - apply Z.gtb_lt in E. split; [intros [n Hn]; discriminate | lia].
  - rewrite Z.gtb_ltb in E. apply Z.ltb_ge in E. split; [lia | eauto].
Qed.

(** C4. The constructor throws only when the connection timeout is greater
    than the retry delay: the options [{}], whose defaults are 15000 for
    both, and any options with equal values, build a node. *)
Theorem Node_new_accepts_equal_timeouts :
  (exists n, Node.new (Some NodeExamples.no_options) (Some 0) true = Returns n
             /\ Node.c_connectionTimeout (Node.options n) = 15000%Z
             /\ Node.c_retryDelay (Node.options n) = 15000%Z)
  /\ (forall ms i, exists n,
         Node.new (Some (NodeExamples.timeouts ms ms)) (Some i) true = Returns n)
  /\ (forall connection retry i,
         (connection > retry)%Z ->
         Node.new (Some (NodeExamples.timeouts connection retry)) (Some i) true
         = Throws (Error "Node connection timeout must be greater than the reconnect retry delay")).
Proof.
  split; [|split].
  - eexists. split; [reflexivity|]. split; reflexivity.
  - intros ms i. apply Node_new_succeeds_iff. simpl. lia.
  - intros connection retry i H. unfold Node.new. cbn.
    destruct (connection >? retry)%Z eqn:E; [reflexivity|].
    rewrite Z.gtb_ltb in E. apply Z.ltb_ge in E. lia.
Qed.

(** ** The monad of the player's operations *)

Section MonadFacts.

Import Player PlayerSpec.

Variable out : Outside.

Lemma bind_Ok {A B} (m : M A) (k : A -> M B) s b s' :
  (m ≫= k) s = Ok b s' ->
  exists a s1, m s = Ok a s1 /\ k a s1 = Ok b s'.
Proof.
  unfold mbind, M_bind. destruct (m s) as [a s1|e s1|s1]; try discriminate.
  eauto.
Qed.

(** *** What a computation leaves unchanged *)

Lemma keeps_ret {A X} (f : St -> X) (a : A) : keeps f (mret a).
Proof. intros s. reflexivity. Qed.

Lemma keeps_bind {A B X} (f : St -> X) (m : M A) (k : A -> M B) :
  keeps f m -> (forall a, keeps f (k a)) -> keeps f (m ≫= k).
Proof.
  intros Hm Hk s. unfold mbind, M_bind. specialize (Hm s).
  destruct (m s) as [a s1|e s1|s1]; simpl in *; [|assumption..].
  rewrite (Hk a s1). assumption.
Qed.

Lemma keeps_throw {A X} (f : St -> X) e : keeps f (@throw A e).
Proof. intros s. reflexivity. Qed.

Lemma keeps_stuck {A X} (f : St -> X) : keeps f (@stuck A).
Proof. intros s. reflexivity. Qed.

Lemma keeps_get {X} (f : St -> X) : keeps f get.
Proof. intros s. reflexivity. Qed.

Lemma keeps_skip {X} (f : St -> X) : keeps f skip_.
Proof. intros s. reflexivity. Qed.

Lemma keeps_update {X} (f : St -> X) g :
  (forall s, f (set_this (g (this s)) s) = f s) -> keeps f (update g).
Proof. intros H s. apply H. Qed.

Lemma keeps_update_env {X} (f : St -> X) g :
  (forall s, f (set_env (g (env s)) s) = f s) -> keeps f (update_env g).
Proof. intros H s. apply H. Qed.

Lemma keeps_emit {X} (f : St -> X) ev :
  (forall s l, f (set_env (set_events l (env s)) s) = f s) -> keeps f (Player.emit ev).
Proof.
  intros H s. unfold Player.emit. destruct (listeners (this s)); simpl; [apply H|reflexivity].
Qed.

Lemma keeps_next_answer {X} (f : St -> X) :
  (forall s n, f (set_env (set_clock n (env s)) s) = f s) -> keeps f next_answer.
Proof. intros H s. apply H. Qed.

Lemma keeps_send {X} (f : St -> X) msg : of_player f -> keeps f (send out msg).
Proof.
  intros H s. unfold send. destruct (Node_send out msg (env s)) as [[| |] e]; apply H.
Qed.

Lemma keeps_void_send {X} (f : St -> X) msg : of_player f -> keeps f (void_send out msg).
Proof.
  intros H s. unfold void_send.
  destruct (Node_send out msg (env s)) as [[| |] e]; apply H.
Qed.

Lemma keeps_api_request {X} (f : St -> X) r : of_player f -> keeps f (api_request out r).
Proof.
  intros H. unfold api_request.
  apply keeps_bind; [apply keeps_next_answer; intros; apply H|].
  intros n. destruct (api_error out n); [apply keeps_throw|].
  apply keeps_update_env. intros s. apply H.
Qed.

End MonadFacts.

(** One step of a proof that a computation keeps a value. *)
Ltac keeps_step :=
  lazymatch goal with
  | |- PlayerSpec.keeps _ (mret _) => apply keeps_ret
  | |- PlayerSpec.keeps _ Player.skip_ => apply keeps_skip
  | |- PlayerSpec.keeps _ (Player.throw _) => apply keeps_throw
  | |- PlayerSpec.keeps _ Player.stuck => apply keeps_stuck
  | |- PlayerSpec.keeps _ Player.get => apply keeps_get
  | |- PlayerSpec.keeps _ (Player.emit _) =>
      apply keeps_emit; intros [? ?] ?; reflexivity
  | |- PlayerSpec.keeps _ Player.next_answer =>
      apply keeps_next_answer; intros [? ?] ?; reflexivity
  | |- PlayerSpec.keeps _ (Player.send _ _) =>
      apply keeps_send; intros ? ?; reflexivity
  | |- PlayerSpec.keeps _ (Player.void_send _ _) =>
      apply keeps_void_send; intros ? ?; reflexivity
  | |- PlayerSpec.keeps _ (Player.api_request _ _) =>
      apply keeps_api_request; intros ? ?; reflexivity
  | |- PlayerSpec.keeps _ (Player.update _) =>
      apply keeps_update; intros [? ?]; reflexivity
  | |- PlayerSpec.keeps _ (Player.update_env _) =>
      apply keeps_update_env; intros [? ?]; reflexivity
  | |- PlayerSpec.keeps _ (_ ≫= _) => apply keeps_bind; [|intros ?]
  | |- PlayerSpec.keeps _ (if ?b then _ else _) => destruct b
  | |- PlayerSpec.keeps _ (match ?x with _ => _ end) => destruct x
  | |- PlayerSpec.keeps _ (let _ := _ in _) => cbv zeta
  end.

(** ** Players *)

Section PlayerFacts.

Import Player PlayerSpec.

Variable out : Outside.

Lemma _play_keeps_core tr opts : keeps core (_play out tr opts).
Proof. unfold _play. repeat keeps_step. Qed.

Lemma _play_catch_keeps_core tr : keeps core (_play_catch out tr).
Proof.
  intros s. unfold _play_catch.
  pose proof (_play_keeps_core tr None s) as H.
  destruct (_play out tr None s); simpl in *; exact H.
Qed.

Lemma _stop_keeps_queue : keeps (fun s => (queue (this s), queuePosition (this s), loop (this s))) (_stop out).
Proof. unfold _stop. repeat keeps_step. Qed.


Lemma keeps_Ok {A X} (f : St -> X) (m : M A) s a s' :
  keeps f m -> m s = Ok a s' -> f s' = f s.
Proof. intros H E. specialize (H s). rewrite E in H. exact H. Qed.

Lemma get_Ok s p s' : get s = Ok p s' -> p = this s /\ s' = s.
Proof. unfold get. intros [= <- <-]. auto. Qed.

Lemma send_Ok msg s a s' :
  send out msg s = Ok a s' ->
  this s' = this s
  /\ node_sent (env s') = (node_sent (env s) ++ [msg])%list
  /\ events (env s') = events (env s)
  /\ manager_players (env s') = manager_players (env s)
  /\ Node.state (node (env s)) = Node.CONNECTED.
Proof.
  unfold send, Node_send.
  destruct (Node.NodeState_eqb (Node.state (node (env s))) Node.CONNECTED) eqn:Hc;
    simpl; [|discriminate].
  destruct (Node.ws (node (env s))); [|discriminate].
  destruct (ws_send_error out (clock (env s))); [discriminate|].
  intros [= _ <-]. simpl. repeat split.
  destruct (Node.state (node (env s))); try discriminate. reflexivity.
Qed.

Lemma _play_Ok tr opts s a s' :
  _play out tr opts s = Ok a s' ->
  exists o, node_sent (env s') = (node_sent (env s) ++ [op_play (guild (this s)) (track tr) o])%list.
Proof.
  unfold _play. intros H.
  apply bind_Ok in H as (p & s1 & Hget & H). apply get_Ok in Hget as [-> ->].
  destruct (negb (playable (state (this s)))); [discriminate|].
  apply bind_Ok in H as (opts1 & s2 & H1 & H).
  apply (keeps_Ok env) in H1; [|repeat keeps_step].
  cbv zeta in H.
  apply bind_Ok in H as (u & s3 & H2 & H).
  apply (keeps_Ok env) in H2; [|repeat keeps_step].
  apply send_Ok in H as (_ & H & _). rewrite H, H2, H1. eauto.
Qed.


Lemma resolve_at_keeps i :
  keeps (fun s => (queuePosition (this s), state (this s), loop (this s),
                   options (this s), env_sent s))
        (resolve_at out i).
Proof. unfold resolve_at, env_sent. repeat keeps_step. Qed.

(** What [resolve_at] does to the queue. *)
Lemma resolve_at_Ok i s a s' :
  resolve_at out i s = Ok a s' ->
  (queue (this s') = queue (this s)
   /\ forall partial, queue (this s) !! i <> Some (EPartial partial))
  \/ (exists partial n tr,
        queue (this s) !! i = Some (EPartial partial)
        /\ resolveTrack_at out n partial = Returns tr
        /\ queue (this s') = <[i := ETrack tr]> (queue (this s))).
Proof.
  unfold resolve_at. intros H.
  apply bind_Ok in H as (p & s1 & Hget & H). apply get_Ok in Hget as [-> ->].
  destruct (queue (this s) !! i) as [[tr|partial]|] eqn:E.
  - injection H as _ <-. left. split; [reflexivity|]. intros ? [=].
  - apply bind_Ok in H as (n & s1 & Hn & H). injection Hn as <- <-.
    destruct (resolveTrack_at out (clock (env s)) partial) as [tr|e] eqn:R;
      [|discriminate].
    injection H as _ <-. right. exists partial, (clock (env s)), tr.
    repeat split; assumption.
  - injection H as _ <-. left. split; [reflexivity|]. intros ? [=].
Qed.


Lemma truthy_string_true s : truthy_string s = true -> s <> "".
Proof. unfold truthy_string. intros H. apply negb_true_iff, String.eqb_neq in H. exact H. Qed.

(** What [resolve_and_play] leaves when it returns. *)
Lemma resolve_and_play_Ok i opts err s a s' :
  resolve_and_play out i opts err s = Ok a s' ->
  exists tr o,
    queue (this s') !! i = Some (ETrack tr)
    /\ track tr <> ""
    /\ queuePosition (this s') = Some i
    /\ state (this s') = state (this s)
    /\ loop (this s') = loop (this s)
    /\ (queue (this s') = queue (this s)
        \/ exists partial n,
             queue (this s) !! i = Some (EPartial partial)
             /\ resolveTrack_at out n partial = Returns tr
             /\ queue (this s') = <[i := ETrack tr]> (queue (this s)))
    /\ node_sent (env s')
       = (node_sent (env s) ++ [op_play (guild (this s)) (track tr) o])%list.
Proof.
  unfold resolve_and_play. intros H.
  apply bind_Ok in H as (u & s1 & Hres & H).
  apply bind_Ok in H as (p & s1' & Hget & H). apply get_Ok in Hget as [-> ->].
  destruct (queue (this s1) !! i) as [[tr|]|] eqn:E; try discriminate.
  destruct (truthy_string (track tr)) eqn:T; [|discriminate].
  apply bind_Ok in H as (u' & s2 & Hplay & H). injection H as _ <-.
  pose proof (keeps_Ok _ _ _ _ _ (_play_keeps_core tr opts) Hplay) as Hcore.
  pose proof (keeps_Ok _ _ _ _ _ (resolve_at_keeps i) Hres) as Hkept.
  apply _play_Ok in Hplay as (o & Hsent).
  unfold core, env_sent in *. simpl in *.
  injection Hcore as Hq Hqp Hst Hl. injection Hkept as Hqp1 Hst1 Hl1 Ho1 Hn1 _ _.
  exists tr, o. rewrite Hq, E. repeat split; try congruence.
  - apply truthy_string_true, T.
  - apply resolve_at_Ok in Hres as [[Hsame _]|(partial & n & tr0 & Hp & Hr & Hins)].
    + left. congruence.
    + right. exists partial, n. rewrite Hins in E.
      rewrite list_lookup_insert_eq in E by (eapply lookup_lt_Some; eauto).
      injection E as ->. repeat split; congruence.
  - rewrite Hsent, Hn1. unfold guild. rewrite Ho1. reflexivity.
Qed.


(** *** The queue advance *)

Lemma advance_index_eq s :
  advance_index s
  = Ok tt (set_this (set_queuePosition (Some (chosen_index (this s))) (this s)) s).
Proof.
  unfold advance_index, chosen_index, mbind, M_bind, get, update, skip_, mret, M_ret,
    currentTrack.
  destruct s as [p e]. simpl.
  destruct (queuePosition p) as [i|] eqn:Hqp; [|reflexivity].
  destruct (loop p) eqn:Hl; simpl; rewrite ?Hqp, ?Hl; simpl;
    try (destruct (bool_decide (is_Some (queue p !! S i))); reflexivity);
    try (rewrite andb_false_r; destruct p; simpl in *; subst; reflexivity).
Qed.





Lemma _stop_Ok s a s' :
  _stop out s = Ok a s' ->
  state (this s') = CONNECTED
  /\ queue (this s') = queue (this s)
  /\ queuePosition (this s') = queuePosition (this s)
  /\ loop (this s') = loop (this s)
  /\ options (this s') = options (this s)
  /\ node_sent (env s') = (node_sent (env s) ++ [op_stop (guild (this s))])%list.
Proof.
  unfold _stop. intros H.
  apply bind_Ok in H as (p & s0 & Hget & H). apply get_Ok in Hget as [-> ->].
  apply bind_Ok in H as (u & s1 & Hsend & H).
  apply send_Ok in Hsend as (Hthis & Hsent & _).
  injection H as _ <-. destruct s1 as [p1 e1]. simpl in *. subst p1.
  repeat split. exact Hsent.
Qed.








End PlayerFacts.




Section AdvanceFacts.

Import Player PlayerSpec.

Variable out : Outside.

Lemma bind_eq {A B} (m : M A) (k : A -> M B) s a s1 :
  m s = Ok a s1 -> (m ≫= k) s = k a s1.
Proof. unfold mbind, M_bind. intros ->. reflexivity. Qed.

Lemma _play_catch_Ok tr s :
  exists s', _play_catch out tr s = Ok tt s' /\ core s' = core s.
Proof.
  pose proof (_play_catch_keeps_core out tr s) as H.
  unfold _play_catch in *.
  destruct (_play out tr None s); simpl in *; eauto.
Qed.

Lemma truthy_string_of_ne s : s <> "" -> truthy_string s = true.
Proof. unfold truthy_string. intros H. apply negb_true_iff, String.eqb_neq, H. Qed.

(** The queue advance stops at the index it chose when the entry there
    will play, and clears the index when there is no entry there. *)
Lemma _advanceQueue_to_chosen fuel s :
  playable (state (this s)) = true ->
  (forall e, queue (this s) !! chosen_index (this s) = Some e -> will_play out s e) ->
  exists s',
    _advanceQueue out (S fuel) s = Ok tt s'
    /\ queuePosition (this s')
       = (if bool_decide (is_Some (queue (this s) !! chosen_index (this s)))
          then Some (chosen_index (this s)) else None)
    /\ loop (this s') = loop (this s)
    /\ state (this s') = state (this s)
    /\ List.length (queue (this s')) = List.length (queue (this s)).
Proof.
  intros Hplay Hwill. cbn [_advanceQueue].
  erewrite bind_eq by reflexivity.
  rewrite Hplay. cbn [negb].
  erewrite bind_eq by apply advance_index_eq.
  erewrite bind_eq by reflexivity.
  set (j := chosen_index (this s)) in *.
  cbn [this set_this currentTrack queuePosition set_queuePosition queue].
  destruct (queue (this s) !! j) as [e|] eqn:E.
  2:{ rewrite bool_decide_eq_false_2 by (intros [? [=]]).
      eexists. split; [reflexivity|]. simpl. auto. }
  rewrite bool_decide_eq_true_2 by eauto.
  specialize (Hwill e eq_refl).
  destruct e as [tr|partial]; simpl in Hwill.
  - erewrite bind_eq.
    2:{ unfold resolve_at. erewrite bind_eq by reflexivity.
        cbn [this set_this queue set_queuePosition]. rewrite E. reflexivity. }
    erewrite bind_eq by reflexivity. cbv zeta.
    cbn [this set_this currentTrack queuePosition set_queuePosition queue].
    rewrite E. rewrite (truthy_string_of_ne _ Hwill).
    destruct (_play_catch_Ok tr
                (set_this (set_queuePosition (Some j) (this s)) s)) as (s' & Hs' & Hcore).
    exists s'. split; [exact Hs'|].
    unfold core in Hcore. simpl in Hcore. injection Hcore as Hq Hqp Hst Hl.
    rewrite Hq. auto.
  - destruct Hwill as (tr & Hres & Hne).
    erewrite bind_eq.
    2:{ unfold resolve_at. erewrite bind_eq by reflexivity.
        cbn [this set_this queue set_queuePosition]. rewrite E.
        erewrite bind_eq by reflexivity.
        cbn [env set_env clock set_clock this set_this]. rewrite Hres. reflexivity. }
    erewrite bind_eq by reflexivity. cbv zeta.
    cbn [this set_this currentTrack queuePosition set_queuePosition queue set_queue
         env set_env].
    rewrite list_lookup_insert_eq by (eapply lookup_lt_Some; eauto).
    rewrite (truthy_string_of_ne _ Hne).
    match goal with |- exists s', _play_catch out tr ?s1 = _ /\ _ =>
      destruct (_play_catch_Ok tr s1) as (s' & Hs' & Hcore) end.
    exists s'. split; [exact Hs'|].
    unfold core in Hcore. simpl in Hcore. injection Hcore as Hq Hqp Hst Hl.
    rewrite Hq, length_insert. auto.
Qed.


Lemma chosen_index_next_index p :
  (if bool_decide (is_Some (queue p !! chosen_index p))
   then Some (chosen_index p) else None)
  = match next_index (loop p) (queuePosition p) (List.length (queue p)) with
    | Some j => if bool_decide (is_Some (queue p !! j)) then Some j else None
    | None => None
    end.
Proof.
  unfold chosen_index, next_index.
  destruct (queuePosition p) as [i|]; [|reflexivity].
  destruct (loop p); simpl; rewrite ?andb_false_r, ?andb_true_r.
  - destruct (Nat.ltb_spec (S i) (List.length (queue p))) as [H|H]; [reflexivity|].
    rewrite bool_decide_eq_false_2; [reflexivity|].
    rewrite lookup_lt_is_Some. lia.
  - reflexivity.
  - destruct (Nat.ltb_spec (S i) (List.length (queue p))) as [H|H].
    + rewrite (bool_decide_eq_true_2 (is_Some (queue p !! S i)))
        by (apply lookup_lt_is_Some; exact H).
      cbn [negb].
      rewrite (bool_decide_eq_true_2 (is_Some (queue p !! S i)))
        by (apply lookup_lt_is_Some; exact H).
      reflexivity.
    + rewrite (bool_decide_eq_false_2 (is_Some (queue p !! S i)))
        by (rewrite lookup_lt_is_Some; lia).
      reflexivity.
Qed.

Lemma chosen_index_is_next p e :
  queue p !! chosen_index p = Some e ->
  next_index (loop p) (queuePosition p) (List.length (queue p))
  = Some (chosen_index p).
Proof.
  intros He. pose proof (chosen_index_next_index p) as H.
  rewrite bool_decide_eq_true_2 in H by eauto.
  destruct (next_index (loop p) (queuePosition p) (List.length (queue p))) as [j|];
    [|discriminate].
  destruct (bool_decide (is_Some (queue p !! j))); [|discriminate].
  symmetry. exact H.
Qed.

End AdvanceFacts.

(** C2, amended. The queue advance, run on a player in CONNECTED, PAUSED
    or PLAYING, moves the index to 0 from null, leaves it under loop mode
    single, and else increments it; past the last entry the index wraps to
    0 under loop mode queue and is cleared under loop mode off. It rests
    there when the entry at that index is a track with a handle or resolves
    to one, and is cleared when no entry is there. *)
Theorem advanceQueue_index (out : Outside) (fuel : nat) (s : Player.St) :
  Player.playable (Player.state (Player.this s)) = true ->
  let p := Player.this s in
  let target :=
    PlayerSpec.next_index (Player.loop p) (Player.queuePosition p)
      (List.length (Player.queue p)) in
  (forall j e, target = Some j -> Player.queue p !! j = Some e ->
               PlayerSpec.will_play out s e) ->
  exists s',
    Player._advanceQueue out (S fuel) s = Player.Ok tt s'
    /\ Player.queuePosition (Player.this s')
       = match target with
         | Some j => if bool_decide (is_Some (Player.queue p !! j)) then Some j else None
         | None => None
         end
    /\ Player.loop (Player.this s') = Player.loop p
    /\ Player.state (Player.this s') = Player.state p.
Proof.
  intros Hplay p target Hwill. subst p target.
  destruct (_advanceQueue_to_chosen out fuel s Hplay) as (s' & H & Hqp & Hl & Hst & _).
  - intros e He. apply (Hwill (PlayerSpec.chosen_index (Player.this s))); [|exact He].
    eapply chosen_index_is_next, He.
  - exists s'. split; [exact H|]. split; [|auto].
    rewrite Hqp. apply chosen_index_next_index.
Qed.

(** Under loop mode queue the advance from the last of two tracks wraps
    to 0. *)
Lemma advanceQueue_index_witness :
  Player.queuePosition
    (Player.this
       (Player.final
          (Player._advanceQueue PlayerExamples.quiet 1
             (PlayerExamples.start Player.Queue Player.PLAYING
                [PlayerExamples.song "AAAA"; PlayerExamples.song "BBBB"] (Some 1)))))
  = Some 0.
Proof.
  destruct (advanceQueue_index PlayerExamples.quiet 0
              (PlayerExamples.start Player.Queue Player.PLAYING
                 [PlayerExamples.song "AAAA"; PlayerExamples.song "BBBB"] (Some 1))
              eq_refl) as (s' & H & Hqp & _).
  - intros j e Hj He. vm_compute in Hj. injection Hj as <-.
    vm_compute in He. injection He as <-. simpl. discriminate.
  - rewrite H. simpl. rewrite Hqp. reflexivity.
Defined.

(** C2 as stated fails. On a connected player with an empty queue and no
    index the advance returns with the index still null, not 0: no entry
    is at the index 0. And under loop mode single the advance does not
    leave the index alone when the entry there has no handle: from the
    index 0 on a track without handle it moves to the index 1. *)
Lemma advanceQueue_counterexample :
  Player._advanceQueue PlayerExamples.quiet 1
    (PlayerExamples.start Player.Off Player.CONNECTED [] None)
  = Player.Ok tt (PlayerExamples.start Player.Off Player.CONNECTED [] None)
  /\ Player.queuePosition
       (Player.this (PlayerExamples.start Player.Off Player.CONNECTED [] None))
     <> Some 0
  /\ Player._advanceQueue PlayerExamples.quiet 2
       (PlayerExamples.start Player.Single Player.PLAYING
          [PlayerExamples.no_handle; PlayerExamples.song "BBBB"] (Some 0))
     = Player.Ok tt
         (Player.final
            (Player._advanceQueue PlayerExamples.quiet 2
               (PlayerExamples.start Player.Single Player.PLAYING
                  [PlayerExamples.no_handle; PlayerExamples.song "BBBB"] (Some 0))))
  /\ Player.queuePosition
       (Player.this
          (Player.final
             (Player._advanceQueue PlayerExamples.quiet 2
                (PlayerExamples.start Player.Single Player.PLAYING
                   [PlayerExamples.no_handle; PlayerExamples.song "BBBB"] (Some 0)))))
     = Some 1
  /\ Some 1 <> Some 0.
Proof.
  split; [vm_compute; reflexivity|]. split; [discriminate|].
  split; [vm_compute; reflexivity|]. split; [vm_compute; reflexivity|]. discriminate.
Qed.

(** C10. [setLoop] returns in every state of the player, writes nothing to
    the node, and changes the loop mode alone: the queue, the queue index,
    the state, the position, the volume, the filters and the whole
    environment are as before. *)
Theorem setLoop_changes_loop_only (type : Player.LoopType) (s : Player.St) :
  exists s',
    Player.setLoop type s = Player.Ok tt s'
    /\ Player.loop (Player.this s') = type
    /\ Player.env s' = Player.env s
    /\ Player.queue (Player.this s') = Player.queue (Player.this s)
    /\ Player.queuePosition (Player.this s') = Player.queuePosition (Player.this s)
    /\ Player.state (Player.this s') = Player.state (Player.this s)
    /\ Player.position (Player.this s') = Player.position (Player.this s)
    /\ Player.volume (Player.this s') = Player.volume (Player.this s)
    /\ Player.filters (Player.this s') = Player.filters (Player.this s)
    /\ Player.this s' = Player.set_loop type (Player.this s).
Proof. eexists. split; [reflexivity|]. simpl. repeat split. Qed.

Section ShuffleFacts.

Import Player PlayerSpec.

Variable out : Outside.

Lemma js_swap_Permutation i j q : js_swap i j q ≡ₚ q.
Proof.
  unfold js_swap.
  destruct (q !! j) as [qj|] eqn:Hj; [|reflexivity].
  destruct (q !! i) as [qi|] eqn:Hi; [|reflexivity].
  apply Permutation_insert_swap; assumption.
Qed.

(** The loop of [shuffle] returns and permutes the queue; it touches
    nothing else of the player and writes nothing. *)
Lemma shuffle_loop_Ok n : forall s,
  exists s',
    shuffle_loop out n s = Ok tt s'
    /\ queue (this s') ≡ₚ queue (this s)
    /\ this s' = set_queue (queue (this s')) (this s)
    /\ env_sent s' = env_sent s.
Proof.
  induction n as [|n IH]; intros s.
  - exists s. split; [reflexivity|]. split; [reflexivity|]. split; [|reflexivity].
    destruct s as [[] ?]; reflexivity.
  - cbn [shuffle_loop].
    erewrite bind_eq by reflexivity. cbv zeta.
    erewrite bind_eq by reflexivity.
    match goal with |- exists s', shuffle_loop out n ?s1 = _ /\ _ =>
      destruct (IH s1) as (s' & H & Hperm & Hthis & Hsent) end.
    exists s'. split; [exact H|]. simpl in *. split.
    + rewrite Hperm. apply js_swap_Permutation.
    + split; [|exact Hsent]. rewrite Hthis at 1. reflexivity.
Qed.

Lemma shuffle_Ok s s' :
  shuffle out s = Ok tt s' ->
  exists shuffled tr o,
    shuffled ≡ₚ queue (this s)
    /\ (queue (this s') = shuffled
        \/ exists partial n,
             shuffled !! 0 = Some (EPartial partial)
             /\ resolveTrack_at out n partial = Returns tr
             /\ queue (this s') = <[0 := ETrack tr]> shuffled)
    /\ queue (this s') !! 0 = Some (ETrack tr)
    /\ track tr <> ""
    /\ queuePosition (this s') = Some 0
    /\ node_sent (env s')
       = (node_sent (env s)
          ++ [op_stop (guild (this s)); op_play (guild (this s)) (track tr) o])%list.
Proof.
  unfold shuffle. intros H.
  apply bind_Ok in H as (p & s0 & Hget & H). apply get_Ok in Hget as [-> ->].
  destruct (playable (state (this s))) eqn:Hplay; [|discriminate]. cbn [negb] in H.
  apply bind_Ok in H as (u & s1 & Hstop & H).
  apply _stop_Ok in Hstop as (_ & Hq1 & _ & _ & Ho1 & Hn1).
  apply bind_Ok in H as (u' & s2 & Hloop & H).
  destruct (shuffle_loop_Ok (List.length (queue (this s))) s1)
    as (s2' & Hloop' & Hperm & Hthis & Hsent).
  rewrite Hloop in Hloop'. injection Hloop' as _ <-.
  apply resolve_and_play_Ok in H as (tr & o & Hq0 & Hne & Hqp & _ & _ & Hq & Hn).
  exists (queue (this s2)), tr, o.
  split; [rewrite Hperm, Hq1; reflexivity|].
  split; [exact Hq|]. split; [exact Hq0|]. split; [exact Hne|]. split; [exact Hqp|].
  unfold env_sent in Hsent. injection Hsent as Hsent _ _.
  rewrite Hn, Hsent, Hn1, <- app_assoc. simpl.
  unfold guild. rewrite Hthis. simpl. rewrite Ho1. reflexivity.
Qed.

End ShuffleFacts.

(** C6, amended. When [shuffle] returns, the queue is a permutation of the
    queue before, except that an unresolved entry that came to position 0
    has been replaced by the track it resolved to; the entry at position 0
    is a track with a handle, a stop and then a play of that track were
    written to the node, and the queue index is 0. *)
Theorem shuffle_permutes_up_to_resolution (out : Outside) (s s' : Player.St) :
  Player.shuffle out s = Player.Ok tt s' ->
  exists shuffled tr o,
    shuffled ≡ₚ Player.queue (Player.this s)
    /\ (Player.queue (Player.this s') = shuffled
        \/ exists partial n,
             shuffled !! 0 = Some (EPartial partial)
             /\ resolveTrack_at out n partial = Returns tr
             /\ Player.queue (Player.this s') = <[0 := ETrack tr]> shuffled)
    /\ Player.queue (Player.this s') !! 0 = Some (ETrack tr)
    /\ track tr <> ""
    /\ Player.queuePosition (Player.this s') = Some 0
    /\ node_sent (Player.env s')
       = (node_sent (Player.env s)
          ++ [op_stop (Player.guild (Player.this s));
              op_play (Player.guild (Player.this s)) (track tr) o])%list.
Proof. apply shuffle_Ok. Qed.

(** The shuffle of two tracks returns with index 0 on a track. *)
Lemma shuffle_permutes_up_to_resolution_witness :
  Player.queuePosition
    (Player.this
       (Player.final
          (Player.shuffle PlayerExamples.quiet
             (PlayerExamples.start Player.Off Player.PLAYING
                [PlayerExamples.song "AAAA"; PlayerExamples.song "BBBB"] (Some 1)))))
  = Some 0.
Proof.
  assert (Player.shuffle PlayerExamples.quiet
            (PlayerExamples.start Player.Off Player.PLAYING
               [PlayerExamples.song "AAAA"; PlayerExamples.song "BBBB"] (Some 1))
          = Player.Ok tt
              (Player.final
                 (Player.shuffle PlayerExamples.quiet
                    (PlayerExamples.start Player.Off Player.PLAYING
                       [PlayerExamples.song "AAAA"; PlayerExamples.song "BBBB"]
                       (Some 1))))) as H
    by (vm_compute; reflexivity).
  destruct (shuffle_permutes_up_to_resolution PlayerExamples.quiet _ _ H)
    as (shuffled & tr & o & _ & _ & _ & _ & Hqp & _).
  exact Hqp.
Defined.

(** C6 as stated fails: the shuffle of a queue that holds one unresolved
    entry returns with a queue that holds the resolved track, which is no
    permutation of the queue before. *)
Lemma shuffle_counterexample :
  Player.shuffle PlayerExamples.quiet
    (PlayerExamples.start Player.Off Player.CONNECTED [PlayerExamples.hinted] None)
  = Player.Ok tt
      (Player.final
         (Player.shuffle PlayerExamples.quiet
            (PlayerExamples.start Player.Off Player.CONNECTED [PlayerExamples.hinted] None)))
  /\ Player.queue
       (Player.this
          (Player.final
             (Player.shuffle PlayerExamples.quiet
                (PlayerExamples.start Player.Off Player.CONNECTED
                   [PlayerExamples.hinted] None))))
     = [ETrack (Examples.track_of "RESOLVED" "Artist" 1000)]
  /\ ~ (Player.queue
          (Player.this
             (Player.final
                (Player.shuffle PlayerExamples.quiet
                   (PlayerExamples.start Player.Off Player.CONNECTED
                      [PlayerExamples.hinted] None))))
        ≡ₚ [PlayerExamples.hinted]).
Proof.
  split; [vm_compute; reflexivity|]. split; [vm_compute; reflexivity|].
  intros H. apply Permutation_sym, Permutation_length_1_inv in H.
  vm_compute in H. discriminate H.
Qed.

Section MoveFacts.

Import Player PlayerSpec.

Variable out : Outside.

Lemma void__disconnect_keeps_observed : keeps observed (void__disconnect out).
Proof. unfold void__disconnect. repeat keeps_step. Qed.

Lemma destroy_keeps_observed reason : keeps observed (destroy out reason).
Proof.
  unfold destroy, emit_DESTROYED.
  repeat lazymatch goal with
         | |- keeps _ (void__disconnect _) => apply void__disconnect_keeps_observed
         | _ => keeps_step
         end.
Qed.

Lemma _handleMove_branches_keeps_observed c d :
  keeps observed (_handleMove_branches out c d).
Proof.
  unfold _handleMove_branches, void_pause, void_resume, emit_CONNECTED.
  repeat lazymatch goal with
         | |- keeps _ (destroy _ _) => apply destroy_keeps_observed
         | _ => keeps_step
         end.
Qed.


Lemma destroy_state reason s a s' :
  destroy out reason s = Ok a s' -> state (this s') = DESTROYED.
Proof.
  unfold destroy. intros H.
  apply bind_Ok in H as (p & s0 & Hget & H). apply get_Ok in Hget as [-> ->].
  do 5 (apply bind_Ok in H as (? & ? & _ & H)).
  apply bind_Ok in H as (u & s1 & Hset & H). injection Hset as _ <-.
  apply bind_Ok in H as (u1 & s2 & H1 & H).
  apply (keeps_Ok (fun s => state (this s))) in H1.
  2:{ unfold emit_DESTROYED, void__disconnect. repeat keeps_step. }
  apply (keeps_Ok (fun s => state (this s))) in H; [|repeat keeps_step].
  simpl in *. congruence.
Qed.

(** Which way [_handleMove] leaves its branches. *)
Lemma _handleMove_branches_flow c d s f s' :
  _handleMove_branches out c d s = Ok f s' ->
  if leaves_by_destroy (this s) c d
  then f = Returned /\ state (this s') = DESTROYED
  else f = Continue.
Proof.
  unfold _handleMove_branches, leaves_by_destroy. intros H.
  apply bind_Ok in H as (p & s0 & Hget & H). apply get_Ok in Hget as [-> ->].
  apply bind_Ok in H as (u & s1 & _ & H). cbv zeta in H.
  destruct (playable (state (this s))); cbn [andb].
  - destruct (Behavior_is_destroy (moveBehavior (options (this s)))
              && (negb (option_eqb (Some (voiceChannelId (options (this s)))) c)
                  || negb (bool_decide (is_Some c)))); cbn [orb].
    + apply bind_Ok in H as (u1 & s2 & Hd & H). injection H as <- <-.
      split; [reflexivity|]. eapply destroy_state, Hd.
    + apply bind_Ok in H as (u1 & s2 & _ & H).
      destruct (truthy_obool (isStage (this s)) && becomeSpeaker (options (this s))
                && bool_decide (is_Some (lastVoiceState (this s)))); cbn [andb].
      2:{ injection H as <- _. reflexivity. }
      apply bind_Ok in H as (u2 & s3 & _ & H).
      destruct (Behavior_is_destroy (stageMoveBehavior (options (this s)))
                && negb match lastVoiceState (this s) with
                        | Some d0 => suppress d0
                        | None => false
                        end
                && suppress d).
      * apply bind_Ok in H as (u3 & s4 & Hd & H). injection H as <- <-.
        split; [reflexivity|]. eapply destroy_state, Hd.
      * repeat first
          [ apply bind_Ok in H as (? & ? & _ & H)
          | match type of H with
            | (if ?b then _ else _) _ = _ => destruct b
            | (match ?x with _ => _ end) _ = _ => destruct x
            end
          | discriminate H
          | injection H as <- _; reflexivity ].
  - destruct (PlayerState_eqb (state (this s)) CONNECTING).
    + apply bind_Ok in H as (u1 & s2 & _ & H). injection H as <- _. reflexivity.
    + injection H as <- _. reflexivity.
Qed.

End MoveFacts.

(** C5, amended. When [_handleMove] returns, the player's
    [currentVoiceChannel] is the new channel and its [lastVoiceState] is the
    new voice state data, unless the call left through one of its two
    [return this.destroy(...)], taken from CONNECTED, PAUSED or PLAYING
    (moved out of the channel under move behaviour destroy; moved to the
    audience under stage move behaviour destroy): then the player is
    DESTROYED and both fields are as they were before the call. *)
Theorem handleMove_records_observed (out : Outside)
    (newChannel : option Snowflake) (data : Player.VoiceState) (s s' : Player.St) :
  Player._handleMove out newChannel data s = Player.Ok tt s' ->
  if PlayerSpec.leaves_by_destroy (Player.this s) newChannel data
  then Player.currentVoiceChannel (Player.this s')
       = Player.currentVoiceChannel (Player.this s)
       /\ Player.lastVoiceState (Player.this s') = Player.lastVoiceState (Player.this s)
       /\ Player.state (Player.this s') = Player.DESTROYED
  else Player.currentVoiceChannel (Player.this s') = newChannel
       /\ Player.lastVoiceState (Player.this s') = Some data.
Proof.
  unfold Player._handleMove. intros H.
  apply bind_Ok in H as (f & s1 & Hb & H).
  pose proof (keeps_Ok _ _ _ _ _ (_handleMove_branches_keeps_observed out newChannel data) Hb)
    as Hobs.
  apply _handleMove_branches_flow in Hb.
  destruct (PlayerSpec.leaves_by_destroy (Player.this s) newChannel data).
  - destruct Hb as [-> Hst]. injection H as <-.
    unfold PlayerSpec.observed in Hobs. injection Hobs as Hc Hl. auto.
  - subst f. injection H as <-. simpl. auto.
Qed.

(** Under move behaviour pause, a playing player that is moved to another
    channel records the new channel and voice state. *)
Lemma handleMove_records_observed_witness :
  Player.currentVoiceChannel
    (Player.this
       (Player.final
          (Player._handleMove PlayerExamples.quiet (Some "W") PlayerExamples.moved_to_W
             (PlayerExamples.start_with Player.behavior_pause Player.PLAYING))))
  = Some "W"
  /\ Player.lastVoiceState
       (Player.this
          (Player.final
             (Player._handleMove PlayerExamples.quiet (Some "W") PlayerExamples.moved_to_W
                (PlayerExamples.start_with Player.behavior_pause Player.PLAYING))))
     = Some PlayerExamples.moved_to_W.
Proof.
  assert (Player._handleMove PlayerExamples.quiet (Some "W") PlayerExamples.moved_to_W
            (PlayerExamples.start_with Player.behavior_pause Player.PLAYING)
          = Player.Ok tt
              (Player.final
                 (Player._handleMove PlayerExamples.quiet (Some "W")
                    PlayerExamples.moved_to_W
                    (PlayerExamples.start_with Player.behavior_pause Player.PLAYING))))
    as H by (vm_compute; reflexivity).
  exact (handleMove_records_observed PlayerExamples.quiet (Some "W")
           PlayerExamples.moved_to_W _ _ H).
Defined.

(** C5 as stated fails: under move behaviour destroy, a connected player in
    its channel "V" that is moved to "W" is destroyed, and the call returns
    with [currentVoiceChannel] still "V" and no [lastVoiceState]. *)
Lemma handleMove_counterexample :
  Player._handleMove PlayerExamples.quiet (Some "W") PlayerExamples.moved_to_W
    (PlayerExamples.start_with Player.behavior_destroy Player.CONNECTED)
  = Player.Ok tt
      (Player.final
         (Player._handleMove PlayerExamples.quiet (Some "W") PlayerExamples.moved_to_W
            (PlayerExamples.start_with Player.behavior_destroy Player.CONNECTED)))
  /\ Player.currentVoiceChannel
       (Player.this
          (Player.final
             (Player._handleMove PlayerExamples.quiet (Some "W")
                PlayerExamples.moved_to_W
                (PlayerExamples.start_with Player.behavior_destroy Player.CONNECTED))))
     = Some "V"
  /\ Player.lastVoiceState
       (Player.this
          (Player.final
             (Player._handleMove PlayerExamples.quiet (Some "W")
                PlayerExamples.moved_to_W
                (PlayerExamples.start_with Player.behavior_destroy Player.CONNECTED))))
     = None
  /\ Some "V" <> Some "W".
Proof.
  split; [vm_compute; reflexivity|]. split; [vm_compute; reflexivity|].
  split; [vm_compute; reflexivity|]. discriminate.
Qed.

Section DestroyFacts.

Import Player PlayerSpec.

Variable out : Outside.

(** *** Computations that always return *)

Lemma total_ret {A} (a : A) : total (mret a).
Proof. intros s. eexists _, _. reflexivity. Qed.

Lemma total_bind {A B} (m : M A) (k : A -> M B) :
  total m -> (forall a, total (k a)) -> total (m ≫= k).
Proof.
  intros Hm Hk s. destruct (Hm s) as (a & s1 & H).
  destruct (Hk a s1) as (b & s2 & H2). exists b, s2.
  erewrite bind_eq by exact H. exact H2.
Qed.

Lemma total_get : total get.
Proof. intros s. eexists _, _. reflexivity. Qed.

Lemma total_skip : total skip_.
Proof. intros s. eexists _, _. reflexivity. Qed.

Lemma total_update f : total (update f).
Proof. intros s. eexists _, _. reflexivity. Qed.

Lemma total_update_env f : total (update_env f).
Proof. intros s. eexists _, _. reflexivity. Qed.

Lemma total_next_answer : total next_answer.
Proof. intros s. eexists _, _. reflexivity. Qed.

Lemma total_emit ev : total (Player.emit ev).
Proof.
  intros s. unfold Player.emit. destruct (listeners (this s)); eexists _, _; reflexivity.
Qed.

Lemma total_void_send msg : total (void_send out msg).
Proof.
  intros s. unfold void_send.
  destruct (Node_send out msg (env s)) as [[| |] e]; eexists _, _; reflexivity.
Qed.

Ltac total_step :=
  lazymatch goal with
  | |- total (mret _) => apply total_ret
  | |- total skip_ => apply total_skip
  | |- total get => apply total_get
  | |- total (Player.emit _) => apply total_emit
  | |- total next_answer => apply total_next_answer
  | |- total (void_send _ _) => apply total_void_send
  | |- total (update _) => apply total_update
  | |- total (update_env _) => apply total_update_env
  | |- total (_ ≫= _) => apply total_bind; [|intros ?]
  | |- total (if ?b then _ else _) => destruct b
  | |- total (match ?x with _ => _ end) => destruct x
  end.

Lemma void__disconnect_total : total (void__disconnect out).
Proof. unfold void__disconnect. repeat total_step. Qed.

Lemma emit_DESTROYED_total reason : total (emit_DESTROYED out reason).
Proof.
  unfold emit_DESTROYED.
  repeat lazymatch goal with
         | |- total (void__disconnect _) => apply void__disconnect_total
         | _ => total_step
         end.
Qed.

(** [destroy] never throws. *)
Lemma destroy_total reason : total (destroy out reason).
Proof.
  unfold destroy.
  repeat lazymatch goal with
         | |- total (void__disconnect _) => apply void__disconnect_total
         | |- total (emit_DESTROYED _ _) => apply emit_DESTROYED_total
         | _ => total_step
         end.
Qed.

Lemma destroy_returns reason s : exists s', destroy out reason s = Ok tt s'.
Proof. destruct (destroy_total reason s) as ([] & s' & H). eauto. Qed.

(** *** What [destroy] does *)

(** The write of a payload that is not awaited. *)
Lemma void_send_Ok msg s b s' :
  void_send out msg s = Ok b s' ->
  this s' = this s
  /\ tables s' = tables s
  /\ gateway_sent (env s') = gateway_sent (env s)
  /\ ((b = true
       /\ node_sent (env s') = (node_sent (env s) ++ [msg])%list
       /\ events (env s') = events (env s))
      \/ (b = false
          /\ node_sent (env s') = node_sent (env s)
          /\ (events (env s') = events (env s)
              \/ exists err,
                   events (env s')
                   = (events (env s)
                      ++ [NODE_ERROR (Node.identifier (node (env s))) err])%list))).
Proof.
  unfold void_send, Node_send, node_emit, tables.
  destruct (Node.NodeState_eqb (Node.state (node (env s))) Node.CONNECTED); simpl.
  2:{ intros [= <- <-]. destruct s; simpl. auto 10. }
  destruct (Node.ws (node (env s))).
  2:{ intros [= <- <-]. destruct s; simpl. auto 10. }
  destruct (ws_send_error out (clock (env s))) as [err|].
  - destruct (Node.listeners (node (env s))); intros [= <- <-]; simpl;
      repeat split; right; repeat split; eauto.
  - intros [= <- <-]. simpl. repeat split. left. repeat split.
Qed.

Lemma void_send_written msg s :
  Node.state (node (env s)) = Node.CONNECTED ->
  Node.ws (node (env s)) = true ->
  ws_send_error out (clock (env s)) = None ->
  exists s', void_send out msg s = Ok true s'.
Proof.
  intros Hc Hw He. unfold void_send, Node_send. rewrite Hc, Hw, He. simpl. eauto.
Qed.


(** The steps of a run of [destroy]. *)
Lemma destroy_inv reason s a s' :
  destroy out reason s = Ok a s' ->
  exists s1 b s2 s7,
    (if truthy_ostring (currentVoiceChannel (this s))
     then void__disconnect out else skip_) s = Ok tt s1
    /\ void_send out (op_destroy (guild (this s))) s1 = Ok b s2
    /\ emit_DESTROYED out reason
         (set_this
            (set_state DESTROYED
               (set_position None (set_queuePosition None (set_queue [] (this s2)))))
            s2)
       = Ok tt s7
    /\ s' = set_env
              (set_manager_players
                 (players_delete (guild (this s)) (manager_players (env s7))) (env s7))
              (set_this (set_connecting false (set_listeners false (this s7))) s7).
Proof.
  unfold destroy. intros H.
  apply bind_Ok in H as (p & s0 & Hget & H). apply get_Ok in Hget as [-> ->].
  apply bind_Ok in H as ([] & s1 & H1 & H).
  apply bind_Ok in H as (b & s2 & H2 & H).
  apply bind_Ok in H as ([] & s3 & H3 & H). injection H3 as <-.
  apply bind_Ok in H as ([] & s4 & H4 & H). injection H4 as <-.
  apply bind_Ok in H as ([] & s5 & H5 & H). injection H5 as <-.
  apply bind_Ok in H as ([] & s6 & H6 & H). injection H6 as <-.
  apply bind_Ok in H as ([] & s7 & H7 & H).
  apply bind_Ok in H as ([] & s8 & H8 & H). injection H8 as <-.
  injection H as _ <-.
  exists s1, b, s2, s7. repeat split; assumption.
Qed.

Lemma void__disconnect_keeps :
  keeps (fun s => (queue (this s), queuePosition (this s), position (this s),
                   state (this s), listeners (this s), connecting (this s),
                   options (this s), node_identifier (this s),
                   tables s, events (env s), node_sent (env s)))
        (void__disconnect out).
Proof. unfold void__disconnect, tables. repeat keeps_step. Qed.

Lemma first_step_keeps (b : bool) :
  keeps (fun s => (queue (this s), queuePosition (this s), position (this s),
                   state (this s), listeners (this s), connecting (this s),
                   options (this s), node_identifier (this s),
                   tables s, events (env s), node_sent (env s)))
        (if b then void__disconnect out else skip_).
Proof. destruct b; [apply void__disconnect_keeps|apply keeps_skip]. Qed.

Lemma emit_DESTROYED_keeps reason :
  keeps (fun s => (queue (this s), queuePosition (this s), position (this s),
                   state (this s), listeners (this s), options (this s),
                   node_identifier (this s), tables s, node_sent (env s)))
        (emit_DESTROYED out reason).
Proof. unfold emit_DESTROYED, void__disconnect, tables. repeat keeps_step. Qed.

(** The events of [emit_DESTROYED]: none without listeners, and with
    them the player's [DESTROYED] with its reason. *)
Lemma emit_DESTROYED_events reason s a s' :
  emit_DESTROYED out reason s = Ok a s' ->
  exists l,
    events (env s') = (events (env s) ++ l)%list
    /\ (listeners (this s) = true -> PLAYER_DESTROYED (guild (this s)) reason ∈ l)
    /\ (listeners (this s) = false -> l = []).
Proof.
  unfold emit_DESTROYED. intros H.
  apply bind_Ok in H as (p & s0 & Hget & H). apply get_Ok in Hget as [-> ->].
  apply bind_Ok in H as ([] & s1 & H1 & H).
  assert (listeners (this s1) = listeners (this s)
          /\ events (env s1)
             = (events (env s)
                ++ (if listeners (this s)
                    then [PLAYER_DESTROYED (guild (this s)) reason] else []))%list)
    as [Hl1 He1].
  { unfold Player.emit in H1. destruct (listeners (this s)) eqn:E.
    - injection H1 as <-. simpl. auto.
    - injection H1 as <-. rewrite E, app_nil_r. auto. }
  destruct (connecting (this s)).
  2:{ injection H as _ <-. eexists. split; [exact He1|].
      split; intros ->; [apply list_elem_of_singleton; reflexivity|reflexivity]. }
  apply bind_Ok in H as ([] & s2 & H2 & H). injection H2 as <-.
  apply bind_Ok in H as ([] & s3 & H3 & H).
  apply (keeps_Ok (fun s => (listeners (this s), events (env s)))) in H3.
  2:{ destruct (truthy_ostring (currentVoiceChannel (this s)));
        [unfold void__disconnect; repeat keeps_step|apply keeps_skip]. }
  simpl in H3. injection H3 as Hl3 He3.
  unfold Player.emit in H. rewrite Hl3, Hl1 in H.
  destruct (listeners (this s)) eqn:E.
  - injection H as _ <-. simpl. rewrite He3, He1, <- app_assoc.
    eexists. split; [reflexivity|]. split; [intros _|discriminate].
    apply list_elem_of_here.
  - injection H as _ <-. rewrite He3, He1.
    eexists. split; [reflexivity|]. split; [discriminate|reflexivity].
Qed.


Lemma destroy_facts reason s a s' :
  destroy out reason s = Ok a s' ->
  torn_down (this s')
  /\ options (this s') = options (this s)
  /\ node_identifier (this s') = node_identifier (this s)
  /\ manager_players (env s')
     = players_delete (guild (this s)) (manager_players (env s))
  /\ manager_nodes (env s') = manager_nodes (env s)
  /\ node (env s') = node (env s)
  /\ node_closed (env s') = node_closed (env s)
  /\ (exists l,
        events (env s') = (events (env s) ++ l)%list
        /\ (listeners (this s) = true ->
            PLAYER_DESTROYED (guild (this s)) reason ∈ l)
        /\ (listeners (this s) = false ->
            l = [] \/ exists err, l = [NODE_ERROR (Node.identifier (node (env s))) err]))
  /\ (node_sent (env s') = node_sent (env s)
      \/ node_sent (env s')
         = (node_sent (env s) ++ [op_destroy (guild (this s))])%list)
  /\ (Node.state (node (env s)) = Node.CONNECTED ->
      Node.ws (node (env s)) = true ->
      (forall n, ws_send_error out n = None) ->
      node_sent (env s')
      = (node_sent (env s) ++ [op_destroy (guild (this s))])%list
      /\ (listeners (this s) = false -> events (env s') = events (env s))).
Proof.
  intros H. apply destroy_inv in H as (s1 & b & s2 & s7 & H1 & H2 & H7 & ->).
  pose proof (keeps_Ok _ _ _ _ _ (first_step_keeps _) H1) as K1.
  pose proof (void_send_Ok _ _ _ _ H2) as (V2 & T2 & _ & S2).
  pose proof (keeps_Ok _ _ _ _ _ (emit_DESTROYED_keeps reason) H7) as K7.
  pose proof (emit_DESTROYED_events _ _ _ _ H7) as (l7 & E7 & In7 & Nil7).
  unfold tables in *. simpl in K1, K7, E7, In7, Nil7.
  injection K1 as _ _ _ _ Hl1 _ Ho1 Hn1 Hmp1 Hmn1 Hnode1 Hnc1 Hev1 Hns1.
  injection K7 as Hq7 Hqp7 Hpos7 Hst7 Hl7 Ho7 Hn7 Hmp7 Hmn7 Hnode7 Hnc7 Hns7.
  injection T2 as Hmp2 Hmn2 Hnode2 Hnc2.
  unfold torn_down. simpl.
  rewrite Hq7, Hqp7, Hpos7, Hst7, Ho7, Hn7, Hmp7, Hmn7, Hnode7, Hnc7, Hns7, E7.
  rewrite V2 in *. rewrite Hmp2, Hmn2, Hnode2, Hnc2, Ho1, Hn1, Hmp1, Hmn1, Hnode1, Hnc1.
  rewrite Hl1 in *.
  unfold guild in *. simpl in In7. rewrite Ho1 in In7.
  split; [repeat split|].
  do 6 (split; [reflexivity|]).
  split.
  { destruct S2 as [(_ & _ & Hev2)|(_ & _ & [Hev2|(err & Hev2)])].
    - exists l7. rewrite Hev2, Hev1. split; [reflexivity|].
      split; [exact In7|]. intros Hl. left. exact (Nil7 Hl).
    - exists l7. rewrite Hev2, Hev1. split; [reflexivity|].
      split; [exact In7|]. intros Hl. left. exact (Nil7 Hl).
    - exists ([NODE_ERROR (Node.identifier (node (env s1))) err] ++ l7)%list.
      rewrite Hev2, Hev1, <- app_assoc. split; [reflexivity|]. split.
      + intros Hl. apply elem_of_app. right. auto.
      + intros Hl. rewrite (Nil7 Hl). right. exists err. rewrite Hnode1. reflexivity. }
  split.
  { destruct S2 as [(_ & Hs & _)|(_ & Hs & _)]; rewrite Hs, Hns1; auto. }
  intros Hc Hw He.
  destruct (void_send_written (op_destroy (guildId (options (this s)))) s1)
    as (s2' & Hw2).
  { rewrite Hnode1. exact Hc. } { rewrite Hnode1. exact Hw. } { apply He. }
  rewrite Hw2 in H2. injection H2 as <- _.
  destruct S2 as [(_ & Hs & Hev2)|(Hb & _)]; [|discriminate].
  rewrite Hs, Hns1. split; [reflexivity|].
  intros Hl. rewrite (Nil7 Hl), app_nil_r. congruence.
Qed.

Lemma filter_idempotent {A} (f : A -> bool) l :
  List.filter f (List.filter f l) = List.filter f l.
Proof.
  induction l as [|x l IH]; [reflexivity|].
  simpl. destruct (f x) eqn:E; simpl; [|exact IH].
  rewrite E, IH. reflexivity.
Qed.

Lemma players_delete_idempotent g m :
  players_delete g (players_delete g m) = players_delete g m.
Proof. apply filter_idempotent. Qed.

(** A second [destroy] after a first one. *)
Lemma destroy_again r1 r2 s s1 :
  destroy out r1 s = Ok tt s1 ->
  exists s2,
    destroy out r2 s1 = Ok tt s2
    /\ torn_down (this s1) /\ torn_down (this s2)
    /\ manager_players (env s2) = manager_players (env s1)
    /\ (events (env s2) = events (env s1)
        \/ exists err,
             events (env s2)
             = (events (env s1)
                ++ [NODE_ERROR (Node.identifier (node (env s1))) err])%list)
    /\ (node_sent (env s2) = node_sent (env s1)
        \/ node_sent (env s2)
           = (node_sent (env s1) ++ [op_destroy (guild (this s))])%list)
    /\ (Node.state (node (env s1)) = Node.CONNECTED ->
        Node.ws (node (env s1)) = true ->
        (forall n, ws_send_error out n = None) ->
        node_sent (env s2)
        = (node_sent (env s1) ++ [op_destroy (guild (this s))])%list
        /\ events (env s2) = events (env s1)).
Proof.
  intros H1. destruct (destroy_returns r2 s1) as (s2 & H2). exists s2.
  split; [exact H2|].
  apply destroy_facts in H1 as (T1 & O1 & _ & M1 & _ & _ & _ & _ & _ & _).
  apply destroy_facts in H2 as (T2 & O2 & _ & M2 & _ & _ & _ & E2 & S2 & W2).
  assert (guild (this s1) = guild (this s)) as Hg by (unfold guild; congruence).
  rewrite Hg in *.
  assert (listeners (this s1) = false) as Hl by apply T1.
  split; [exact T1|]. split; [exact T2|]. split.
  { rewrite M2, M1. apply players_delete_idempotent. }
  split.
  { destruct E2 as (l & El & _ & Hnil). destruct (Hnil Hl) as [->|(err & ->)].
    - left. rewrite El, app_nil_r. reflexivity.
    - right. exists err. exact El. }
  split; [exact S2|].
  intros Hc Hw He. destruct (W2 Hc Hw He) as [Hs Hev]. auto.
Qed.

End DestroyFacts.

(** C8, amended. A second [destroy()] after a first one does not throw and
    delivers no event of the player; the queue, the queue index, the
    position and the state DESTROYED stay as the first call left them, and
    so does the manager's table. It does write to the node again: when the
    node is connected and the write succeeds, one more destroy payload goes
    out. (When the write fails, the node reports the error.) *)
Theorem destroy_twice (out : Outside) (r1 r2 : string) (s s1 : Player.St) :
  Player.destroy out r1 s = Player.Ok tt s1 ->
  exists s2,
    Player.destroy out r2 s1 = Player.Ok tt s2
    /\ Player.queue (Player.this s2) = Player.queue (Player.this s1)
    /\ Player.queuePosition (Player.this s2) = Player.queuePosition (Player.this s1)
    /\ Player.position (Player.this s2) = Player.position (Player.this s1)
    /\ Player.state (Player.this s2) = Player.DESTROYED
    /\ Player.state (Player.this s1) = Player.DESTROYED
    /\ manager_players (Player.env s2) = manager_players (Player.env s1)
    /\ (events (Player.env s2) = events (Player.env s1)
        \/ exists err,
             events (Player.env s2)
             = (events (Player.env s1)
                ++ [NODE_ERROR (Node.identifier (node (Player.env s1))) err])%list)
    /\ (node_sent (Player.env s2) = node_sent (Player.env s1)
        \/ node_sent (Player.env s2)
           = (node_sent (Player.env s1)
              ++ [op_destroy (Player.guild (Player.this s))])%list)
    /\ (Node.state (node (Player.env s1)) = Node.CONNECTED ->
        Node.ws (node (Player.env s1)) = true ->
        (forall n, ws_send_error out n = None) ->
        node_sent (Player.env s2)
        = (node_sent (Player.env s1) ++ [op_destroy (Player.guild (Player.this s))])%list
        /\ events (Player.env s2) = events (Player.env s1)).
Proof.
  intros H1.
  destruct (destroy_again out r1 r2 s s1 H1) as (s2 & H2 & T1 & T2 & M & E & S & W).
  exists s2. unfold PlayerSpec.torn_down in *.
  destruct T1 as (q1 & qp1 & p1 & st1 & _). destruct T2 as (q2 & qp2 & p2 & st2 & _).
  split; [exact H2|].
  split; [congruence|]. split; [congruence|]. split; [congruence|].
  split; [exact st2|]. split; [exact st1|]. split; [exact M|].
  split; [exact E|]. split; [exact S|]. exact W.
Qed.

(** The second [destroy()] of the example returns. *)
Lemma destroy_twice_witness :
  exists s2,
    Player.destroy PlayerExamples.quiet "Manual destroy" PlayerExamples.destroyed_once
    = Player.Ok tt s2.
Proof.
  assert (Player.destroy PlayerExamples.quiet "Manual destroy" PlayerExamples.joined
          = Player.Ok tt PlayerExamples.destroyed_once) as H
    by (vm_compute; reflexivity).
  destruct (destroy_twice PlayerExamples.quiet "Manual destroy" "Manual destroy" _ _ H)
    as (s2 & H2 & _).
  exists s2. exact H2.
Defined.

(** C8 as stated fails: on a connected node the first [destroy()] writes
    one destroy payload and the second writes another. *)
Lemma destroy_twice_counterexample :
  Player.destroy PlayerExamples.quiet "Manual destroy" PlayerExamples.joined
  = Player.Ok tt PlayerExamples.destroyed_once
  /\ Player.destroy PlayerExamples.quiet "Manual destroy" PlayerExamples.destroyed_once
     = Player.Ok tt PlayerExamples.destroyed_twice
  /\ node_sent (Player.env PlayerExamples.destroyed_once) = [op_destroy "G"]
  /\ node_sent (Player.env PlayerExamples.destroyed_twice)
     = [op_destroy "G"; op_destroy "G"].
Proof.
  split; [vm_compute; reflexivity|]. split; [vm_compute; reflexivity|].
  split; vm_compute; reflexivity.
Qed.

Section NodeFacts.

Import NodeLifecycle NodeSpec.

Variable out : Outside.

(** *** One player destroyed from the node *)

Lemma destroy_player_unbound reason w a :
  heap w !! a = None -> destroy_player out reason w a = w.
Proof. unfold destroy_player. intros ->. reflexivity. Qed.

Lemma destroy_player_facts reason w a p :
  heap w !! a = Some p ->
  exists p',
    heap (destroy_player out reason w a) = <[a := p']> (heap w)
    /\ PlayerSpec.torn_down p'
    /\ Player.options p' = Player.options p
    /\ manager_players (shared (destroy_player out reason w a))
       = players_delete (Player.guild p) (manager_players (shared w))
    /\ manager_nodes (shared (destroy_player out reason w a)) = manager_nodes (shared w)
    /\ node (shared (destroy_player out reason w a)) = node (shared w)
    /\ exists l,
         events (shared (destroy_player out reason w a)) = (events (shared w) ++ l)%list
         /\ (Player.listeners p = true -> PLAYER_DESTROYED (Player.guild p) reason ∈ l).
Proof.
  intros Hp. unfold destroy_player. rewrite Hp.
  destruct (destroy_returns out reason {| Player.this := p; Player.env := shared w |})
    as (s' & H).
  rewrite H.
  apply destroy_facts in H as (T & O & _ & M & N & Nd & _ & (l & E & In & _) & _).
  exists (Player.this s'). simpl in *.
  split; [reflexivity|]. split; [exact T|]. split; [exact O|]. split; [exact M|].
  split; [exact N|]. split; [exact Nd|]. exists l. split; assumption.
Qed.


Lemma players_has_delete g g' m :
  players_has g m = false -> players_has g (players_delete g' m) = false.
Proof.
  intros H. destruct (players_has g (players_delete g' m)) eqn:E; [|reflexivity].
  unfold players_has, players_delete in *.
  apply existsb_exists in E as (kv & Hin & Hf).
  apply filter_In in Hin as [Hin _].
  rewrite <- H. symmetry. apply existsb_exists. eauto.
Qed.

Lemma players_has_delete_eq g m : players_has g (players_delete g m) = false.
Proof.
  destruct (players_has g (players_delete g m)) eqn:E; [|reflexivity].
  unfold players_has, players_delete in *.
  apply existsb_exists in E as (kv & Hin & Hf).
  apply filter_In in Hin as [_ Hn]. simpl in *.
  rewrite Hf in Hn. discriminate.
Qed.

Lemma destroy_player_establishes reason w a p :
  heap w !! a = Some p ->
  destroyed_with reason p a (destroy_player out reason w a).
Proof.
  intros Hp.
  destruct (destroy_player_facts reason w a p Hp)
    as (p' & Hh & T & O & M & _ & _ & l & E & In).
  exists p'. rewrite Hh, M, E.
  split; [apply lookup_insert_eq|]. split; [exact T|]. split; [exact O|].
  split; [apply players_has_delete_eq|].
  intros Hl. apply elem_of_app. right. auto.
Qed.

Lemma destroy_player_preserves reason p a w b :
  destroyed_with reason p a w ->
  destroyed_with reason p a (destroy_player out reason w b).
Proof.
  intros (p' & Hh & T & O & M & In).
  destruct (heap w !! b) as [pb|] eqn:Hb.
  2:{ rewrite destroy_player_unbound by exact Hb. exists p'. auto. }
  destruct (destroy_player_facts reason w b pb Hb)
    as (pb' & Hh' & T' & O' & M' & _ & _ & l & E & _).
  unfold destroyed_with. rewrite Hh', M', E.
  destruct (decide (b = a)) as [->|Hne].
  - exists pb'. rewrite lookup_insert_eq. split; [reflexivity|]. split; [exact T'|].
    split; [congruence|]. split; [apply players_has_delete, M|].
    intros Hl. apply elem_of_app. left. auto.
  - exists p'. rewrite lookup_insert_ne by exact Hne. split; [exact Hh|].
    split; [exact T|]. split; [exact O|]. split; [apply players_has_delete, M|].
    intros Hl. apply elem_of_app. left. auto.
Qed.

Lemma destroy_player_other reason w a b :
  a <> b -> heap (destroy_player out reason w b) !! a = heap w !! a.
Proof.
  intros Hne. destruct (heap w !! b) as [pb|] eqn:Hb.
  - destruct (destroy_player_facts reason w b pb Hb) as (pb' & Hh' & _).
    rewrite Hh'. apply lookup_insert_ne. congruence.
  - rewrite destroy_player_unbound by exact Hb. reflexivity.
Qed.

Lemma destroy_player_node reason w b :
  node (shared (destroy_player out reason w b)) = node (shared w)
  /\ manager_nodes (shared (destroy_player out reason w b)) = manager_nodes (shared w).
Proof.
  destruct (heap w !! b) as [pb|] eqn:Hb.
  - destruct (destroy_player_facts reason w b pb Hb) as (pb' & _ & _ & _ & _ & N & Nd & _).
    auto.
  - rewrite destroy_player_unbound by exact Hb. auto.
Qed.

(** *** All the players of the node *)

Lemma foldl_destroy_preserves reason p a l : forall w,
  destroyed_with reason p a w ->
  destroyed_with reason p a (foldl (destroy_player out reason) w l).
Proof.
  induction l as [|b l IH]; intros w H; [exact H|].
  simpl. apply IH, destroy_player_preserves, H.
Qed.

Lemma foldl_destroy_establishes reason p a l : forall w,
  a ∈ l -> heap w !! a = Some p ->
  destroyed_with reason p a (foldl (destroy_player out reason) w l).
Proof.
  induction l as [|b l IH]; intros w Hin Hp.
  - apply elem_of_nil in Hin. contradiction.
  - simpl. destruct (decide (a = b)) as [->|Hne].
    + apply foldl_destroy_preserves, destroy_player_establishes, Hp.
    + apply elem_of_cons in Hin as [?|Hin]; [contradiction|].
      apply IH; [exact Hin|]. rewrite destroy_player_other by exact Hne. exact Hp.
Qed.

Lemma foldl_destroy_node reason l : forall w,
  node (shared (foldl (destroy_player out reason) w l)) = node (shared w)
  /\ manager_nodes (shared (foldl (destroy_player out reason) w l))
     = manager_nodes (shared w).
Proof.
  induction l as [|b l IH]; intros w; [auto|].
  simpl. destruct (IH (destroy_player out reason w b)) as [-> ->].
  apply destroy_player_node.
Qed.


Lemma attached_elem w a p : attached_player w a p -> a ∈ attached w.
Proof.
  intros (Hin & Hp & Hn). unfold attached.
  apply list_elem_of_In, filter_In. split; [apply list_elem_of_In, Hin|].
  rewrite Hp. apply Nat.eqb_eq, Hn.
Qed.

(** [destroy] on a node: the node is DESTROYED and out of the manager's
    table, and every player attached to it has been destroyed. *)
Lemma Node_destroy_facts reason w :
  Node.state (node (shared (destroy out reason w))) = Node.DESTROYED
  /\ (Node.identifier (node (shared w)) ∉ manager_nodes (shared (destroy out reason w)))
  /\ forall a p,
       attached_player w a p ->
       destroyed_with "Attached node destroyed" p a (destroy out reason w).
Proof.
  unfold destroy.
  set (w1 := if Node.ws (node (shared w))
             then set_shared (set_node_closed (node_closed (shared w) ++ [(1000%Z, "destroy")])
                    (shared w)) w
             else w).
  set (w4 := update_node (Node.set_reconnectTimeout false)
               (update_node (Node.set_reconnectAttempts 0%Z)
                  (update_node (Node.set_ws false) w1))).
  assert (heap w4 = heap w
          /\ manager_players (shared w4) = manager_players (shared w)
          /\ Node.identifier (node (shared w4)) = Node.identifier (node (shared w)))
    as (Hh4 & Hm4 & Hi4).
  { subst w4 w1. destruct (Node.ws (node (shared w))); simpl; auto. }
  cbv zeta.
  set (w5 := foldl (destroy_player out "Attached node destroyed") w4 (attached w4)).
  destruct (foldl_destroy_node "Attached node destroyed" (attached w4) w4) as [N5 M5].
  fold w5 in N5, M5.
  split; [|split].
  - unfold emit, node_emit, update_node. simpl.
    destruct (Node.listeners (node (shared w5))); reflexivity.
  - unfold emit, node_emit, update_node. simpl.
    assert (forall i l, i ∉ List.filter (fun j => negb (Nat.eqb j i)) l) as Hnot.
    { intros i l Hin. apply list_elem_of_In, filter_In in Hin as [_ Hin].
      rewrite Nat.eqb_refl in Hin. discriminate. }
    destruct (Node.listeners (node (shared w5))); simpl; rewrite N5, Hi4; apply Hnot.
  - intros a p Hat.
    assert (attached_player w4 a p) as Hat4.
    { destruct Hat as (Hin & Hp & Hn). unfold attached_player.
      rewrite Hm4, Hh4, Hi4. auto. }
    pose proof (foldl_destroy_establishes "Attached node destroyed" p a (attached w4) w4
                  (attached_elem _ _ _ Hat4) (proj1 (proj2 Hat4))) as (p' & Hp' & T & O & M & In).
    fold w5 in Hp', M, In.
    exists p'. unfold emit, node_emit, update_node. simpl.
    destruct (Node.listeners (node (shared w5))); simpl.
    + split; [exact Hp'|]. split; [exact T|]. split; [exact O|]. split; [exact M|].
      intros Hl. apply elem_of_app. left. auto.
    + split; [exact Hp'|]. split; [exact T|]. split; [exact O|]. split; [exact M|].
      exact In.
Qed.


(** *** Rounds of failed attempts *)

Lemma reconnect_retrying w :
  retrying w (reconnect w) (Node.reconnectAttempts (node (shared w))).
Proof. unfold retrying, reconnect, update_node. simpl. repeat split. Qed.

(** One run of the interval below the cap, and the failure of its
    attempt, count one more attempt. *)
Lemma round_retrying w0 w k f :
  retrying w0 w k ->
  Node.c_maxRetrys (Node.options (node (shared w0))) = 0%Z
  \/ (k < Node.c_maxRetrys (Node.options (node (shared w0))))%Z ->
  retrying w0 (fail f (reconnect_tick out w)) (k + 1).
Proof.
  intros (Hh & Hp & Hn & Ho & Hi & Ht & Hs & Ha) Hcap.
  unfold reconnect_tick. rewrite Ht, Ha, Ho. cbn [negb].
  assert (negb (Node.c_maxRetrys (Node.options (node (shared w0))) =? 0)%Z
          && (k >=? Node.c_maxRetrys (Node.options (node (shared w0))))%Z = false) as ->.
  { destruct Hcap as [->|Hlt]; [reflexivity|].
    apply andb_false_iff. right. rewrite Z.geb_leb. apply Z.leb_gt. exact Hlt. }
  unfold connect, update_node, emit, node_emit. simpl.
  destruct (Node.listeners (node (shared w))) eqn:Hl; simpl;
    destruct f as [[e|]|]; unfold fail, attempt_error, attempt_timeout, count_failure,
      update_node, emit, node_emit; simpl; rewrite ?Hl; simpl;
    unfold retrying; simpl; rewrite ?Ha; auto 10.
Qed.

Lemma rounds_retrying w0 fs : forall w k,
  retrying w0 w k ->
  Node.c_maxRetrys (Node.options (node (shared w0))) = 0%Z
  \/ (k + Z.of_nat (List.length fs)
      <= Node.c_maxRetrys (Node.options (node (shared w0))))%Z ->
  retrying w0 (failed_rounds out fs w) (k + Z.of_nat (List.length fs)).
Proof.
  unfold failed_rounds.
  induction fs as [|f fs IH]; intros w k Hr Hcap.
  - simpl. rewrite Z.add_0_r. exact Hr.
  - cbn [foldl]. replace (k + Z.of_nat (List.length (f :: fs)))%Z
      with ((k + 1) + Z.of_nat (List.length fs))%Z by (simpl List.length; lia).
    apply IH.
    + apply round_retrying; [exact Hr|].
      destruct Hcap as [?|Hle]; [left; assumption|right]. simpl List.length in Hle. lia.
    + destruct Hcap as [?|Hle]; [left; assumption|right]. simpl List.length in Hle. lia.
Qed.

End NodeFacts.


(** * Further properties of the code *)

(** ** The operations of a player *)

Section OperationFacts.

Import Player PlayerSpec.

Variable out : Outside.

Lemma bind_Throw {A B} (m : M A) (k : A -> M B) s e s' :
  (m ≫= k) s = Throw e s' ->
  m s = Throw e s' \/ exists a s1, m s = Ok a s1 /\ k a s1 = Throw e s'.
Proof.
  unfold mbind, M_bind. destruct (m s) as [a s1|e1 s1|s1]; try discriminate.
  - intros H. right. exists a, s1. split; [reflexivity|exact H].
  - intros [= -> ->]. left. reflexivity.
Qed.

Lemma bind_throw_eq {A B} (m : M A) (k : A -> M B) s e s1 :
  m s = Throw e s1 -> (m ≫= k) s = Throw e s1.
Proof. unfold mbind, M_bind. intros ->. reflexivity. Qed.

(** A write to a node that is connected and whose socket takes it. *)
Lemma send_written msg s :
  Node.state (node (env s)) = Node.CONNECTED ->
  Node.ws (node (env s)) = true ->
  ws_send_error out (clock (env s)) = None ->
  send out msg s
  = Ok tt (set_env (set_clock (S (clock (env s)))
                      (set_node_sent (node_sent (env s) ++ [msg]) (env s))) s).
Proof. intros Hc Hw He. unfold send, Node_send. rewrite Hc, Hw, He. reflexivity. Qed.

(** A write to a node that is not connected. *)
Lemma send_not_connected msg s :
  Node.state (node (env s)) <> Node.CONNECTED ->
  send out msg s
  = Throw (Error "Cannot send payloads before a connection is established") s.
Proof.
  intros Hc. unfold send, Node_send.
  destruct (Node.state (node (env s))); try contradiction; destruct s; reflexivity.
Qed.

(** A write that rejects leaves the player and what was written. *)
Lemma send_Throw msg s e s' :
  send out msg s = Throw e s' ->
  this s' = this s /\ node_sent (env s') = node_sent (env s).
Proof.
  unfold send, Node_send, node_emit.
  destruct (negb (Node.NodeState_eqb (Node.state (node (env s))) Node.CONNECTED)).
  { intros [= _ <-]. auto. }
  destruct (Node.ws (node (env s))); [|discriminate].
  destruct (ws_send_error out (clock (env s))); [|discriminate].
  destruct (Node.listeners (node (env s))); intros [= _ <-]; auto.
Qed.

End OperationFacts.

(** The state check that opens [play], [skip], [shuffle], [seek], [pause],
    [resume], [stop], [setVolume], [setFilters] (and [clear(true)], through
    [stop]): outside CONNECTED, PAUSED and PLAYING each of them throws its
    own error before anything else, so the player, the queue and the
    environment are as before and nothing is written to the node. *)
Theorem operations_reject_outside_playable (out : Outside) (fuel : nat) (s : Player.St) :
  Player.playable (Player.state (Player.this s)) = false ->
  (forall tr opts,
      Player.play out tr opts s
      = Player.Throw (Error "Cannot play when the player isn't in a connected, paused, or playing state") s)
  /\ (forall index,
      Player.skip out fuel index s
      = Player.Throw (Error "Cannot skip when the player isn't in a connected, paused, or playing state") s)
  /\ Player.shuffle out s
     = Player.Throw (Error "Cannot shuffle when the player isn't in a connected, paused, or playing state") s
  /\ (forall position,
      Player.seek out position s
      = Player.Throw (Error "Cannot seek when the player isn't in a connected, paused, or playing state") s)
  /\ (forall reason,
      Player.pause out reason s
      = Player.Throw (Error "Cannot pause when the player isn't in a connected, paused, or playing state") s)
  /\ (forall reason,
      Player.resume out reason s
      = Player.Throw (Error "Cannot resume when the player isn't in a connected, paused, or playing state") s)
  /\ Player.stop out s
     = Player.Throw (Error "Cannot stop when the player isn't in a connected, paused, or playing state") s
  /\ (forall v,
      Player.setVolume out v s
      = Player.Throw (Error "Cannot set volume when the player isn't in a connected, paused, or playing state") s)
  /\ (forall f,
      Player.setFilters out f s
      = Player.Throw (Error "Cannot set filters when the player isn't in a connected, paused, or playing state") s)
  /\ Player.clear out true s
     = Player.Throw (Error "Cannot stop when the player isn't in a connected, paused, or playing state") s.
Proof.
  intros H.
  unfold Player.play, Player.skip, Player.shuffle, Player.seek, Player.pause,
    Player.resume, Player.clear, Player.stop, Player.setVolume, Player.setFilters,
    mbind, Player.M_bind, Player.get.
  rewrite H. cbn [negb]. repeat split.
Qed.

(** A destroyed player refuses to shuffle. *)
Lemma operations_reject_outside_playable_witness :
  Player.shuffle PlayerExamples.quiet PlayerExamples.destroyed_once
  = Player.Throw (Error "Cannot shuffle when the player isn't in a connected, paused, or playing state")
      PlayerExamples.destroyed_once.
Proof.
  exact (proj1 (proj2 (proj2 (operations_reject_outside_playable PlayerExamples.quiet 0
                                PlayerExamples.destroyed_once eq_refl)))).
Defined.

(** [setVolume] checks the bounds 0 and 1000, then records the volume on
    the player BEFORE it writes to the node: a volume out of the bounds
    throws and changes nothing; a volume within them is the player's
    volume afterwards however the write ends, also when the node is not
    connected and the call throws. *)
Lemma setVolume_before_write (out : Outside) (v : Z) (s : Player.St) :
  Player.playable (Player.state (Player.this s)) = true ->
  ((v < 0 \/ 1000 < v)%Z ->
   Player.setVolume out v s
   = Player.Throw (Error "Volume must be between 0 and 1000") s)
  /\ ((0 <= v <= 1000)%Z ->
      Player.this (Player.final (Player.setVolume out v s))
      = Player.set_volume v (Player.this s)
      /\ (forall s',
             Player.setVolume out v s = Player.Ok tt s' ->
             node_sent (Player.env s')
             = (node_sent (Player.env s) ++ [op_volume (Player.guild (Player.this s)) v])%list)
      /\ (Node.state (node (Player.env s)) <> Node.CONNECTED ->
          Player.setVolume out v s
          = Player.Throw (Error "Cannot send payloads before a connection is established")
              (Player.set_this (Player.set_volume v (Player.this s)) s))).
Proof.
  intros Hplay.
  unfold Player.setVolume, mbind, Player.M_bind, Player.get. rewrite Hplay. cbn [negb].
  split.
  - intros Hv.
    assert ((v <? 0)%Z || (v >? 1000)%Z = true) as ->; [|reflexivity].
    apply orb_true_iff. rewrite Z.ltb_lt, Z.gtb_ltb, Z.ltb_lt. lia.
  - intros Hv.
    assert ((v <? 0)%Z || (v >? 1000)%Z = false) as ->.
    { apply orb_false_iff. rewrite Z.ltb_ge, Z.gtb_ltb, Z.ltb_ge. lia. }
    unfold Player.update.
    set (s1 := Player.set_this (Player.set_volume v (Player.this s)) s).
    split; [|split].
    + pose proof (keeps_send out (fun s => Player.this s)
                    (op_volume (Player.guild (Player.this s)) v)
                    (fun _ _ => eq_refl) s1) as K.
      destruct (Player.send out _ s1); exact K.
    + intros s' H.
      destruct (Player.send out _ s1) as [[] s2|e s2|s2] eqn:E; try discriminate.
      injection H as <-. apply send_Ok in E as (_ & E & _). exact E.
    + intros Hc. rewrite send_not_connected by exact Hc. reflexivity.
Qed.

(** [setFilters] records the filters AFTER the write: when it returns the
    filters are the player's and were written to the node; when it throws
    (no filters given, or the write rejects) the player is as before and
    nothing was written. *)
Lemma setFilters_after_write (out : Outside) (f : option Filters)
    (s : Player.St) :
  Player.playable (Player.state (Player.this s)) = true ->
  (forall s',
      Player.setFilters out f s = Player.Ok tt s' ->
      exists filters,
        f = Some filters
        /\ Player.this s' = Player.set_filters filters (Player.this s)
        /\ node_sent (Player.env s')
           = (node_sent (Player.env s)
              ++ [op_filters (Player.guild (Player.this s)) filters])%list)
  /\ (forall e s',
      Player.setFilters out f s = Player.Throw e s' ->
      Player.this s' = Player.this s
      /\ node_sent (Player.env s') = node_sent (Player.env s))
  /\ (f = None ->
      Player.setFilters out f s
      = Player.Throw (TypeError "Expected filters to be defined") s).
Proof.
  intros Hplay.
  unfold Player.setFilters, mbind, Player.M_bind, Player.get. rewrite Hplay. cbn [negb].
  destruct f as [filters|].
  - split; [|split]; [| |discriminate].
    + intros s' H.
      destruct (Player.send out _ s) as [[] s2|e s2|s2] eqn:E; try discriminate.
      injection H as <-. apply send_Ok in E as (Ht & E & _).
      exists filters. simpl. rewrite Ht. auto.
    + intros e s' H.
      destruct (Player.send out _ s) as [[] s2|e2 s2|s2] eqn:E; try discriminate.
      injection H as _ <-. eapply send_Throw, E.
  - split; [|split]; [discriminate| |reflexivity].
    intros e s' [= _ <-]. auto.
Qed.

(** [setVolume] and [setFilters] record what they are given on opposite
    sides of the write to the node. A volume within the bounds is the
    player's volume as soon as it is checked, however the write ends, also
    when the node is not connected and the call throws. The filters are
    the player's only when the call returns; when it throws the player is
    as before and nothing was written. *)
Theorem setVolume_records_before_write_setFilters_after (out : Outside) (v : Z)
    (f : option Filters) (s : Player.St) :
  Player.playable (Player.state (Player.this s)) = true ->
  (((v < 0 \/ 1000 < v)%Z ->
    Player.setVolume out v s
    = Player.Throw (Error "Volume must be between 0 and 1000") s)
   /\ ((0 <= v <= 1000)%Z ->
       Player.this (Player.final (Player.setVolume out v s))
       = Player.set_volume v (Player.this s)
       /\ (forall s',
              Player.setVolume out v s = Player.Ok tt s' ->
              node_sent (Player.env s')
              = (node_sent (Player.env s)
                 ++ [op_volume (Player.guild (Player.this s)) v])%list)
       /\ (Node.state (node (Player.env s)) <> Node.CONNECTED ->
           Player.setVolume out v s
           = Player.Throw (Error "Cannot send payloads before a connection is established")
               (Player.set_this (Player.set_volume v (Player.this s)) s))))
  /\ ((forall s',
         Player.setFilters out f s = Player.Ok tt s' ->
         exists filters,
           f = Some filters
           /\ Player.this s' = Player.set_filters filters (Player.this s)
           /\ node_sent (Player.env s')
              = (node_sent (Player.env s)
                 ++ [op_filters (Player.guild (Player.this s)) filters])%list)
      /\ (forall e s',
         Player.setFilters out f s = Player.Throw e s' ->
         Player.this s' = Player.this s
         /\ node_sent (Player.env s') = node_sent (Player.env s))
      /\ (f = None ->
          Player.setFilters out f s
          = Player.Throw (TypeError "Expected filters to be defined") s)).
Proof.
  intros Hplay. split.
  - apply setVolume_before_write, Hplay.
  - apply setFilters_after_write, Hplay.
Qed.

(** On a node that is not connected [setVolume] throws and the volume of
    the player has changed all the same. *)
Lemma setVolume_records_before_write_setFilters_after_witness :
  Player.volume
    (Player.this
       (Player.final
          (Player.setVolume PlayerExamples.quiet 40
             (Player.set_env (set_node (ReconnectExamples.closed_node 3) PlayerExamples.env0)
                (PlayerExamples.start Player.Off Player.PLAYING [] None)))))
  = 40%Z.
Proof.
  rewrite (proj1 (proj2 (proj1 (setVolume_records_before_write_setFilters_after
                                  PlayerExamples.quiet 40 None
                                  (Player.set_env
                                     (set_node (ReconnectExamples.closed_node 3)
                                        PlayerExamples.env0)
                                     (PlayerExamples.start Player.Off Player.PLAYING [] None))
                                  eq_refl)) ltac:(lia))).
  reflexivity.
Defined.

(** [seek] never changes the player, in any state and however it ends: it
    does not touch [position]. In CONNECTED, PAUSED and PLAYING a negative
    position throws, and every position from 0 on, 0 included, is written
    to the node. *)
Theorem seek_leaves_player (out : Outside) (position : option Z) (s : Player.St) :
  Player.this (Player.final (Player.seek out position s)) = Player.this s
  /\ (Player.playable (Player.state (Player.this s)) = true ->
      (position = None ->
       Player.seek out position s
       = Player.Throw (TypeError "Expected position to be defined") s)
      /\ (forall ms,
             position = Some ms -> (ms < 0)%Z ->
             Player.seek out position s
             = Player.Throw (Error "Position must be greater than 0") s)
      /\ (forall ms,
             position = Some ms -> (0 <= ms)%Z ->
             Player.seek out position s
             = Player.send out (op_seek (Player.guild (Player.this s)) ms) s)).
Proof.
  split.
  - apply (@id (PlayerSpec.keeps (fun s => Player.this s) (Player.seek out position))).
    unfold Player.seek. repeat keeps_step.
  - intros Hplay.
    unfold Player.seek, mbind, Player.M_bind, Player.get. rewrite Hplay. cbn [negb].
    split; [|split].
    + intros ->. reflexivity.
    + intros ms -> Hms. apply Z.ltb_lt in Hms. rewrite Hms. reflexivity.
    + intros ms -> Hms. apply Z.ltb_ge in Hms. rewrite Hms. reflexivity.
Qed.

Section PlayFacts.

Import Player PlayerSpec.

Variable out : Outside.

(** What [_play] writes and records when it returns. *)
Lemma _play_frame tr opts s s' :
  _play out tr opts s = Ok tt s' ->
  exists o,
    node_sent (env s') = (node_sent (env s) ++ [op_play (guild (this s)) (track tr) o])%list
    /\ opt_volume o = (if (volume (this s') =? 100)%Z then None else Some (volume (this s')))
    /\ volume (this s')
       = match opts ≫= opt_volume with Some v => v | None => volume (this s) end
    /\ (forall v, opts ≫= opt_volume = Some v -> (0 <= v <= 1000)%Z)
    /\ opt_pause o
       = (if truthy_obool (isStage (this s)) && negb (truthy_obool (isSpeaker (this s)))
          then Some true else opts ≫= opt_pause)
    /\ sentPausedPlay (this s')
       = (if truthy_obool (opt_pause o) then Some true else sentPausedPlay (this s))
    /\ startTime o = opts ≫= startTime
    /\ endTime o = opts ≫= endTime
    /\ queue (this s') = queue (this s)
    /\ queuePosition (this s') = queuePosition (this s)
    /\ state (this s') = state (this s).
Proof.
  unfold _play. intros H.
  apply bind_Ok in H as (p & s0 & Hget & H). apply get_Ok in Hget as [-> ->].
  destruct (negb (playable (state (this s)))); [discriminate|].
  apply bind_Ok in H as (opts1 & s1 & H1 & H).
  cbv zeta in H.
  apply bind_Ok in H as ([] & s2 & H2 & H).
  apply send_Ok in H as (Ht & Hs & _).
  pose proof H1 as E1. apply (keeps_Ok env) in E1; [|repeat keeps_step].
  pose proof H2 as E2. apply (keeps_Ok env) in E2; [|repeat keeps_step].
  eexists. split; [rewrite Hs, E2, E1; reflexivity|]. rewrite Ht.
  destruct opts as [[st en [v|] pa]|]; simpl in H1 |- *.
  - destruct ((v <? 0)%Z || (v >? 1000)%Z) eqn:Eb; [discriminate|].
    apply orb_false_iff in Eb as [Eb1 Eb2].
    apply Z.ltb_ge in Eb1. rewrite Z.gtb_ltb in Eb2. apply Z.ltb_ge in Eb2.
    injection H1 as <- <-.
    destruct (v =? 100)%Z eqn:Ev; simpl in H2 |- *;
      destruct (truthy_obool (isStage (this s)) && negb (truthy_obool (isSpeaker (this s))));
      simpl in H2 |- *;
      try (destruct (truthy_obool pa) eqn:Ep);
      injection H2 as <-; simpl; rewrite ?Ev, ?Ep;
      repeat split; try reflexivity; intros; simplify_eq; lia.
  - destruct (negb (volume (this s) =? 100)%Z) eqn:Ev;
      [apply negb_true_iff in Ev|apply negb_false_iff in Ev];
      injection H1 as <- <-; simpl in H2 |- *;
      destruct (truthy_obool (isStage (this s)) && negb (truthy_obool (isSpeaker (this s))));
      simpl in H2 |- *;
      try (destruct (truthy_obool pa) eqn:Ep);
      injection H2 as <-; simpl; rewrite ?Ev, ?Ep;
      repeat split; try reflexivity; intros; simplify_eq.
  - destruct (negb (volume (this s) =? 100)%Z) eqn:Ev;
      [apply negb_true_iff in Ev|apply negb_false_iff in Ev];
      injection H1 as <- <-; simpl in H2 |- *;
      destruct (truthy_obool (isStage (this s)) && negb (truthy_obool (isSpeaker (this s))));
      simpl in H2 |- *;
      injection H2 as <-; simpl; rewrite ?Ev;
      repeat split; try reflexivity; intros; simplify_eq.
Qed.

End PlayFacts.

(** The options of a play payload. When [_play] returns, the payload it
    wrote carries a volume exactly when the volume of the player is then
    other than 100, and it is that volume; a volume given in the options
    lies in 0..1000 and has become the player's volume. On a stage where
    the bot is not a speaker the payload is paused whatever the options
    say, and a paused payload sets [sentPausedPlay]. The start and end
    times are the caller's. *)
Theorem play_payload_options (out : Outside) (tr : Track) (opts : option PlayOptions)
    (s s' : Player.St) :
  Player._play out tr opts s = Player.Ok tt s' ->
  exists o,
    node_sent (Player.env s')
    = (node_sent (Player.env s)
       ++ [op_play (Player.guild (Player.this s)) (track tr) o])%list
    /\ opt_volume o
       = (if (Player.volume (Player.this s') =? 100)%Z then None
          else Some (Player.volume (Player.this s')))
    /\ Player.volume (Player.this s')
       = match opts ≫= opt_volume with
         | Some v => v
         | None => Player.volume (Player.this s)
         end
    /\ (forall v, opts ≫= opt_volume = Some v -> (0 <= v <= 1000)%Z)
    /\ opt_pause o
       = (if Player.truthy_obool (Player.isStage (Player.this s))
             && negb (Player.truthy_obool (Player.isSpeaker (Player.this s)))
          then Some true else opts ≫= opt_pause)
    /\ Player.sentPausedPlay (Player.this s')
       = (if Player.truthy_obool (opt_pause o) then Some true
          else Player.sentPausedPlay (Player.this s))
    /\ startTime o = opts ≫= startTime
    /\ endTime o = opts ≫= endTime.
Proof.
  intros H. destruct (_play_frame out tr opts s s' H)
    as (o & H1 & H2 & H3 & H4 & H5 & H6 & H7 & H8 & _).
  exists o. auto 10.
Qed.

(** A play at volume 100 on a player whose volume was 40 writes a payload
    without volume and leaves the player at 100. *)
Lemma play_payload_options_witness :
  exists o,
    node_sent
      (Player.env
         (Player.final
            (Player._play PlayerExamples.quiet (Examples.track_of "AAAA" "Artist" 1000)
               (Some (Player.with_volume (Some 100%Z) no_options))
               (Player.set_this
                  (Player.set_volume 40 (Player.this PlayerExamples.joined))
                  PlayerExamples.joined))))
    = [op_play "G" "AAAA" o]
    /\ opt_volume o = None.
Proof.
  assert (Player._play PlayerExamples.quiet (Examples.track_of "AAAA" "Artist" 1000)
            (Some (Player.with_volume (Some 100%Z) no_options))
            (Player.set_this (Player.set_volume 40 (Player.this PlayerExamples.joined))
               PlayerExamples.joined)
          = Player.Ok tt
              (Player.final
                 (Player._play PlayerExamples.quiet (Examples.track_of "AAAA" "Artist" 1000)
                    (Some (Player.with_volume (Some 100%Z) no_options))
                    (Player.set_this
                       (Player.set_volume 40 (Player.this PlayerExamples.joined))
                       PlayerExamples.joined)))) as H
    by (vm_compute; reflexivity).
  destruct (play_payload_options _ _ _ _ _ H) as (o & H1 & H2 & H3 & _).
  exists o. split; [exact H1|]. rewrite H2, H3. reflexivity.
Defined.


Section QueueFacts.

Import Player PlayerSpec.

Variable out : Outside.

Lemma set_queue_same p : set_queue (queue p) p = p.
Proof. destruct p; reflexivity. Qed.

Lemma set_this_same s : set_this (this s) s = s.
Proof. destruct s; reflexivity. Qed.

Lemma play_pushes tr opts s :
  playable (state (this s)) = true ->
  play out tr opts s
  = let s1 := set_this (set_queue (queue (this s) ++ pushed tr) (this s)) s in
    if PlayerState_eqb (state (this s)) CONNECTED
    then resolve_and_play out (List.length (queue (this s))) opts
           (TypeError "Invalid track") s1
    else Ok tt s1.
Proof.
  intros Hplay. unfold play, mbind, M_bind, get, update. rewrite Hplay. cbn [negb].
  cbn [this set_this state set_queue queue]. cbv zeta.
  destruct (PlayerState_eqb (state (this s)) CONNECTED); [|reflexivity].
  f_equal. destruct tr as [e|es]; unfold pushed; rewrite length_app; simpl; lia.
Qed.

Lemma resolve_and_play_absent i opts err s :
  queue (this s) !! i = None ->
  resolve_and_play out i opts err s = Throw err s.
Proof.
  intros H. unfold resolve_and_play, resolve_at, mbind, M_bind, get, skip_, mret, M_ret.
  rewrite H. cbn beta iota. rewrite H. reflexivity.
Qed.

Lemma pause_inv (b : bool) st ev s r :
  (send out (op_pause (guild (this s)) b) ;; update (set_state st) ;; emit_unforwarded ev) s
  = r ->
  match r with
  | Ok _ s' =>
      this s' = set_state st (this s)
      /\ node_sent (env s') = (node_sent (env s) ++ [op_pause (guild (this s)) b])%list
      /\ events (env s') = events (env s)
  | Throw _ s' => this s' = this s /\ node_sent (env s') = node_sent (env s)
  | Stuck s' => s' = s
  end.
Proof.
  intros <-. unfold mbind at 1, M_bind.
  destruct (send out _ s) as [[] s1|e s1|s1] eqn:E.
  - apply send_Ok in E as (Ht & Hs & He & _).
    unfold mbind, M_bind, update, emit_unforwarded, skip_. simpl. rewrite Ht, He. auto.
  - eapply send_Throw, E.
  - unfold send, Node_send in E.
    destruct (negb _); [discriminate|].
    destruct (Node.ws (node (env s))).
    + destruct (ws_send_error out (clock (env s))); discriminate.
    + injection E as <-. destruct s; reflexivity.
Qed.

End QueueFacts.

(** [play] in the states PAUSED and PLAYING only pushes on the queue: the
    call returns with the new entries at the end of the queue, and the
    queue index, the state, the volume and the whole environment as
    before; nothing is resolved and nothing is written to the node. *)
Lemma play_busy_pushes (out : Outside) (tr : Entry + list Entry)
    (opts : option PlayOptions) (s : Player.St) :
  Player.state (Player.this s) = Player.PAUSED
  \/ Player.state (Player.this s) = Player.PLAYING ->
  Player.play out tr opts s
  = Player.Ok tt
      (Player.set_this
         (Player.set_queue (Player.queue (Player.this s) ++ PlayerSpec.pushed tr)
            (Player.this s)) s).
Proof.
  intros H. rewrite play_pushes by (destruct H as [-> | ->]; reflexivity).
  cbv zeta. destruct H as [-> | ->]; reflexivity.
Qed.

(** [play] in the state CONNECTED starts the first of the entries it
    pushes, not the head of the queue: when it returns, the queue index is
    the length the queue had, the entry there is a track (the pushed one,
    or the track it resolved to), a play payload for it was written, and
    the entries that were in the queue are untouched. The play of an empty
    array throws "Invalid track". *)
Lemma play_idle_starts (out : Outside) (tr : Entry + list Entry)
    (opts : option PlayOptions) (s : Player.St) :
  Player.state (Player.this s) = Player.CONNECTED ->
  (PlayerSpec.pushed tr = [] ->
   Player.play out tr opts s = Player.Throw (TypeError "Invalid track") s)
  /\ (forall s',
      Player.play out tr opts s = Player.Ok tt s' ->
      exists t o,
        Player.queuePosition (Player.this s')
        = Some (List.length (Player.queue (Player.this s)))
        /\ Player.queue (Player.this s')
           = (Player.queue (Player.this s) ++ ETrack t :: tail (PlayerSpec.pushed tr))%list
        /\ track t <> ""
        /\ (head (PlayerSpec.pushed tr) = Some (ETrack t)
            \/ exists partial n,
                 head (PlayerSpec.pushed tr) = Some (EPartial partial)
                 /\ resolveTrack_at out n partial = Returns t)
        /\ node_sent (Player.env s')
           = (node_sent (Player.env s)
              ++ [op_play (Player.guild (Player.this s)) (track t) o])%list).
Proof.
  intros Hst. rewrite play_pushes by (rewrite Hst; reflexivity).
  rewrite Hst. cbv zeta. cbn [Player.PlayerState_eqb]. split.
  - intros ->. rewrite app_nil_r, set_queue_same, set_this_same.
    apply resolve_and_play_absent. apply lookup_ge_None. lia.
  - intros s' H.
    apply resolve_and_play_Ok in H as (t & o & Hq & Hne & Hqp & _ & _ & Hres & Hsent).
    unfold Player.guild in *.
    cbn [Player.this Player.set_this Player.queue Player.set_queue
         Player.options Player.env] in *.
    exists t, o. split; [exact Hqp|].
    assert (forall e rest,
               PlayerSpec.pushed tr = e :: rest ->
               (Player.queue (Player.this s) ++ PlayerSpec.pushed tr)%list
               !! List.length (Player.queue (Player.this s)) = Some e) as Hat.
    { intros e rest ->. rewrite lookup_app_r by lia. rewrite Nat.sub_diag. reflexivity. }
    destruct (PlayerSpec.pushed tr) as [|e rest] eqn:Hp.
    { destruct Hres as [Hsame|(partial & n & Hpart & _)].
      - rewrite Hsame, app_nil_r in Hq. apply lookup_lt_Some in Hq. lia.
      - rewrite app_nil_r in Hpart. apply lookup_lt_Some in Hpart. lia. }
    specialize (Hat e rest eq_refl). simpl.
    destruct Hres as [Hsame|(partial & n & Hpart & Hr & Hins)].
    + rewrite Hsame in Hq |- *. rewrite Hat in Hq. injection Hq as ->.
      repeat split; auto.
    + rewrite Hat in Hpart. injection Hpart as ->.
      rewrite Hins. split.
      * rewrite insert_app_r_alt by lia. rewrite Nat.sub_diag. reflexivity.
      * repeat split; eauto.
Qed.

(** What [play] does by the state of the player. In PAUSED and PLAYING it
    only pushes on the queue: the index, the state and the environment
    stay, nothing is resolved and nothing is written to the node. In
    CONNECTED it starts the first of the entries it pushes, not the head
    of the queue: the queue index becomes the length the queue had, the
    entry there is a track (the pushed one, or the track it resolved to)
    and a play payload for it was written; the play of an empty array
    throws "Invalid track". *)
Theorem play_queues_or_starts_first_pushed (out : Outside) (tr : Entry + list Entry)
    (opts : option PlayOptions) (s : Player.St) :
  (Player.state (Player.this s) = Player.PAUSED
   \/ Player.state (Player.this s) = Player.PLAYING ->
   Player.play out tr opts s
   = Player.Ok tt
       (Player.set_this
          (Player.set_queue (Player.queue (Player.this s) ++ PlayerSpec.pushed tr)
             (Player.this s)) s))
  /\ (Player.state (Player.this s) = Player.CONNECTED ->
      (PlayerSpec.pushed tr = [] ->
       Player.play out tr opts s = Player.Throw (TypeError "Invalid track") s)
      /\ (forall s',
          Player.play out tr opts s = Player.Ok tt s' ->
          exists t o,
            Player.queuePosition (Player.this s')
            = Some (List.length (Player.queue (Player.this s)))
            /\ Player.queue (Player.this s')
               = (Player.queue (Player.this s)
                  ++ ETrack t :: tail (PlayerSpec.pushed tr))%list
            /\ track t <> ""
            /\ (head (PlayerSpec.pushed tr) = Some (ETrack t)
                \/ exists partial n,
                     head (PlayerSpec.pushed tr) = Some (EPartial partial)
                     /\ resolveTrack_at out n partial = Returns t)
            /\ node_sent (Player.env s')
               = (node_sent (Player.env s)
                  ++ [op_play (Player.guild (Player.this s)) (track t) o])%list)).
Proof.
  split.
  - apply play_busy_pushes.
  - apply play_idle_starts.
Qed.

(** With a track in the queue already, the play of two tracks on an idle
    player starts the first of the two. *)
Lemma play_queues_or_starts_first_pushed_witness :
  Player.queuePosition
    (Player.this
       (Player.final
          (Player.play PlayerExamples.quiet
             (inr [PlayerExamples.song "BBBB"; PlayerExamples.song "CCCC"]) None
             (PlayerExamples.start Player.Off Player.CONNECTED [PlayerExamples.song "AAAA"]
                None))))
  = Some 1.
Proof.
  assert (Player.play PlayerExamples.quiet
            (inr [PlayerExamples.song "BBBB"; PlayerExamples.song "CCCC"]) None
            (PlayerExamples.start Player.Off Player.CONNECTED [PlayerExamples.song "AAAA"]
               None)
          = Player.Ok tt
              (Player.final
                 (Player.play PlayerExamples.quiet
                    (inr [PlayerExamples.song "BBBB"; PlayerExamples.song "CCCC"]) None
                    (PlayerExamples.start Player.Off Player.CONNECTED
                       [PlayerExamples.song "AAAA"] None)))) as H
    by (vm_compute; reflexivity).
  destruct (proj2 (proj2 (play_queues_or_starts_first_pushed PlayerExamples.quiet
                            (inr [PlayerExamples.song "BBBB"; PlayerExamples.song "CCCC"])
                            None
                            (PlayerExamples.start Player.Off Player.CONNECTED
                               [PlayerExamples.song "AAAA"] None)) eq_refl)
              _ H) as (t & o & Hqp & _).
  exact Hqp.
Defined.


Section StopFacts.

Import Player PlayerSpec.

Variable out : Outside.

(** [_stop] on a node that takes the write. *)
Lemma _stop_written s :
  Node.state (node (env s)) = Node.CONNECTED ->
  Node.ws (node (env s)) = true ->
  ws_send_error out (clock (env s)) = None ->
  _stop out s
  = Ok tt
      (set_this (set_state CONNECTED (set_position None (this s)))
         (set_env (set_clock (S (clock (env s)))
                     (set_node_sent (node_sent (env s) ++ [op_stop (guild (this s))])
                        (env s))) s)).
Proof.
  intros Hc Hw He. unfold _stop, mbind, M_bind, get.
  rewrite send_written by assumption. reflexivity.
Qed.

Lemma _stop_Ok_this s a s' :
  _stop out s = Ok a s' ->
  this s' = set_state CONNECTED (set_position None (this s))
  /\ node_sent (env s') = (node_sent (env s) ++ [op_stop (guild (this s))])%list
  /\ events (env s') = events (env s).
Proof.
  unfold _stop. intros H.
  apply bind_Ok in H as (p & s0 & Hget & H). apply get_Ok in Hget as [-> ->].
  apply bind_Ok in H as (u & s1 & Hsend & H).
  apply send_Ok in Hsend as (Hthis & Hsent & Hev & _).
  injection H as _ <-. simpl. rewrite Hthis. auto.
Qed.

Lemma _stop_Throw s e s' :
  _stop out s = Throw e s' ->
  this s' = this s /\ node_sent (env s') = node_sent (env s).
Proof.
  unfold _stop, mbind, M_bind, get. intros H.
  destruct (send out _ s) as [[] s1|e1 s1|s1] eqn:E; try discriminate.
  injection H as _ <-. eapply send_Throw, E.
Qed.

Lemma stop_Ok s a s' :
  stop out s = Ok a s' ->
  this s' = set_queuePosition None (set_state CONNECTED (set_position None (this s)))
  /\ node_sent (env s') = (node_sent (env s) ++ [op_stop (guild (this s))])%list
  /\ events (env s') = events (env s).
Proof.
  unfold stop. intros H.
  apply bind_Ok in H as (p & s0 & Hget & H). apply get_Ok in Hget as [-> ->].
  destruct (negb (playable (state (this s)))); [discriminate|].
  apply bind_Ok in H as (u & s1 & Hstop & H).
  apply _stop_Ok_this in Hstop as (Ht & Hs & He).
  injection H as _ <-. simpl. rewrite Ht. auto.
Qed.

(** [pause] and [resume] differ by the payload, the state and the
    event they emit on the player. *)
Lemma pause_like (b : bool) st (ev : Snowflake -> Event) (m : M unit) s err :
  m = (p ← get;
       if negb (playable (state p)) then throw err
       else send out (op_pause (guild p) b) ;;
            update (set_state st) ;;
            emit_unforwarded (ev (guild p))) ->
  (forall s', m s = Ok tt s' ->
     this s' = set_state st (this s)
     /\ node_sent (env s') = (node_sent (env s) ++ [op_pause (guild (this s)) b])%list
     /\ events (env s') = events (env s))
  /\ (forall e s', m s = Throw e s' ->
        this s' = this s /\ node_sent (env s') = node_sent (env s)).
Proof.
  intros ->.
  pose proof (pause_inv out b st (ev (guild (this s))) s _ eq_refl) as K.
  unfold mbind, M_bind, get, throw in *.
  destruct (negb (playable (state (this s)))).
  { split; [discriminate|]. intros e s' [= _ <-]. auto. }
  split.
  - intros s' H. rewrite H in K. exact K.
  - intros e s' H. rewrite H in K. exact K.
Qed.

End StopFacts.

(** [skip(index)] stops the player before it looks at the index: with an
    index below 0 or past the end of the queue the call throws "Invalid
    index", and by then the stop payload has been written and the player is
    CONNECTED with no position; the queue and the queue index are as
    before. *)
Theorem skip_invalid_index_stops_first (out : Outside) (fuel : nat) (i : Z)
    (s : Player.St) :
  Player.playable (Player.state (Player.this s)) = true ->
  (i < 0 \/ Z.of_nat (List.length (Player.queue (Player.this s))) <= i)%Z ->
  Node.state (node (Player.env s)) = Node.CONNECTED ->
  Node.ws (node (Player.env s)) = true ->
  ws_send_error out (clock (Player.env s)) = None ->
  exists s1,
    Player.skip out fuel (Some i) s = Player.Throw (Error "Invalid index") s1
    /\ Player.this s1
       = Player.set_state Player.CONNECTED (Player.set_position None (Player.this s))
    /\ node_sent (Player.env s1)
       = (node_sent (Player.env s) ++ [op_stop (Player.guild (Player.this s))])%list.
Proof.
  intros Hplay Hi Hc Hw He.
  unfold Player.skip. erewrite bind_eq by reflexivity. rewrite Hplay. cbn [negb].
  erewrite bind_eq by (apply _stop_written; assumption).
  assert ((i <? 0)%Z || (i >=? Z.of_nat (List.length (Player.queue (Player.this s))))%Z
          = true) as ->.
  { apply orb_true_iff. rewrite Z.ltb_lt, Z.geb_leb, Z.leb_le. lia. }
  eexists. split; [reflexivity|]. split; reflexivity.
Qed.

(** A skip to index 5 of a queue of one track stops the track and throws. *)
Lemma skip_invalid_index_stops_first_witness :
  exists s1,
    Player.skip PlayerExamples.quiet 0 (Some 5%Z)
      (PlayerExamples.start Player.Off Player.PLAYING [PlayerExamples.song "AAAA"] (Some 0))
    = Player.Throw (Error "Invalid index") s1
    /\ Player.state (Player.this s1) = Player.CONNECTED
    /\ node_sent (Player.env s1) = [op_stop "G"].
Proof.
  destruct (skip_invalid_index_stops_first PlayerExamples.quiet 0 5
              (PlayerExamples.start Player.Off Player.PLAYING [PlayerExamples.song "AAAA"]
                 (Some 0))
              eq_refl ltac:(right; simpl; lia) eq_refl eq_refl eq_refl)
    as (s1 & H & Ht & Hs).
  exists s1. split; [exact H|]. rewrite Ht, Hs. split; reflexivity.
Defined.

(** [clear(false)] keeps the current entry alone in the queue and leaves
    the queue index where it was, so the current entry stays current only
    when the index was 0: from any other index [currentTrack] is undefined
    afterwards. [clear(true)], when it returns, has stopped the player and
    left an empty queue and no index. *)
Theorem clear_leaves_index (out : Outside) (s : Player.St) :
  (forall i e,
      Player.queuePosition (Player.this s) = Some i ->
      Player.queue (Player.this s) !! i = Some e ->
      exists s',
        Player.clear out false s = Player.Ok tt s'
        /\ Player.this s' = Player.set_queue [e] (Player.this s)
        /\ Player.env s' = Player.env s
        /\ Player.currentTrack (Player.this s') = (if (i =? 0)%nat then Some e else None))
  /\ (Player.currentTrack (Player.this s) = None ->
      Player.clear out false s
      = Player.Ok tt (Player.set_this (Player.set_queue [] (Player.this s)) s))
  /\ (forall s',
      Player.clear out true s = Player.Ok tt s' ->
      Player.queue (Player.this s') = []
      /\ Player.queuePosition (Player.this s') = None
      /\ Player.state (Player.this s') = Player.CONNECTED
      /\ node_sent (Player.env s')
         = (node_sent (Player.env s) ++ [op_stop (Player.guild (Player.this s))])%list).
Proof.
  split; [|split].
  - intros i e Hqp He.
    unfold Player.clear, mbind, Player.M_bind, Player.skip_, mret, Player.M_ret,
      Player.get, Player.update, Player.currentTrack.
    rewrite Hqp, He. eexists. split; [reflexivity|]. split; [reflexivity|].
    split; [reflexivity|]. simpl. rewrite Hqp.
    destruct i; reflexivity.
  - intros H.
    unfold Player.clear, mbind, Player.M_bind, Player.skip_, mret, Player.M_ret,
      Player.get, Player.update.
    rewrite H. reflexivity.
  - intros s' H. unfold Player.clear in H.
    apply bind_Ok in H as ([] & s1 & Hstop & H).
    apply stop_Ok in Hstop as (Ht & Hs & _).
    apply bind_Ok in H as (p & s1' & Hget & H). apply get_Ok in Hget as [-> ->].
    injection H as <-. unfold Player.currentTrack. rewrite Ht. simpl. auto.
Qed.

(** [pause] and [resume] set the state after the write, to PAUSED and to
    PLAYING, whatever the state was: a [pause()] followed by a [resume()]
    leaves the player PLAYING also when it was CONNECTED with nothing
    playing. The two payloads go out in order. The manager emits no event:
    the player emits PAUSED and RESUMED on itself, and its constructor
    forwards neither of them, although the typings of the manager declare
    PLAYER_PAUSED and PLAYER_RESUMED. A call that throws leaves the player
    as it was. *)
Theorem pause_then_resume_plays (out : Outside) (r1 r2 : string) (s : Player.St) :
  (forall s1 s2,
      Player.pause out r1 s = Player.Ok tt s1 ->
      Player.resume out r2 s1 = Player.Ok tt s2 ->
      Player.this s1 = Player.set_state Player.PAUSED (Player.this s)
      /\ Player.this s2 = Player.set_state Player.PLAYING (Player.this s)
      /\ node_sent (Player.env s2)
         = (node_sent (Player.env s)
            ++ [op_pause (Player.guild (Player.this s)) true;
                op_pause (Player.guild (Player.this s)) false])%list
      /\ events (Player.env s2) = events (Player.env s))
  /\ (forall e s',
      Player.pause out r1 s = Player.Throw e s' ->
      Player.this s' = Player.this s
      /\ node_sent (Player.env s') = node_sent (Player.env s))
  /\ (forall e s',
      Player.resume out r2 s = Player.Throw e s' ->
      Player.this s' = Player.this s
      /\ node_sent (Player.env s') = node_sent (Player.env s)).
Proof.
  pose proof (pause_like out) as Hboth.
  destruct (Hboth true Player.PAUSED (fun g => PLAYER_PAUSED g r1) (Player.pause out r1) s _
              eq_refl) as [P1 P2].
  destruct (Hboth false Player.PLAYING (fun g => PLAYER_RESUMED g r2) (Player.resume out r2) s _
              eq_refl) as [_ R2].
  split; [|split; [exact P2|exact R2]].
  intros s1 s2 H1 H2.
  destruct (P1 _ H1) as (Ht1 & Hs1 & He1).
  destruct (Hboth false Player.PLAYING (fun g => PLAYER_RESUMED g r2) (Player.resume out r2) s1
              _ eq_refl) as [R1 _].
  destruct (R1 _ H2) as (Ht2 & Hs2 & He2).
  split; [exact Ht1|]. rewrite Ht2, Hs2, He2, Ht1, Hs1, He1.
  unfold Player.guild. rewrite <- !app_assoc.
  split; [destruct (Player.this s); reflexivity|].
  split; reflexivity.
Qed.

(** After [stop()] the queue is kept and the index is null, so the next
    queue advance starts again at the head of the queue, whatever the loop
    mode and wherever the index was. *)
Theorem stop_then_advance_restarts (out : Outside) (fuel : nat) (s s1 : Player.St) :
  Player.stop out s = Player.Ok tt s1 ->
  Player.this s1
  = Player.set_queuePosition None
      (Player.set_state Player.CONNECTED (Player.set_position None (Player.this s)))
  /\ node_sent (Player.env s1)
     = (node_sent (Player.env s) ++ [op_stop (Player.guild (Player.this s))])%list
  /\ ((forall e, Player.queue (Player.this s) !! 0 = Some e -> PlayerSpec.will_play out s1 e) ->
      exists s2,
        Player._advanceQueue out (S fuel) s1 = Player.Ok tt s2
        /\ Player.queuePosition (Player.this s2)
           = (if bool_decide (is_Some (Player.queue (Player.this s) !! 0))
              then Some 0 else None)).
Proof.
  intros H. apply stop_Ok in H as (Ht & Hs & _).
  split; [exact Ht|]. split; [exact Hs|].
  intros Hwill.
  destruct (_advanceQueue_to_chosen out fuel s1) as (s2 & H2 & Hqp & _).
  - rewrite Ht. reflexivity.
  - unfold PlayerSpec.chosen_index. rewrite Ht. simpl. exact Hwill.
  - exists s2. split; [exact H2|]. rewrite Hqp.
    unfold PlayerSpec.chosen_index. rewrite Ht. reflexivity.
Qed.

(** Under loop mode single, with the second of two tracks playing, a stop
    and a queue advance play the first track again. *)
Lemma stop_then_advance_restarts_witness :
  exists s2,
    Player._advanceQueue PlayerExamples.quiet 1
      (Player.final
         (Player.stop PlayerExamples.quiet
            (PlayerExamples.start Player.Single Player.PLAYING
               [PlayerExamples.song "AAAA"; PlayerExamples.song "BBBB"] (Some 1))))
    = Player.Ok tt s2
    /\ Player.queuePosition (Player.this s2) = Some 0.
Proof.
  assert (Player.stop PlayerExamples.quiet
            (PlayerExamples.start Player.Single Player.PLAYING
               [PlayerExamples.song "AAAA"; PlayerExamples.song "BBBB"] (Some 1))
          = Player.Ok tt
              (Player.final
                 (Player.stop PlayerExamples.quiet
                    (PlayerExamples.start Player.Single Player.PLAYING
                       [PlayerExamples.song "AAAA"; PlayerExamples.song "BBBB"]
                       (Some 1))))) as H
    by (vm_compute; reflexivity).
  destruct (stop_then_advance_restarts PlayerExamples.quiet 0 _ _ H) as (_ & _ & Hadv).
  destruct Hadv as (s2 & H2 & Hqp).
  - intros e [= <-]. simpl. discriminate.
  - exists s2. split; [exact H2|exact Hqp].
Defined.

Section TeardownFacts.

Import Player PlayerSpec.

Variable out : Outside.

Lemma resolve_at_Throw i s e s' :
  resolve_at out i s = Throw e s' -> this s' = this s.
Proof.
  unfold resolve_at, mbind, M_bind, get, next_answer, skip_, mret, M_ret, update, throw.
  destruct (queue (this s) !! i) as [[tr|partial]|]; try discriminate.
  cbn [env set_env clock set_clock].
  destruct (resolveTrack_at out (clock (env s)) partial); [discriminate|].
  intros [= _ <-]. reflexivity.
Qed.

(** What [resolve_and_play] leaves when it throws: the index and the
    state, and the queue up to the resolution of the entry. *)
Lemma resolve_and_play_Throw i opts err s e s' :
  resolve_and_play out i opts err s = Throw e s' ->
  queuePosition (this s') = queuePosition (this s)
  /\ state (this s') = state (this s)
  /\ (queue (this s') = queue (this s)
      \/ exists partial n tr,
           queue (this s) !! i = Some (EPartial partial)
           /\ resolveTrack_at out n partial = Returns tr
           /\ queue (this s') = <[i := ETrack tr]> (queue (this s))).
Proof.
  unfold resolve_and_play. intros H.
  apply bind_Throw in H as [H|(u & s1 & Hres & H)].
  { apply resolve_at_Throw in H. rewrite H. auto. }
  pose proof (keeps_Ok _ _ _ _ _ (resolve_at_keeps out i) Hres) as Hkept.
  simpl in Hkept. injection Hkept as Hqp1 Hst1 _ _ _.
  assert (queue (this s1) = queue (this s)
          \/ exists partial n tr,
               queue (this s) !! i = Some (EPartial partial)
               /\ resolveTrack_at out n partial = Returns tr
               /\ queue (this s1) = <[i := ETrack tr]> (queue (this s))) as Hq1.
  { apply resolve_at_Ok in Hres as [[Hsame _]|(partial & n & tr & Hres)]; eauto 10. }
  apply bind_Throw in H as [H|(p & s1' & Hget & H)]; [discriminate|].
  apply get_Ok in Hget as [-> ->].
  assert (this s' = this s1 \/ core s' = core s1) as Hs'.
  { destruct (queue (this s1) !! i) as [[tr|]|].
    - destruct (truthy_string (track tr)).
      + apply bind_Throw in H as [H|(u' & s2 & _ & H)]; [|discriminate].
        right. pose proof (_play_keeps_core out tr opts s1) as K.
        rewrite H in K. exact K.
      + injection H as _ <-. auto.
    - injection H as _ <-. auto.
    - injection H as _ <-. auto. }
  destruct Hs' as [Hs'|Hs'].
  - rewrite Hs'. auto.
  - unfold core in Hs'. injection Hs' as Hq Hqp Hst _. rewrite Hq, Hqp, Hst. auto.
Qed.

(** [destroy] on a player that is in no voice channel sends nothing to
    the gateway. *)
Lemma destroy_no_leave reason s a s' :
  destroy out reason s = Ok a s' ->
  truthy_ostring (currentVoiceChannel (this s)) = false ->
  gateway_sent (env s') = gateway_sent (env s).
Proof.
  intros H Hc. apply destroy_inv in H as (s1 & b & s2 & s7 & H1 & H2 & H7 & ->).
  rewrite Hc in H1. injection H1 as <-.
  apply void_send_Ok in H2 as (Ht2 & _ & Hg2 & _).
  simpl. rewrite <- Hg2.
  unfold emit_DESTROYED in H7.
  apply bind_Ok in H7 as (p & s0 & Hget & H7). apply get_Ok in Hget as [-> ->].
  apply bind_Ok in H7 as ([] & s3 & H3 & H7).
  apply (keeps_Ok (fun s => (this s, gateway_sent (env s)))) in H3; [|repeat keeps_step].
  injection H3 as Ht3 Hg3. simpl in Hg3. rewrite <- Hg3.
  cbn [this set_this connecting set_state set_position set_queuePosition set_queue
       currentVoiceChannel] in H7.
  destruct (connecting (this s2)).
  - apply bind_Ok in H7 as ([] & s4 & H4 & H7). injection H4 as <-.
    rewrite Ht2, Hc in H7.
    apply bind_Ok in H7 as ([] & s5 & H5 & H7). injection H5 as <-.
    apply (keeps_Ok (fun s => gateway_sent (env s))) in H7; [|repeat keeps_step].
    exact H7.
  - injection H7 as <-. reflexivity.
Qed.

(** [destroy] on a player that is in a voice channel, when the gateway
    takes the payload and no [connect] is waiting. *)
Lemma destroy_leaves_pending reason s a s' :
  destroy out reason s = Ok a s' ->
  truthy_ostring (currentVoiceChannel (this s)) = true ->
  gateway_send out (clock (env s)) = gateway_accepted ->
  connecting (this s) = false ->
  pending (this s') = (pending (this s) ++ [after__disconnect])%list
  /\ gateway_sent (env s') = (gateway_sent (env s) ++ [leave (guild (this s))])%list.
Proof.
  intros H Hc Hg Hn. apply destroy_inv in H as (s1 & b & s2 & s7 & H1 & H2 & H7 & ->).
  rewrite Hc in H1.
  unfold void__disconnect, mbind, M_bind, get, next_answer, update_env, update in H1.
  cbn [env set_env clock set_clock] in H1. rewrite Hg in H1. injection H1 as <-.
  apply void_send_Ok in H2 as (Ht2 & _ & Hg2 & _).
  unfold emit_DESTROYED in H7.
  apply bind_Ok in H7 as (p & s0 & Hget & H7). apply get_Ok in Hget as [-> ->].
  apply bind_Ok in H7 as ([] & s3 & H3 & H7).
  apply (keeps_Ok (fun s => (this s, gateway_sent (env s)))) in H3; [|repeat keeps_step].
  injection H3 as Ht3 Hg3.
  cbn [this set_this connecting set_state set_position set_queuePosition set_queue] in H7.
  rewrite Ht2 in H7. cbn [this set_this connecting set_pending] in H7.
  rewrite Hn in H7. injection H7 as <-.
  simpl. rewrite Ht3, Hg3. simpl. rewrite Ht2, Hg2. simpl. auto.
Qed.

End TeardownFacts.

(** A destroyed player does not stay DESTROYED when it was in a voice
    channel: [destroy()] starts [_disconnect()] without awaiting it, and
    the two assignments that follow the [await] in [_disconnect] run after
    [destroy] has returned. Once they have run the player is
    DISCONNECTED. *)
Theorem destroyed_player_ends_DISCONNECTED (out : Outside) (reason : string)
    (fuel : nat) (s s1 : Player.St) :
  Player.destroy out reason s = Player.Ok tt s1 ->
  truthy_ostring (Player.currentVoiceChannel (Player.this s)) = true ->
  gateway_send out (clock (Player.env s)) = gateway_accepted ->
  Player.connecting (Player.this s) = false ->
  Player.pending (Player.this s) = [] ->
  Player.state (Player.this s1) = Player.DESTROYED
  /\ Player.pending (Player.this s1) = [Player.after__disconnect]
  /\ exists s2,
       Player.resume_next out fuel s1 = Player.Ok tt s2
       /\ Player.state (Player.this s2) = Player.DISCONNECTED
       /\ Player.currentVoiceChannel (Player.this s2) = None
       /\ Player.pending (Player.this s2) = [].
Proof.
  intros H Hc Hg Hn Hp.
  pose proof (destroy_state out _ _ _ _ H) as Hst.
  destruct (destroy_leaves_pending out _ _ _ _ H Hc Hg Hn) as [Hpend _].
  rewrite Hp in Hpend. simpl in Hpend.
  split; [exact Hst|]. split; [exact Hpend|].
  unfold Player.resume_next, mbind, Player.M_bind, Player.get. rewrite Hpend.
  eexists. split; [reflexivity|]. simpl. auto.
Qed.

(** The connected player of the examples, destroyed and then resumed. *)
Lemma destroyed_player_ends_DISCONNECTED_witness :
  Player.state (Player.this PlayerExamples.destroyed_once) = Player.DESTROYED
  /\ exists s2,
       Player.resume_next PlayerExamples.quiet 0 PlayerExamples.destroyed_once
       = Player.Ok tt s2
       /\ Player.state (Player.this s2) = Player.DISCONNECTED.
Proof.
  assert (Player.destroy PlayerExamples.quiet "Manual destroy" PlayerExamples.joined
          = Player.Ok tt PlayerExamples.destroyed_once) as H
    by (vm_compute; reflexivity).
  destruct (destroyed_player_ends_DISCONNECTED PlayerExamples.quiet _ 0 _ _ H
              eq_refl eq_refl eq_refl eq_refl) as (Hst & _ & s2 & H2 & Hst2 & _).
  split; [exact Hst|]. exists s2. split; [exact H2|exact Hst2].
Defined.

(** A [shuffle()] that throws leaves the queue index where it was. When
    the player was stopped by then, it is CONNECTED and its queue is the
    old one shuffled (with the new head resolved, if the play of it is what
    threw): the index then points into a queue that has been reordered. *)
Theorem shuffle_throw_leaves_index (out : Outside) (s : Player.St) (e : exn)
    (s' : Player.St) :
  Player.shuffle out s = Player.Throw e s' ->
  Player.queuePosition (Player.this s') = Player.queuePosition (Player.this s)
  /\ (Player.this s' = Player.this s
      \/ (Player.state (Player.this s') = Player.CONNECTED
          /\ exists shuffled,
               shuffled ≡ₚ Player.queue (Player.this s)
               /\ (Player.queue (Player.this s') = shuffled
                   \/ exists partial n tr,
                        shuffled !! 0 = Some (EPartial partial)
                        /\ resolveTrack_at out n partial = Returns tr
                        /\ Player.queue (Player.this s') = <[0 := ETrack tr]> shuffled))).
Proof.
  unfold Player.shuffle. intros H.
  apply bind_Throw in H as [H|(p & s0 & Hget & H)]; [discriminate|].
  apply get_Ok in Hget as [-> ->].
  destruct (negb (Player.playable (Player.state (Player.this s)))).
  { injection H as _ <-. auto. }
  apply bind_Throw in H as [H|([] & s1 & Hstop & H)].
  { apply _stop_Throw in H as [H _]. rewrite H. auto. }
  apply _stop_Ok in Hstop as (Hst1 & Hq1 & Hqp1 & _).
  destruct (shuffle_loop_Ok out (List.length (Player.queue (Player.this s))) s1)
    as (s2 & Hloop & Hperm & Hthis & _).
  apply bind_Throw in H as [H|([] & s2' & Hloop' & H)].
  { rewrite Hloop in H. discriminate. }
  rewrite Hloop in Hloop'. injection Hloop' as <-.
  apply resolve_and_play_Throw in H as (Hqp & Hst & Hq).
  assert (Player.queuePosition (Player.this s2) = Player.queuePosition (Player.this s)
          /\ Player.state (Player.this s2) = Player.CONNECTED) as [Hqp2 Hst2].
  { rewrite Hthis. simpl. auto. }
  split; [congruence|]. right. split; [congruence|].
  exists (Player.queue (Player.this s2)). split; [rewrite Hperm, Hq1; reflexivity|].
  exact Hq.
Qed.

(** With the current track at index 0 and an unresolved entry behind it, in
    a world where nothing resolves, the shuffle throws and the index is
    still 0. *)
Lemma shuffle_throw_leaves_index_witness :
  Player.queuePosition
    (Player.this
       (Player.final
          (Player.shuffle PlayerExamples.unresolvable PlayerExamples.half_resolved)))
  = Some 0.
Proof.
  assert (Player.shuffle PlayerExamples.unresolvable PlayerExamples.half_resolved
          = Player.Throw (Error "No results found")
              (Player.final
                 (Player.shuffle PlayerExamples.unresolvable PlayerExamples.half_resolved)))
    as H by (vm_compute; reflexivity).
  exact (proj1 (shuffle_throw_leaves_index _ _ _ _ H)).
Defined.

(** A queue advance whose next entry is unresolved and does not resolve
    throws what [resolveTrack] threw. It does not report the error as an
    ERROR event and does not move on to the entries behind: the index rests
    on the unresolved entry, the queue is as before and nothing is written
    to the node. *)
Theorem advanceQueue_throws_when_unresolved (out : Outside) (fuel : nat) (s : Player.St)
    (partial : TrackPartial) (err : exn) :
  Player.playable (Player.state (Player.this s)) = true ->
  Player.queue (Player.this s) !! PlayerSpec.chosen_index (Player.this s)
  = Some (EPartial partial) ->
  resolveTrack_at out (clock (Player.env s)) partial = Throws err ->
  exists s',
    Player._advanceQueue out (S fuel) s = Player.Throw err s'
    /\ Player.queuePosition (Player.this s') = Some (PlayerSpec.chosen_index (Player.this s))
    /\ Player.queue (Player.this s') = Player.queue (Player.this s)
    /\ Player.state (Player.this s') = Player.state (Player.this s)
    /\ events (Player.env s') = events (Player.env s)
    /\ node_sent (Player.env s') = node_sent (Player.env s).
Proof.
  intros Hplay Hq Hres. cbn [Player._advanceQueue].
  erewrite bind_eq by reflexivity. rewrite Hplay. cbn [negb].
  erewrite bind_eq by apply advance_index_eq.
  erewrite bind_eq by reflexivity.
  cbn [Player.this Player.set_this Player.currentTrack Player.queuePosition
       Player.set_queuePosition Player.queue].
  rewrite Hq.
  erewrite bind_throw_eq.
  2:{ unfold Player.resolve_at. erewrite bind_eq by reflexivity.
      cbn [Player.this Player.set_this Player.queue Player.set_queuePosition].
      rewrite Hq. erewrite bind_eq by reflexivity.
      cbn [Player.env Player.set_env clock set_clock Player.this Player.set_this].
      rewrite Hres. reflexivity. }
  eexists. split; [reflexivity|]. simpl. auto 10.
Qed.

(** The advance from the first entry of the example throws at the second. *)
Lemma advanceQueue_throws_when_unresolved_witness :
  exists s',
    Player._advanceQueue PlayerExamples.unresolvable 1 PlayerExamples.half_resolved
    = Player.Throw (Error "No results found") s'
    /\ Player.queuePosition (Player.this s') = Some 1
    /\ events (Player.env s') = [].
Proof.
  destruct (advanceQueue_throws_when_unresolved PlayerExamples.unresolvable 0
              PlayerExamples.half_resolved (Examples.hint "Artist" None)
              (Error "No results found") eq_refl eq_refl eq_refl)
    as (s' & H & Hqp & _ & _ & He & _).
  exists s'. split; [exact H|]. split; [exact Hqp|exact He].
Defined.

Section ConnectFacts.

Import Player PlayerSpec.

Variable out : Outside.

Lemma connect_Ok s a s1 :
  connect out s = Ok a s1 ->
  state (this s) = DISCONNECTED
  /\ this s1 = set_connecting true (set_state CONNECTING (this s))
  /\ events (env s1) = events (env s)
  /\ manager_players (env s1) = manager_players (env s)
  /\ (gateway_sent (env s1) = gateway_sent (env s)
      \/ gateway_sent (env s1)
         = (gateway_sent (env s)
            ++ [{| guild_id := guild (this s);
                   channel_id := Some (voiceChannelId (options (this s)));
                   self_mute := selfMute (options (this s));
                   self_deaf := selfDeafen (options (this s)) |}])%list).
Proof.
  unfold connect. intros H.
  apply bind_Ok in H as (p & s0 & Hget & H). apply get_Ok in Hget as [-> ->].
  destruct (state (this s)) eqn:Hst; try discriminate. split; [reflexivity|].
  cbn [PlayerState_eqb negb] in H.
  apply bind_Ok in H as (n & s0 & Hn & H). injection Hn as <- <-.
  apply bind_Ok in H as ([] & s2 & Hg & H).
  apply bind_Ok in H as ([] & s3 & H3 & H). injection H3 as <-. injection H as _ <-.
  destruct (gateway_send out (clock (env s))); try discriminate;
    injection Hg as <-; simpl; auto 10.
Qed.

(** The first step of [_handleMove]: the MOVED event. *)
Lemma moved_step (b : bool) ev s a s' :
  (if b then Player.emit ev else skip_) s = Ok a s' ->
  this s' = this s
  /\ gateway_sent (env s') = gateway_sent (env s)
  /\ manager_players (env s') = manager_players (env s)
  /\ exists l, events (env s') = (events (env s) ++ l)%list.
Proof.
  destruct b; unfold Player.emit, skip_.
  - destruct (listeners (this s)); intros [= _ <-]; simpl;
      repeat split; try (eexists; reflexivity).
    exists []. rewrite app_nil_r. reflexivity.
  - intros [= _ <-]. repeat split. exists []. rewrite app_nil_r. reflexivity.
Qed.

End ConnectFacts.

(** [connect()] followed by the voice state update of the bot. The call
    asks the gateway for the bound voice channel and leaves the player
    CONNECTING; the update records the channel and the voice state. When
    the channel is the bound one the player is CONNECTED and its CONNECTED
    event is delivered. When it is another one the player is destroyed with
    the reason "Connected to incorrect channel" and taken out of the
    manager's table; as the player had no current channel when it was
    destroyed, no payload is sent to the gateway to leave the channel the
    bot is in. *)
Theorem connect_then_voice_update (out : Outside) (newChannel : option Snowflake)
    (data : Player.VoiceState) (s s1 s2 : Player.St) :
  Player.connect out s = Player.Ok tt s1 ->
  Player._handleMove out newChannel data s1 = Player.Ok tt s2 ->
  Player.currentVoiceChannel (Player.this s) = None ->
  Player.state (Player.this s) = Player.DISCONNECTED
  /\ Player.state (Player.this s1) = Player.CONNECTING
  /\ Player.currentVoiceChannel (Player.this s2) = newChannel
  /\ Player.lastVoiceState (Player.this s2) = Some data
  /\ gateway_sent (Player.env s2) = gateway_sent (Player.env s1)
  /\ if Player.option_eqb (Some (Player.voiceChannelId (Player.options (Player.this s))))
          newChannel
     then Player.state (Player.this s2) = Player.CONNECTED
          /\ manager_players (Player.env s2) = manager_players (Player.env s)
          /\ (Player.listeners (Player.this s) = true ->
              PLAYER_CONNECTED (Player.guild (Player.this s)) ∈ events (Player.env s2))
     else Player.state (Player.this s2) = Player.DESTROYED
          /\ manager_players (Player.env s2)
             = players_delete (Player.guild (Player.this s)) (manager_players (Player.env s))
          /\ (Player.listeners (Player.this s) = true ->
              PLAYER_DESTROYED (Player.guild (Player.this s)) "Connected to incorrect channel"
              ∈ events (Player.env s2)).
Proof.
  intros Hc Hm Hnone.
  apply connect_Ok in Hc as (Hst & Ht1 & He1 & Hp1 & _).
  split; [exact Hst|]. split; [rewrite Ht1; reflexivity|].
  unfold Player._handleMove in Hm.
  apply bind_Ok in Hm as (f & s3 & Hb & Hm).
  unfold Player._handleMove_branches in Hb.
  apply bind_Ok in Hb as (p & s0 & Hget & Hb). apply get_Ok in Hget as [-> ->].
  apply bind_Ok in Hb as ([] & s4 & Hmoved & Hb).
  apply moved_step in Hmoved as (Ht4 & Hg4 & Hp4 & l4 & He4).
  cbv zeta in Hb. rewrite Ht1 in Hb.
  cbn [Player.state Player.set_connecting Player.set_state Player.playable
       Player.PlayerState_eqb Player.options] in Hb.
  apply bind_Ok in Hb as ([] & s5 & Hb & Hf). injection Hf as <- <-.
  injection Hm as <-.
  cbn [Player.this Player.set_this Player.set_lastVoiceState Player.set_currentVoiceChannel
       Player.currentVoiceChannel Player.lastVoiceState Player.state Player.env].
  split; [reflexivity|]. split; [reflexivity|].
  destruct (Player.option_eqb (Some (Player.voiceChannelId (Player.options (Player.this s))))
              newChannel).
  - apply bind_Ok in Hb as ([] & s6 & H6 & Hb). injection H6 as <-.
    unfold Player.emit_CONNECTED in Hb.
    apply bind_Ok in Hb as (p & s0 & Hget & Hb). apply get_Ok in Hget as [-> ->].
    apply bind_Ok in Hb as ([] & s7 & H7 & Hb).
    unfold Player.emit in H7.
    cbn [Player.this Player.set_this Player.listeners Player.set_state Player.guild
         Player.options] in H7.
    rewrite Ht4, Ht1 in H7, Hb.
    cbn [Player.this Player.set_this Player.listeners Player.set_state Player.guild
         Player.options Player.set_connecting Player.connecting] in H7, Hb.
    assert (Player.state (Player.this s5) = Player.CONNECTED
            /\ gateway_sent (Player.env s5) = gateway_sent (Player.env s7)
            /\ manager_players (Player.env s5) = manager_players (Player.env s7)
            /\ events (Player.env s5) = events (Player.env s7)) as (Hst5 & Hg5 & Hp5 & He5).
    { assert (Player.state (Player.this s7) = Player.CONNECTED) as Hst7
          by (destruct (Player.listeners (Player.this s)); injection H7 as <-; reflexivity).
      apply (keeps_Ok (fun s => (Player.state (Player.this s), Player.env s))) in Hb.
      2:{ repeat keeps_step. }
      injection Hb as -> ->. auto. }
    split; [rewrite Hg5|split; [exact Hst5|split; [rewrite Hp5|rewrite He5]]].
    + destruct (Player.listeners (Player.this s)); injection H7 as <-; simpl; congruence.
    + destruct (Player.listeners (Player.this s)); injection H7 as <-; simpl; congruence.
    + intros Hl. rewrite Hl in H7. injection H7 as <-. simpl.
      apply elem_of_app. right. apply list_elem_of_here.
  - pose proof (destroy_state out _ _ _ _ Hb) as Hst5.
    pose proof (destroy_no_leave out _ _ _ _ Hb) as Hg5.
    rewrite Ht4, Ht1 in Hg5. simpl in Hg5. rewrite Hnone in Hg5. specialize (Hg5 eq_refl).
    apply destroy_facts in Hb as (_ & _ & _ & Hp5 & _ & _ & _ & (l & He5 & Hin & _) & _).
    rewrite Ht4, Ht1 in Hp5, Hin. unfold Player.guild in *. simpl in Hp5, Hin.
    split; [congruence|]. split; [exact Hst5|]. split; [congruence|].
    intros Hl. rewrite He5. apply elem_of_app. right. auto.
Qed.

(** A fresh player that asks for the channel "V" and is reported in "W" is
    destroyed and no leave payload follows the join payload. *)
Lemma connect_then_voice_update_witness :
  Player.state
    (Player.this
       (Player.final
          (Player._handleMove PlayerExamples.quiet (Some "W") PlayerExamples.moved_to_W
             (Player.final (Player.connect PlayerExamples.quiet PlayerExamples.fresh)))))
  = Player.DESTROYED
  /\ gateway_sent
       (Player.env
          (Player.final
             (Player._handleMove PlayerExamples.quiet (Some "W") PlayerExamples.moved_to_W
                (Player.final (Player.connect PlayerExamples.quiet PlayerExamples.fresh)))))
     = gateway_sent
         (Player.env (Player.final (Player.connect PlayerExamples.quiet PlayerExamples.fresh))).
Proof.
  assert (Player.connect PlayerExamples.quiet PlayerExamples.fresh
          = Player.Ok tt (Player.final (Player.connect PlayerExamples.quiet PlayerExamples.fresh)))
    as H1 by (vm_compute; reflexivity).
  assert (Player._handleMove PlayerExamples.quiet (Some "W") PlayerExamples.moved_to_W
            (Player.final (Player.connect PlayerExamples.quiet PlayerExamples.fresh))
          = Player.Ok tt
              (Player.final
                 (Player._handleMove PlayerExamples.quiet (Some "W") PlayerExamples.moved_to_W
                    (Player.final (Player.connect PlayerExamples.quiet PlayerExamples.fresh)))))
    as H2 by (vm_compute; reflexivity).
  destruct (connect_then_voice_update _ _ _ _ _ _ H1 H2 eq_refl)
    as (_ & _ & _ & _ & Hg & Hrest).
  split; [|exact Hg]. exact (proj1 Hrest).
Defined.

(** ** Calls that are started and not awaited *)

Section RejectionFacts.

Import Player PlayerSpec.

Variable out : Outside.

(** The index the queue advance chooses after the handler of a rejected
    play moved it. *)
Lemma chosen_after_rejection p j :
  queuePosition p = Some j ->
  let p' := if is_single (loop p) then set_queuePosition (js_incr (queuePosition p)) p
            else p in
  (if bool_decide (is_Some (queue p' !! chosen_index p'))
   then Some (chosen_index p') else None)
  = (if bool_decide (S j < List.length (queue p))%nat then Some (S j)
     else if is_queue (loop p) && bool_decide (0 < List.length (queue p))%nat
          then Some 0%nat else None)
  /\ queue p' = queue p /\ state p' = state p.
Proof.
  intros Hqp p'. subst p'. unfold chosen_index.
  assert (forall k, bool_decide (is_Some (queue p !! k))
                    = bool_decide (k < List.length (queue p))%nat) as E.
  { intros k. apply bool_decide_ext. apply lookup_lt_is_Some. }
  destruct (loop p) eqn:Hl; cbn [is_single is_queue];
    cbn [queuePosition set_queuePosition queue loop state js_incr];
    rewrite ?Hqp, ?Hl; cbn [js_incr is_single is_queue];
    rewrite ?andb_false_r, ?andb_true_r, ?E; cbn [andb]; (split; [|split; reflexivity]).
  - reflexivity.
  - reflexivity.
  - destruct (bool_decide (S j < List.length (queue p))%nat) eqn:B; cbn [negb].
    + rewrite B. reflexivity.
    + reflexivity.
Qed.

(** A write of a pause or a resume that is started and not awaited. *)
Lemma void_send_written_eq msg s :
  Node.state (node (env s)) = Node.CONNECTED ->
  Node.ws (node (env s)) = true ->
  ws_send_error out (clock (env s)) = None ->
  void_send out msg s
  = Ok true (set_env (set_clock (S (clock (env s)))
                        (set_node_sent (node_sent (env s) ++ [msg]) (env s))) s).
Proof. intros Hc Hw He. unfold void_send, Node_send. rewrite Hc, Hw, He. reflexivity. Qed.

End RejectionFacts.

(** The handler of a play that the queue advance started and that was
    rejected. It advances the queue again, after it moved the index by one
    under loop mode single: so the track that could not be played is
    passed over in every loop mode, also under single, where the queue then
    stays on the track that follows. The index ends on the next entry, on
    0 past the last entry under loop mode queue, and cleared past the last
    entry otherwise. *)
Theorem rejected_play_skips_track (out : Outside) (fuel : nat) (error : exn) (j : nat)
    (s : Player.St) :
  Player.playable (Player.state (Player.this s)) = true ->
  Player.queuePosition (Player.this s) = Some j ->
  (forall e, e ∈ Player.queue (Player.this s) -> PlayerSpec.will_play out s e) ->
  exists s',
    Player.resume_cont out (S fuel) (Player.play_rejected error) s = Player.Ok tt s'
    /\ Player.queuePosition (Player.this s')
       = (if bool_decide (S j < List.length (Player.queue (Player.this s)))%nat
          then Some (S j)
          else if Player.is_queue (Player.loop (Player.this s))
                  && bool_decide (0 < List.length (Player.queue (Player.this s)))%nat
               then Some 0%nat else None)
    /\ Player.loop (Player.this s') = Player.loop (Player.this s).
Proof.
  intros Hplay Hqp Hwill.
  destruct (chosen_after_rejection (Player.this s) j Hqp) as (Hc & Hq & Hst).
  set (p' := if Player.is_single (Player.loop (Player.this s))
             then Player.set_queuePosition
                    (Player.js_incr (Player.queuePosition (Player.this s))) (Player.this s)
             else Player.this s) in *.
  unfold Player.resume_cont.
  erewrite bind_eq by reflexivity.
  set (ev := PLAYER_ERROR (Player.guild (Player.this s)) error).
  assert (exists s1, Player.emit ev s = Player.Ok tt s1
                     /\ Player.this s1 = Player.this s
                     /\ clock (Player.env s1) = clock (Player.env s)) as (s1 & He & Ht & Hcl).
  { unfold Player.emit. destruct (Player.listeners (Player.this s)); eexists; eauto. }
  erewrite bind_eq by exact He.
  assert ((if Player.is_single (Player.loop (Player.this s))
           then Player.update
                  (fun p => Player.set_queuePosition (Player.js_incr (Player.queuePosition p)) p)
           else Player.skip_) s1 = Player.Ok tt (Player.set_this p' s1)) as Hu.
  { subst p'. destruct (Player.is_single (Player.loop (Player.this s))).
    - unfold Player.update. rewrite Ht. reflexivity.
    - rewrite <- Ht, set_this_same. reflexivity. }
  erewrite bind_eq by exact Hu.
  destruct (_advanceQueue_to_chosen out fuel (Player.set_this p' s1))
    as (s' & H & Hq' & Hl' & _).
  - cbn [Player.this Player.set_this]. rewrite Hst. exact Hplay.
  - cbn [Player.this Player.set_this]. rewrite Hq. intros e He'.
    apply list_elem_of_lookup_2, Hwill in He'.
    destruct e; [exact He'|]. unfold PlayerSpec.will_play in *.
    cbn [Player.env Player.set_this]. rewrite Hcl. exact He'.
  - exists s'. split; [exact H|]. split.
    + rewrite Hq'. exact Hc.
    + rewrite Hl'. subst p'. cbn [Player.this Player.set_this].
      destruct (Player.is_single (Player.loop (Player.this s))); reflexivity.
Qed.

(** Under loop mode single, a rejected play of the first of two tracks
    moves the queue to the second. *)
Lemma rejected_play_skips_track_witness :
  exists s',
    Player.resume_cont PlayerExamples.quiet 1
      (Player.play_rejected (Error "Cannot send payloads before a connection is established"))
      (PlayerExamples.start Player.Single Player.CONNECTED
         [PlayerExamples.song "AAAA"; PlayerExamples.song "BBBB"] (Some 0))
    = Player.Ok tt s'
    /\ Player.queuePosition (Player.this s') = Some 1.
Proof.
  destruct (rejected_play_skips_track PlayerExamples.quiet 0
              (Error "Cannot send payloads before a connection is established") 0
              (PlayerExamples.start Player.Single Player.CONNECTED
                 [PlayerExamples.song "AAAA"; PlayerExamples.song "BBBB"] (Some 0))
              eq_refl eq_refl) as (s' & H & Hq & _).
  - intros e He. apply list_elem_of_In in He. simpl in He.
    destruct He as [<-|[<-|[]]]; simpl; discriminate.
  - exists s'. split; [exact H|exact Hq].
Defined.

Section MoveFacts.

Import Player PlayerSpec.

Variable out : Outside.

Lemma void_pause_written reason s :
  playable (state (this s)) = true ->
  Node.state (node (env s)) = Node.CONNECTED ->
  Node.ws (node (env s)) = true ->
  ws_send_error out (clock (env s)) = None ->
  void_pause out reason s
  = Ok tt
      (set_this (set_pending (pending (this s) ++ [after_pause reason]) (this s))
         (set_env (set_clock (S (clock (env s)))
                     (set_node_sent
                        (node_sent (env s) ++ [op_pause (guild (this s)) true]) (env s)))
            s)).
Proof.
  intros Hp Hc Hw He. unfold void_pause. erewrite bind_eq by reflexivity.
  rewrite Hp. cbn [negb].
  erewrite bind_eq by (apply void_send_written_eq; assumption). reflexivity.
Qed.

Lemma void_resume_written reason s :
  playable (state (this s)) = true ->
  Node.state (node (env s)) = Node.CONNECTED ->
  Node.ws (node (env s)) = true ->
  ws_send_error out (clock (env s)) = None ->
  void_resume out reason s
  = Ok tt
      (set_this (set_pending (pending (this s) ++ [after_resume reason]) (this s))
         (set_env (set_clock (S (clock (env s)))
                     (set_node_sent
                        (node_sent (env s) ++ [op_pause (guild (this s)) false]) (env s)))
            s)).
Proof.
  intros Hp Hc Hw He. unfold void_resume. erewrite bind_eq by reflexivity.
  rewrite Hp. cbn [negb].
  erewrite bind_eq by (apply void_send_written_eq; assumption). reflexivity.
Qed.

(** [_handleMove] of a player that pauses on a move and is not on a
    stage. *)
Lemma _handleMove_pause_behavior newChannel data s :
  playable (state (this s)) = true ->
  moveBehavior (options (this s)) = behavior_pause ->
  truthy_obool (isStage (this s)) = false ->
  _handleMove out newChannel data s
  = ((if negb (option_eqb newChannel (currentVoiceChannel (this s)))
      then Player.emit (PLAYER_MOVED (guild (this s)) (currentVoiceChannel (this s)) newChannel)
      else skip_) ;;
     (if PlayerState_eqb (state (this s)) PAUSED
         && negb (option_eqb (Some (voiceChannelId (options (this s))))
                    (currentVoiceChannel (this s)))
         && option_eqb (Some (voiceChannelId (options (this s)))) newChannel
      then void_resume out "Moved into the voice channel"
      else if PlayerState_eqb (state (this s)) PLAYING
              && option_eqb (Some (voiceChannelId (options (this s))))
                   (currentVoiceChannel (this s))
              && negb (option_eqb (Some (voiceChannelId (options (this s)))) newChannel)
      then void_pause out "Moved out of the voice channel"
      else skip_) ;;
     update (set_currentVoiceChannel newChannel) ;;
     update (set_lastVoiceState (Some data))) s.
Proof.
  intros Hp Hm Hs. unfold _handleMove, _handleMove_branches.
  unfold mbind at 1. unfold M_bind at 1.
  erewrite bind_eq by reflexivity.
  rewrite Hp, Hm, Hs. cbn [Behavior_is_destroy Behavior_is_pause andb].
  match goal with |- context [(?a ≫= λ _, ?b ≫= _) s] => set (m1 := a); set (m2 := b) end.
  clearbody m1 m2. unfold mbind, M_bind, mret, M_ret.
  destruct (m1 s) as [[] s1|?|?]; [|reflexivity..].
  destruct (m2 s1) as [[] s2|?|?]; reflexivity.
Qed.

(** The move of a playing bot out of its channel. *)
Lemma moved_out W d s :
  state (this s) = PLAYING ->
  moveBehavior (options (this s)) = behavior_pause ->
  truthy_obool (isStage (this s)) = false ->
  currentVoiceChannel (this s) = Some (voiceChannelId (options (this s))) ->
  W <> voiceChannelId (options (this s)) ->
  Node.state (node (env s)) = Node.CONNECTED ->
  Node.ws (node (env s)) = true ->
  ws_send_error out (clock (env s)) = None ->
  exists s1,
    _handleMove out (Some W) d s = Ok tt s1
    /\ this s1
       = set_lastVoiceState (Some d)
           (set_currentVoiceChannel (Some W)
              (set_pending (pending (this s) ++ [after_pause "Moved out of the voice channel"])
                 (this s)))
    /\ node (env s1) = node (env s)
    /\ clock (env s1) = S (clock (env s))
    /\ node_sent (env s1) = (node_sent (env s) ++ [op_pause (guild (this s)) true])%list.
Proof.
  intros Hst Hm Hs Hc HW Hn Hw He.
  rewrite _handleMove_pause_behavior by (rewrite ?Hst; auto).
  rewrite Hst, Hc. cbn [PlayerState_eqb andb option_eqb negb].
  rewrite String.eqb_refl.
  assert (String.eqb W (voiceChannelId (options (this s))) = false) as E1
    by (apply String.eqb_neq; exact HW).
  assert (String.eqb (voiceChannelId (options (this s))) W = false) as E2
    by (apply String.eqb_neq; congruence).
  rewrite E1, E2. cbn [negb andb].
  set (ev := PLAYER_MOVED _ _ _).
  assert (exists s0, Player.emit ev s = Ok tt s0 /\ this s0 = this s
                     /\ node (env s0) = node (env s) /\ clock (env s0) = clock (env s)
                     /\ node_sent (env s0) = node_sent (env s))
    as (s0 & H0 & Ht & Hn0 & Hc0 & Hs0).
  { unfold Player.emit. destruct (listeners (this s)); eexists; eauto 10. }
  erewrite bind_eq by exact H0.
  erewrite bind_eq
    by (apply void_pause_written; rewrite ?Ht, ?Hn0, ?Hc0, ?Hst; auto).
  eexists. split; [reflexivity|]. cbn. rewrite Ht, Hn0, Hc0, Hs0. auto.
Qed.

(** The move of a paused bot into its channel. *)
Lemma moved_in d s :
  state (this s) = PAUSED ->
  moveBehavior (options (this s)) = behavior_pause ->
  truthy_obool (isStage (this s)) = false ->
  currentVoiceChannel (this s) <> Some (voiceChannelId (options (this s))) ->
  Node.state (node (env s)) = Node.CONNECTED ->
  Node.ws (node (env s)) = true ->
  ws_send_error out (clock (env s)) = None ->
  exists s1,
    _handleMove out (Some (voiceChannelId (options (this s)))) d s = Ok tt s1
    /\ this s1
       = set_lastVoiceState (Some d)
           (set_currentVoiceChannel (Some (voiceChannelId (options (this s))))
              (set_pending (pending (this s) ++ [after_resume "Moved into the voice channel"])
                 (this s)))
    /\ node (env s1) = node (env s)
    /\ clock (env s1) = S (clock (env s))
    /\ node_sent (env s1) = (node_sent (env s) ++ [op_pause (guild (this s)) false])%list.
Proof.
  intros Hst Hm Hs Hc Hn Hw He.
  rewrite _handleMove_pause_behavior by (rewrite ?Hst; auto).
  assert (option_eqb (Some (voiceChannelId (options (this s)))) (currentVoiceChannel (this s))
          = false) as E.
  { destruct (currentVoiceChannel (this s)) as [c|]; [|reflexivity].
    cbn [option_eqb]. apply String.eqb_neq. congruence. }
  rewrite Hst, E. cbn [PlayerState_eqb andb option_eqb negb].
  rewrite String.eqb_refl.
  set (ev := PLAYER_MOVED _ _ _).
  assert (exists s0, Player.emit ev s = Ok tt s0 /\ this s0 = this s
                     /\ node (env s0) = node (env s) /\ clock (env s0) = clock (env s)
                     /\ node_sent (env s0) = node_sent (env s))
    as (s0 & H0 & Ht & Hn0 & Hc0 & Hs0).
  { unfold Player.emit. destruct (listeners (this s)); eexists; eauto 10. }
  erewrite bind_eq by exact H0.
  erewrite bind_eq
    by (apply void_resume_written; rewrite ?Ht, ?Hn0, ?Hc0, ?Hst; auto).
  eexists. split; [reflexivity|]. cbn. rewrite Ht, Hn0, Hc0, Hs0. auto.
Qed.

(** What is left of a pause or of a resume that was not awaited. *)
Lemma resume_next_pause fuel reason rest s :
  pending (this s) = after_pause reason :: rest ->
  exists s1,
    resume_next out fuel s = Ok tt s1
    /\ this s1 = set_state PAUSED (set_pending rest (this s))
    /\ node (env s1) = node (env s)
    /\ clock (env s1) = clock (env s)
    /\ node_sent (env s1) = node_sent (env s).
Proof.
  intros H. unfold resume_next. erewrite bind_eq by reflexivity. rewrite H.
  unfold resume_cont. erewrite bind_eq by reflexivity.
  erewrite bind_eq by reflexivity. erewrite bind_eq by reflexivity.
  eexists. split; [reflexivity|]. cbn. auto.
Qed.

Lemma resume_next_resume fuel reason rest s :
  pending (this s) = after_resume reason :: rest ->
  exists s1,
    resume_next out fuel s = Ok tt s1
    /\ this s1 = set_state PLAYING (set_pending rest (this s))
    /\ node (env s1) = node (env s)
    /\ clock (env s1) = clock (env s)
    /\ node_sent (env s1) = node_sent (env s).
Proof.
  intros H. unfold resume_next. erewrite bind_eq by reflexivity. rewrite H.
  unfold resume_cont. erewrite bind_eq by reflexivity.
  erewrite bind_eq by reflexivity. erewrite bind_eq by reflexivity.
  eexists. split; [reflexivity|]. cbn. auto.
Qed.

End MoveFacts.

(** A player with the move behaviour [pause] that is moved out of its
    voice channel while it plays, and then moved back. The move out sends
    a pause to the node and, once that write is done, sets the player
    PAUSED; the move back sends a resume and sets the player PLAYING
    again. The player ends in its channel, and the node was sent the pause
    and the resume in that order. *)
Theorem moved_out_and_back_resumes (out : Outside) (fuel : nat) (W : Snowflake)
    (d1 d2 : Player.VoiceState) (s : Player.St) :
  Player.state (Player.this s) = Player.PLAYING ->
  Player.moveBehavior (Player.options (Player.this s)) = Player.behavior_pause ->
  Player.truthy_obool (Player.isStage (Player.this s)) = false ->
  Player.currentVoiceChannel (Player.this s)
  = Some (Player.voiceChannelId (Player.options (Player.this s))) ->
  W <> Player.voiceChannelId (Player.options (Player.this s)) ->
  Player.pending (Player.this s) = [] ->
  Node.state (node (Player.env s)) = Node.CONNECTED ->
  Node.ws (node (Player.env s)) = true ->
  (forall n, ws_send_error out n = None) ->
  exists s1 s2 s3 s4,
    Player._handleMove out (Some W) d1 s = Player.Ok tt s1
    /\ Player.state (Player.this s1) = Player.PLAYING
    /\ Player.resume_next out fuel s1 = Player.Ok tt s2
    /\ Player.state (Player.this s2) = Player.PAUSED
    /\ Player.currentVoiceChannel (Player.this s2) = Some W
    /\ Player._handleMove out (Some (Player.voiceChannelId (Player.options (Player.this s)))) d2 s2
       = Player.Ok tt s3
    /\ Player.resume_next out fuel s3 = Player.Ok tt s4
    /\ Player.state (Player.this s4) = Player.PLAYING
    /\ Player.currentVoiceChannel (Player.this s4)
       = Some (Player.voiceChannelId (Player.options (Player.this s)))
    /\ Player.pending (Player.this s4) = []
    /\ node_sent (Player.env s4)
       = (node_sent (Player.env s)
          ++ [op_pause (Player.guild (Player.this s)) true;
              op_pause (Player.guild (Player.this s)) false])%list.
Proof.
  intros Hst Hm Hs Hc HW Hp Hn Hw He.
  destruct (moved_out out W d1 s Hst Hm Hs Hc HW Hn Hw (He _))
    as (s1 & H1 & Ht1 & Hn1 & Hc1 & Hs1).
  rewrite Hp in Ht1. cbn [app] in Ht1.
  destruct (resume_next_pause out fuel "Moved out of the voice channel" [] s1)
    as (s2 & H2 & Ht2 & Hn2 & Hc2 & Hs2).
  { rewrite Ht1. reflexivity. }
  assert (Player.options (Player.this s2) = Player.options (Player.this s)) as Ho
    by (rewrite Ht2, Ht1; reflexivity).
  destruct (moved_in out d2 s2) as (s3 & H3 & Ht3 & Hn3 & Hc3 & Hs3).
  { rewrite Ht2. reflexivity. }
  { rewrite Ho. exact Hm. }
  { rewrite Ht2, Ht1. exact Hs. }
  { rewrite Ho, Ht2, Ht1. cbn. congruence. }
  { rewrite Hn2, Hn1. exact Hn. }
  { rewrite Hn2, Hn1. exact Hw. }
  { apply He. }
  rewrite Ho in H3, Ht3.
  destruct (resume_next_resume out fuel "Moved into the voice channel" [] s3)
    as (s4 & H4 & Ht4 & Hn4 & Hc4 & Hs4).
  { rewrite Ht3, Ht2, Ht1. reflexivity. }
  exists s1, s2, s3, s4.
  split; [exact H1|]. split; [rewrite Ht1; exact Hst|].
  split; [exact H2|]. split; [rewrite Ht2; reflexivity|].
  split; [rewrite Ht2, Ht1; reflexivity|].
  split; [exact H3|]. split; [exact H4|].
  split; [rewrite Ht4; reflexivity|].
  split; [rewrite Ht4, Ht3; reflexivity|].
  split; [rewrite Ht4; reflexivity|].
  rewrite Hs4, Hs3, Hs2, Hs1. unfold Player.guild. rewrite Ho.
  rewrite <- app_assoc. reflexivity.
Qed.

(** A playing bot that is moved to the channel "W" and back to "V". *)
Lemma moved_out_and_back_resumes_witness :
  exists s1 s2 s3 s4,
    Player._handleMove PlayerExamples.quiet (Some "W") PlayerExamples.moved_to_W
      (PlayerExamples.start_with Player.behavior_pause Player.PLAYING)
    = Player.Ok tt s1
    /\ Player.resume_next PlayerExamples.quiet 0 s1 = Player.Ok tt s2
    /\ Player._handleMove PlayerExamples.quiet (Some "V")
         {| Player.voice_channel_id := Some "V"; Player.suppress := false |} s2
       = Player.Ok tt s3
    /\ Player.resume_next PlayerExamples.quiet 0 s3 = Player.Ok tt s4
    /\ Player.state (Player.this s4) = Player.PLAYING
    /\ node_sent (Player.env s4) = [op_pause "G" true; op_pause "G" false].
Proof.
  destruct (moved_out_and_back_resumes PlayerExamples.quiet 0 "W" PlayerExamples.moved_to_W
              {| Player.voice_channel_id := Some "V"; Player.suppress := false |}
              (PlayerExamples.start_with Player.behavior_pause Player.PLAYING))
    as (s1 & s2 & s3 & s4 & H1 & _ & H2 & _ & _ & H3 & H4 & Hst & _ & _ & Hs);
    try reflexivity.
  - discriminate.
  - exists s1, s2, s3, s4.
    split; [exact H1|]. split; [exact H2|]. split; [exact H3|].
    split; [exact H4|]. split; [exact Hst|exact Hs].
Defined.

(** ** The payloads of the node *)

Section PayloadFacts.

Import Player PlayerSpec.

Variable out : Outside.
Variable decodeTracks_at : nat -> list string -> outcome (list Track).

(** The state in which an event is handled once its track is decoded. *)
Lemma decode_track_returns e l s :
  decodeTracks_at (clock (env s)) [e] = Returns l ->
  decode_track decodeTracks_at (Some e) s
  = Ok ((fun tr => {| decoded := tr; written_requester := requester_for (this s) tr |})
          <$> head l)
       (set_env (set_clock (S (clock (env s))) (env s)) s).
Proof.
  intros H. unfold decode_track, mbind, M_bind, next_answer, get.
  cbn [env set_env clock set_clock]. rewrite H. reflexivity.
Qed.

Lemma decode_track_throws e err s :
  decodeTracks_at (clock (env s)) [e] = Throws err ->
  decode_track decodeTracks_at (Some e) s
  = Throw err (set_env (set_clock (S (clock (env s))) (env s)) s).
Proof.
  intros H. unfold decode_track, mbind, M_bind, next_answer, get.
  cbn [env set_env clock set_clock]. rewrite H. reflexivity.
Qed.

(** [_handlePayload] on an event of the player's guild. *)
Lemma _handlePayload_event fuel encoded type s :
  _handlePayload out decodeTracks_at fuel (event (guild (this s)) encoded type) s
  = (tr ← decode_track decodeTracks_at encoded;
     match type with
     | TrackEndEvent reason =>
         update (set_position None) ;;
         update (set_state CONNECTED) ;;
         ev ← emit_track (TRACK_END (guild (this s)) tr reason);
         (if negb (String.eqb reason "STOPPED") && negb (String.eqb reason "REPLACED")
          then void__advanceQueue out fuel else skip_) ;;
         mret ev
     | TrackExceptionEvent message severity cause =>
         emit_track (TRACK_EXCEPTION (guild (this s)) tr message severity cause)
     | TrackStartEvent =>
         p ← get;
         (if truthy_obool (sentPausedPlay p)
          then update (set_state PAUSED) ;; update (set_sentPausedPlay None)
          else update (set_state PLAYING)) ;;
         emit_track (TRACK_START (guild p) tr)
     | TrackStuckEvent ms =>
         ev ← emit_track (TRACK_STUCK (guild (this s)) tr ms);
         _stop_catch out ;;
         void__advanceQueue out fuel ;;
         mret ev
     | OtherEvent => mret None
     end) s.
Proof.
  unfold _handlePayload. erewrite bind_eq by reflexivity.
  rewrite String.eqb_refl. reflexivity || (cbn [negb]; reflexivity).
Qed.

Lemma void__advanceQueue_eq fuel s s' :
  _advanceQueue out fuel s = Ok tt s' -> void__advanceQueue out fuel s = Ok tt s'.
Proof. unfold void__advanceQueue. intros ->. reflexivity. Qed.

End PayloadFacts.

(** A track end with the reason STOPPED or REPLACED does not advance the
    queue: the handler clears [position], sets the state CONNECTED and
    delivers TRACK_END; the queue and the queue index stay and nothing is
    written to the node. There is no check of the state: the player is set
    CONNECTED from any state, DESTROYED and DISCONNECTED included. *)
Lemma track_end_stopped (out : Outside)
    (decodeTracks_at : nat -> list string -> outcome (list Track)) (fuel : nat)
    (encoded reason : string) (tracks : list Track) (s : Player.St) :
  decodeTracks_at (clock (Player.env s)) [encoded] = Returns tracks ->
  reason = "STOPPED" \/ reason = "REPLACED" ->
  exists ev s',
    Player._handlePayload out decodeTracks_at fuel
      (Player.event (Player.guild (Player.this s)) (Some encoded)
         (Player.TrackEndEvent reason)) s
    = Player.Ok ev s'
    /\ Player.this s'
       = Player.set_state Player.CONNECTED (Player.set_position None (Player.this s))
    /\ node_sent (Player.env s') = node_sent (Player.env s)
    /\ events (Player.env s') = events (Player.env s)
    /\ ev = (if Player.listeners (Player.this s)
             then Some (Player.TRACK_END (Player.guild (Player.this s))
                          ((fun tr => {| Player.decoded := tr;
                                         Player.written_requester :=
                                           Player.requester_for (Player.this s) tr |})
                             <$> head tracks) reason)
             else None).
Proof.
  intros Hdec Hr. rewrite _handlePayload_event.
  erewrite bind_eq by (apply decode_track_returns; exact Hdec).
  assert (negb (String.eqb reason "STOPPED") && negb (String.eqb reason "REPLACED") = false)
    as -> by (destruct Hr as [-> | ->]; reflexivity).
  eexists _, _. split; [reflexivity|]. simpl. auto.
Qed.

(** A track end with any other reason (FINISHED, LOAD_FAILED, CLEANUP)
    advances the queue: the player is set CONNECTED with no position, and
    the queue index moves as the queue advance moves it (0 from null,
    unchanged under loop mode single, else the next index, wrapping to 0
    under loop mode queue and cleared under loop mode off past the last
    entry) when the entry there will play. The state stays CONNECTED until
    the node reports the start of the track. *)
Lemma track_end_advances (out : Outside)
    (decodeTracks_at : nat -> list string -> outcome (list Track)) (fuel : nat)
    (encoded reason : string) (tracks : list Track) (s : Player.St) :
  decodeTracks_at (clock (Player.env s)) [encoded] = Returns tracks ->
  reason <> "STOPPED" -> reason <> "REPLACED" ->
  let p := Player.this s in
  let target :=
    PlayerSpec.next_index (Player.loop p) (Player.queuePosition p)
      (List.length (Player.queue p)) in
  (forall j e, target = Some j -> Player.queue p !! j = Some e ->
               PlayerSpec.will_play out
                 (Player.set_env (set_clock (S (clock (Player.env s))) (Player.env s)) s) e) ->
  exists ev s',
    Player._handlePayload out decodeTracks_at (S fuel)
      (Player.event (Player.guild p) (Some encoded) (Player.TrackEndEvent reason)) s
    = Player.Ok ev s'
    /\ Player.state (Player.this s') = Player.CONNECTED
    /\ Player.queuePosition (Player.this s')
       = match target with
         | Some j => if bool_decide (is_Some (Player.queue p !! j)) then Some j else None
         | None => None
         end
    /\ Player.loop (Player.this s') = Player.loop p.
Proof.
  intros Hdec Hr1 Hr2 p target Hwill. subst p target.
  rewrite _handlePayload_event.
  erewrite bind_eq by (apply decode_track_returns; exact Hdec).
  erewrite bind_eq by reflexivity. erewrite bind_eq by reflexivity.
  erewrite bind_eq by reflexivity.
  apply String.eqb_neq in Hr1, Hr2. rewrite Hr1, Hr2. cbn [negb andb].
  match goal with |- context [Player.void__advanceQueue out (S fuel) ≫= _] =>
    match goal with |- exists ev s', (_ ≫= _) ?s1 = _ /\ _ =>
      destruct (_advanceQueue_to_chosen out fuel s1) as (s' & H & Hqp & Hl & Hst & _)
    end
  end.
  - reflexivity.
  - intros e He. simpl in He.
    apply (Hwill (PlayerSpec.chosen_index (Player.this s))); [|exact He].
    eapply chosen_index_is_next, He.
  - erewrite bind_eq by (apply void__advanceQueue_eq; exact H).
    eexists _, s'. split; [reflexivity|]. split; [exact Hst|]. split; [|exact Hl].
    rewrite Hqp. apply (chosen_index_next_index (Player.this s)).
Qed.

(** The end of a track. The handler clears [position], sets the state
    CONNECTED and delivers TRACK_END; there is no check of the state, so
    the player is set CONNECTED from any state, DESTROYED and DISCONNECTED
    included. With the reason STOPPED or REPLACED the queue is not
    advanced: the queue and the queue index stay and nothing is written to
    the node. With any other reason (FINISHED, LOAD_FAILED, CLEANUP) the
    queue is advanced: the index moves as the queue advance moves it (0
    from null, unchanged under loop mode single, else the next index,
    wrapping to 0 under loop mode queue and cleared under loop mode off
    past the last entry) when the entry there will play, and the state
    stays CONNECTED until the node reports the start of the track. *)
Theorem track_end_advances_unless_stopped (out : Outside)
    (decodeTracks_at : nat -> list string -> outcome (list Track)) (fuel : nat)
    (encoded reason : string) (tracks : list Track) (s : Player.St) :
  decodeTracks_at (clock (Player.env s)) [encoded] = Returns tracks ->
  let p := Player.this s in
  let target :=
    PlayerSpec.next_index (Player.loop p) (Player.queuePosition p)
      (List.length (Player.queue p)) in
  (reason = "STOPPED" \/ reason = "REPLACED" ->
   exists ev s',
     Player._handlePayload out decodeTracks_at (S fuel)
       (Player.event (Player.guild p) (Some encoded) (Player.TrackEndEvent reason)) s
     = Player.Ok ev s'
     /\ Player.this s' = Player.set_state Player.CONNECTED (Player.set_position None p)
     /\ node_sent (Player.env s') = node_sent (Player.env s)
     /\ events (Player.env s') = events (Player.env s)
     /\ ev = (if Player.listeners p
              then Some (Player.TRACK_END (Player.guild p)
                           ((fun tr => {| Player.decoded := tr;
                                          Player.written_requester :=
                                            Player.requester_for p tr |})
                              <$> head tracks) reason)
              else None))
  /\ (reason <> "STOPPED" -> reason <> "REPLACED" ->
      (forall j e, target = Some j -> Player.queue p !! j = Some e ->
                   PlayerSpec.will_play out
                     (Player.set_env (set_clock (S (clock (Player.env s))) (Player.env s)) s)
                     e) ->
      exists ev s',
        Player._handlePayload out decodeTracks_at (S fuel)
          (Player.event (Player.guild p) (Some encoded) (Player.TrackEndEvent reason)) s
        = Player.Ok ev s'
        /\ Player.state (Player.this s') = Player.CONNECTED
        /\ Player.queuePosition (Player.this s')
           = match target with
             | Some j => if bool_decide (is_Some (Player.queue p !! j)) then Some j else None
             | None => None
             end
        /\ Player.loop (Player.this s') = Player.loop p).
Proof.
  intros Hdec p target. split.
  - intros Hr. exact (track_end_stopped out decodeTracks_at (S fuel) encoded reason tracks s
                        Hdec Hr).
  - intros Hr1 Hr2 Hwill.
    exact (track_end_advances out decodeTracks_at fuel encoded reason tracks s
             Hdec Hr1 Hr2 Hwill).
Qed.

(** A destroyed player whose track is reported as stopped is CONNECTED
    again; and under loop mode off, the natural end of the first of two
    tracks moves the index to the second. *)
Lemma track_end_advances_unless_stopped_witness :
  (exists ev s',
      Player._handlePayload PlayerExamples.quiet PlayerExamples.decodes 1
        (Player.event "G" (Some "AAAA") (Player.TrackEndEvent "STOPPED"))
        PlayerExamples.destroyed_once
      = Player.Ok ev s'
      /\ Player.state (Player.this PlayerExamples.destroyed_once) = Player.DESTROYED
      /\ Player.state (Player.this s') = Player.CONNECTED)
  /\ (exists ev s',
      Player._handlePayload PlayerExamples.quiet PlayerExamples.decodes 1
        (Player.event "G" (Some "AAAA") (Player.TrackEndEvent "FINISHED"))
        (PlayerExamples.start Player.Off Player.PLAYING
           [PlayerExamples.song "AAAA"; PlayerExamples.song "BBBB"] (Some 0))
      = Player.Ok ev s'
      /\ Player.queuePosition (Player.this s') = Some 1).
Proof.
  split.
  - destruct (proj1 (track_end_advances_unless_stopped PlayerExamples.quiet
                       PlayerExamples.decodes 0 "AAAA" "STOPPED" _
                       PlayerExamples.destroyed_once eq_refl) (or_introl eq_refl))
      as (ev & s' & H & Ht & _).
    exists ev, s'. split; [exact H|]. rewrite Ht. split; reflexivity.
  - destruct (proj2 (track_end_advances_unless_stopped PlayerExamples.quiet
                       PlayerExamples.decodes 0 "AAAA" "FINISHED" _
                       (PlayerExamples.start Player.Off Player.PLAYING
                          [PlayerExamples.song "AAAA"; PlayerExamples.song "BBBB"] (Some 0))
                       eq_refl) ltac:(discriminate) ltac:(discriminate))
      as (ev & s' & H & _ & Hqp & _).
    + intros j e Hj He. vm_compute in Hj. injection Hj as <-.
      vm_compute in He. injection He as <-. simpl. discriminate.
    + exists ev, s'. split; [exact H|exact Hqp].
Defined.


(** The queue advance does not touch [position]. *)
Section PositionFacts.

Import Player PlayerSpec.

Variable out : Outside.

Lemma _play_catch_keeps_position tr :
  keeps (fun s => position (this s)) (_play_catch out tr).
Proof.
  intros s. unfold _play_catch.
  assert (keeps (fun s => position (this s)) (_play out tr None)) as K
    by (unfold _play; repeat keeps_step).
  specialize (K s). destruct (_play out tr None s); simpl in *; exact K.
Qed.

Lemma _advanceQueue_keeps_position fuel :
  keeps (fun s => position (this s)) (_advanceQueue out fuel).
Proof.
  induction fuel as [|fuel IH]; cbn [_advanceQueue]; [apply keeps_stuck|].
  unfold advance_index, resolve_at.
  repeat (keeps_step || apply _play_catch_keeps_position || apply IH).
Qed.

End PositionFacts.

(** A stuck track. The handler delivers TRACK_STUCK, stops the player and
    advances the queue: with a node that takes the stop, the player is
    CONNECTED and the queue index has moved as the queue advance moves it
    (0 from null, unchanged under loop mode single, else the next index,
    wrapping to 0 under loop mode queue and cleared under loop mode off
    past the last entry) when the entry there will play. There is no
    check of the state: from any state of the player, DESTROYED included,
    the player is CONNECTED afterwards. *)
Theorem track_stuck_stops_and_advances (out : Outside)
    (decodeTracks_at : nat -> list string -> outcome (list Track)) (fuel : nat)
    (encoded : string) (thresholdMs : Z) (tracks : list Track) (s : Player.St) :
  decodeTracks_at (clock (Player.env s)) [encoded] = Returns tracks ->
  Node.state (node (Player.env s)) = Node.CONNECTED ->
  Node.ws (node (Player.env s)) = true ->
  ws_send_error out (S (clock (Player.env s))) = None ->
  let p := Player.this s in
  let target :=
    PlayerSpec.next_index (Player.loop p) (Player.queuePosition p)
      (List.length (Player.queue p)) in
  (forall j e, target = Some j -> Player.queue p !! j = Some e ->
               PlayerSpec.will_play out
                 (Player.set_env (set_clock (S (S (clock (Player.env s)))) (Player.env s)) s)
                 e) ->
  exists ev s',
    Player._handlePayload out decodeTracks_at (S fuel)
      (Player.event (Player.guild p) (Some encoded) (Player.TrackStuckEvent thresholdMs)) s
    = Player.Ok ev s'
    /\ ev = (if Player.listeners p
             then Some (Player.TRACK_STUCK (Player.guild p)
                          ((fun tr => {| Player.decoded := tr;
                                         Player.written_requester :=
                                           Player.requester_for p tr |})
                             <$> head tracks) thresholdMs)
             else None)
    /\ Player.state (Player.this s') = Player.CONNECTED
    /\ Player.position (Player.this s') = None
    /\ Player.queuePosition (Player.this s')
       = match target with
         | Some j => if bool_decide (is_Some (Player.queue p !! j)) then Some j else None
         | None => None
         end
    /\ Player.loop (Player.this s') = Player.loop p.
Proof.
  intros Hdec Hc Hw He p target Hwill. subst p target.
  rewrite _handlePayload_event.
  erewrite bind_eq by (apply decode_track_returns; exact Hdec).
  erewrite bind_eq by reflexivity.
  erewrite bind_eq.
  2:{ unfold Player._stop_catch. rewrite _stop_written by assumption. reflexivity. }
  match goal with |- context [Player.void__advanceQueue out (S fuel) ≫= _] =>
    match goal with |- exists ev s', (_ ≫= _) ?s1 = _ /\ _ =>
      destruct (_advanceQueue_to_chosen out fuel s1) as (s' & H & Hqp & Hl & Hst & _)
    end
  end.
  - reflexivity.
  - intros e He'. simpl in He'.
    pose proof (Hwill (PlayerSpec.chosen_index (Player.this s)) e
                  (chosen_index_is_next (Player.this s) e He') He') as W.
    destruct e; exact W.
  - erewrite bind_eq by (apply void__advanceQueue_eq; exact H).
    eexists _, s'. split; [reflexivity|]. split; [reflexivity|].
    split; [exact Hst|]. split; [|split; [|exact Hl]].
    + exact (keeps_Ok _ _ _ _ _ (_advanceQueue_keeps_position out (S fuel)) H).
    + rewrite Hqp. apply (chosen_index_next_index (Player.this s)).
Qed.

(** A track that is stuck at the head of a queue of two under loop mode
    off: the queue moves on to the second track. *)
Lemma track_stuck_stops_and_advances_witness :
  exists ev s',
    Player._handlePayload PlayerExamples.quiet PlayerExamples.decodes 1
      (Player.event "G" (Some "AAAA") (Player.TrackStuckEvent 10000))
      (PlayerExamples.start Player.Off Player.PLAYING
         [PlayerExamples.song "AAAA"; PlayerExamples.song "BBBB"] (Some 0))
    = Player.Ok ev s'
    /\ Player.state (Player.this s') = Player.CONNECTED
    /\ Player.queuePosition (Player.this s') = Some 1.
Proof.
  destruct (track_stuck_stops_and_advances PlayerExamples.quiet PlayerExamples.decodes 0
              "AAAA" 10000 _
              (PlayerExamples.start Player.Off Player.PLAYING
                 [PlayerExamples.song "AAAA"; PlayerExamples.song "BBBB"] (Some 0))
              eq_refl eq_refl eq_refl eq_refl)
    as (ev & s' & H & _ & Hst & _ & Hqp & _).
  - intros j e Hj He. vm_compute in Hj. injection Hj as <-.
    vm_compute in He. injection He as <-. simpl. discriminate.
  - exists ev, s'. split; [exact H|]. split; [exact Hst|exact Hqp].
Defined.

(** The start of a track after a play. The handler of the track start
    sets the state PAUSED when [sentPausedPlay] is set and PLAYING
    otherwise, and clears the flag. So a play whose payload was paused
    starts PAUSED; and a flag left by an earlier paused play that never
    started makes the next track start PAUSED as well. *)
Theorem track_start_after_play (out : Outside)
    (decodeTracks_at : nat -> list string -> outcome (list Track)) (fuel : nat)
    (tr : Track) (opts : option PlayOptions) (encoded : string) (tracks : list Track)
    (s s1 : Player.St) :
  Player._play out tr opts s = Player.Ok tt s1 ->
  decodeTracks_at (clock (Player.env s1)) [encoded] = Returns tracks ->
  exists o ev s2,
    node_sent (Player.env s1)
    = (node_sent (Player.env s) ++ [op_play (Player.guild (Player.this s)) (track tr) o])%list
    /\ Player._handlePayload out decodeTracks_at fuel
         (Player.event (Player.guild (Player.this s1)) (Some encoded) Player.TrackStartEvent) s1
       = Player.Ok ev s2
    /\ Player.state (Player.this s2)
       = (if Player.truthy_obool (opt_pause o)
             || Player.truthy_obool (Player.sentPausedPlay (Player.this s))
          then Player.PAUSED else Player.PLAYING)
    /\ Player.truthy_obool (Player.sentPausedPlay (Player.this s2)) = false
    /\ Player.queue (Player.this s2) = Player.queue (Player.this s)
    /\ Player.queuePosition (Player.this s2) = Player.queuePosition (Player.this s).
Proof.
  intros Hplay Hdec.
  destruct (_play_frame out tr opts s s1 Hplay)
    as (o & Hsent & _ & _ & _ & _ & Hflag & _ & _ & Hq & Hqp & _).
  exists o. rewrite _handlePayload_event.
  erewrite bind_eq by (apply decode_track_returns; exact Hdec).
  erewrite bind_eq by reflexivity.
  cbn [Player.this Player.set_env].
  rewrite Hflag.
  destruct (Player.truthy_obool (opt_pause o)) eqn:Ep; cbn [orb Player.truthy_obool].
  - eexists _, _. split; [exact Hsent|]. split; [reflexivity|]. simpl. auto.
  - destruct (Player.truthy_obool (Player.sentPausedPlay (Player.this s))) eqn:Es.
    + eexists _, _. split; [exact Hsent|]. split; [reflexivity|]. simpl. auto.
    + eexists _, _. split; [exact Hsent|]. split; [reflexivity|].
      cbn [Player.this Player.set_this Player.set_env Player.state Player.set_state
           Player.sentPausedPlay Player.queue Player.queuePosition].
      rewrite Hflag, Es. auto.
Qed.

(** A play with the option [pause] starts PAUSED. *)
Lemma track_start_after_play_witness :
  exists ev s2,
    Player._handlePayload PlayerExamples.quiet PlayerExamples.decodes 0
      (Player.event "G" (Some "AAAA") Player.TrackStartEvent)
      (Player.final
         (Player._play PlayerExamples.quiet (Examples.track_of "AAAA" "Artist" 1000)
            (Some (Player.with_pause (Some true) no_options)) PlayerExamples.joined))
    = Player.Ok ev s2
    /\ Player.state (Player.this s2) = Player.PAUSED.
Proof.
  assert (Player._play PlayerExamples.quiet (Examples.track_of "AAAA" "Artist" 1000)
            (Some (Player.with_pause (Some true) no_options)) PlayerExamples.joined
          = Player.Ok tt
              (Player.final
                 (Player._play PlayerExamples.quiet (Examples.track_of "AAAA" "Artist" 1000)
                    (Some (Player.with_pause (Some true) no_options))
                    PlayerExamples.joined))) as H
    by (vm_compute; reflexivity).
  destruct (track_start_after_play PlayerExamples.quiet PlayerExamples.decodes 0 _ _
              "AAAA" _ _ _ H eq_refl) as (o & ev & s2 & Hs & H2 & Hst & _).
  exists ev, s2. split; [exact H2|]. rewrite Hst.
  assert (opt_pause o = Some true) as ->; [|reflexivity].
  vm_compute in Hs. injection Hs as <-. reflexivity.
Defined.

(** What [_handlePayload] ignores, and the player update: a payload of
    another guild, and a payload that is neither a player update nor an
    event, change nothing and deliver nothing; a player update of the
    player's guild sets [position], to null when the payload has none, in
    every state of the player. *)
Lemma handlePayload_ignored (out : Outside)
    (decodeTracks_at : nat -> list string -> outcome (list Track)) (fuel : nat)
    (s : Player.St) :
  (forall g ms,
      g <> Player.guild (Player.this s) ->
      Player._handlePayload out decodeTracks_at fuel (Player.playerUpdate g ms) s
      = Player.Ok None s)
  /\ (forall g encoded type,
      g <> Player.guild (Player.this s) ->
      Player._handlePayload out decodeTracks_at fuel (Player.event g encoded type) s
      = Player.Ok None s)
  /\ (forall g,
      Player._handlePayload out decodeTracks_at fuel (Player.otherOp g) s = Player.Ok None s)
  /\ (forall ms,
      Player._handlePayload out decodeTracks_at fuel
        (Player.playerUpdate (Player.guild (Player.this s)) ms) s
      = Player.Ok None (Player.set_this (Player.set_position ms (Player.this s)) s)).
Proof.
  unfold Player._handlePayload, mbind, Player.M_bind, Player.get.
  split; [|split; [|split]].
  - intros g ms Hg. apply String.eqb_neq in Hg. rewrite Hg. reflexivity.
  - intros g encoded type Hg. apply String.eqb_neq in Hg. rewrite Hg. reflexivity.
  - reflexivity.
  - intros ms. rewrite String.eqb_refl. reflexivity.
Qed.

(** An event whose track cannot be decoded is dropped: the handler awaits
    [decodeTracks] before it looks at the type of the event, so when that
    rejects the handler rejects with the same error and nothing of the
    player changes. For a track end this means that [position] and the
    state are not reset and the queue is not advanced. *)
Lemma undecodable_event_dropped (out : Outside)
    (decodeTracks_at : nat -> list string -> outcome (list Track)) (fuel : nat)
    (encoded : string) (type : Player.EventType) (err : exn) (s : Player.St) :
  decodeTracks_at (clock (Player.env s)) [encoded] = Throws err ->
  exists s',
    Player._handlePayload out decodeTracks_at fuel
      (Player.event (Player.guild (Player.this s)) (Some encoded) type) s
    = Player.Throw err s'
    /\ Player.this s' = Player.this s
    /\ node_sent (Player.env s') = node_sent (Player.env s)
    /\ events (Player.env s') = events (Player.env s).
Proof.
  intros Hdec. rewrite _handlePayload_event.
  erewrite bind_throw_eq by (apply decode_track_throws; exact Hdec).
  eexists. split; [reflexivity|]. simpl. auto.
Qed.

(** What [_handlePayload] ignores and what it drops. A payload of another
    guild, and a payload that is neither a player update nor an event,
    change nothing and deliver nothing; a player update of the player's
    guild sets [position], to null when the payload has none, in every
    state of the player. An event whose track cannot be decoded is
    dropped: the handler awaits [decodeTracks] before it looks at the type
    of the event, so when that rejects the handler rejects with the same
    error and nothing of the player changes; for a track end this means
    that [position] and the state are not reset and the queue is not
    advanced. *)
Theorem handlePayload_ignores_and_drops (out : Outside)
    (decodeTracks_at : nat -> list string -> outcome (list Track)) (fuel : nat)
    (s : Player.St) :
  (forall g ms,
      g <> Player.guild (Player.this s) ->
      Player._handlePayload out decodeTracks_at fuel (Player.playerUpdate g ms) s
      = Player.Ok None s)
  /\ (forall g encoded type,
      g <> Player.guild (Player.this s) ->
      Player._handlePayload out decodeTracks_at fuel (Player.event g encoded type) s
      = Player.Ok None s)
  /\ (forall g,
      Player._handlePayload out decodeTracks_at fuel (Player.otherOp g) s = Player.Ok None s)
  /\ (forall ms,
      Player._handlePayload out decodeTracks_at fuel
        (Player.playerUpdate (Player.guild (Player.this s)) ms) s
      = Player.Ok None (Player.set_this (Player.set_position ms (Player.this s)) s))
  /\ (forall encoded type err,
      decodeTracks_at (clock (Player.env s)) [encoded] = Throws err ->
      exists s',
        Player._handlePayload out decodeTracks_at fuel
          (Player.event (Player.guild (Player.this s)) (Some encoded) type) s
        = Player.Throw err s'
        /\ Player.this s' = Player.this s
        /\ node_sent (Player.env s') = node_sent (Player.env s)
        /\ events (Player.env s') = events (Player.env s)).
Proof.
  destruct (handlePayload_ignored out decodeTracks_at fuel s) as (H1 & H2 & H3 & H4).
  split; [exact H1|]. split; [exact H2|]. split; [exact H3|]. split; [exact H4|].
  intros encoded type err Hdec. apply undecodable_event_dropped, Hdec.
Qed.

(** With no node to decode on, the natural end of a track leaves the
    player PLAYING. *)
Lemma handlePayload_ignores_and_drops_witness :
  exists s',
    Player._handlePayload PlayerExamples.quiet PlayerExamples.decode_fails 1
      (Player.event "G" (Some "AAAA") (Player.TrackEndEvent "FINISHED"))
      (PlayerExamples.start Player.Off Player.PLAYING
         [PlayerExamples.song "AAAA"; PlayerExamples.song "BBBB"] (Some 0))
    = Player.Throw (Error "No available nodes to decode the track") s'
    /\ Player.state (Player.this s') = Player.PLAYING
    /\ Player.queuePosition (Player.this s') = Some 0.
Proof.
  destruct (proj2 (proj2 (proj2 (proj2
              (handlePayload_ignores_and_drops PlayerExamples.quiet
                 PlayerExamples.decode_fails 1
                 (PlayerExamples.start Player.Off Player.PLAYING
                    [PlayerExamples.song "AAAA"; PlayerExamples.song "BBBB"] (Some 0))))))
              "AAAA" (Player.TrackEndEvent "FINISHED") _ eq_refl) as (s' & H & Ht & _).
  exists s'. split; [exact H|]. rewrite Ht. split; reflexivity.
Defined.

(** The requester of the track of a track event. The handler writes on the
    decoded track the requester of the current entry when their titles are
    equal. Otherwise it writes the first entry of the queue that has the
    title of the track: the entry itself, not the requester of that entry;
    and [undefined] when the queue has no such entry. *)
Theorem track_event_requester (out : Outside)
    (decodeTracks_at : nat -> list string -> outcome (list Track)) (fuel : nat)
    (encoded message severity cause : string) (tr : Track) (rest : list Track)
    (s : Player.St) :
  decodeTracks_at (clock (Player.env s)) [encoded] = Returns (tr :: rest) ->
  Player.listeners (Player.this s) = true ->
  exists r s',
    Player._handlePayload out decodeTracks_at fuel
      (Player.event (Player.guild (Player.this s)) (Some encoded)
         (Player.TrackExceptionEvent message severity cause)) s
    = Player.Ok
        (Some (Player.TRACK_EXCEPTION (Player.guild (Player.this s))
                 (Some {| Player.decoded := tr; Player.written_requester := r |})
                 message severity cause)) s'
    /\ Player.this s' = Player.this s
    /\ (forall current,
           Player.currentTrack (Player.this s) = Some current ->
           Player.entry_title current = title (info tr) ->
           r = Player.requester_of (Player.entry_requester current))
    /\ ((forall current,
            Player.currentTrack (Player.this s) = Some current ->
            Player.entry_title current <> title (info tr)) ->
        (forall before e after,
            Player.queue (Player.this s) = (before ++ e :: after)%list ->
            Player.entry_title e = title (info tr) ->
            Forall (fun x => Player.entry_title x <> title (info tr)) before ->
            r = Player.requester_entry e)
        /\ (Forall (fun x => Player.entry_title x <> title (info tr))
              (Player.queue (Player.this s)) ->
            r = Player.requester_undefined)).
Proof.
  intros Hdec Hl. rewrite _handlePayload_event.
  erewrite bind_eq by (apply decode_track_returns; exact Hdec).
  unfold Player.emit_track, mbind, Player.M_bind, Player.get.
  cbn [Player.this Player.set_env]. rewrite Hl.
  eexists _, _. split; [reflexivity|]. split; [reflexivity|].
  unfold Player.requester_for. split.
  - intros current -> Ht. rewrite Ht, String.eqb_refl. reflexivity.
  - intros Hcur.
    assert (forall l,
               match Player.currentTrack (Player.this s) with
               | Some current =>
                   if String.eqb (Player.entry_title current) (title (info tr))
                   then Player.requester_of (Player.entry_requester current)
                   else l
               | None => l
               end = l) as Hsame.
    { intros l. destruct (Player.currentTrack (Player.this s)) as [current|]; [|reflexivity].
      specialize (Hcur current eq_refl). apply String.eqb_neq in Hcur. rewrite Hcur.
      reflexivity. }
    cbv zeta. rewrite Hsame. split.
    + intros before e after -> He Hb.
      induction before as [|x before IH]; simpl.
      * apply String.eqb_eq in He. rewrite He. reflexivity.
      * apply Forall_cons in Hb as [Hx Hb]. apply String.eqb_neq in Hx. rewrite Hx.
        apply IH, Hb.
    + intros Hall. induction Hall as [|x l Hx Hall IH]; [reflexivity|].
      simpl. apply String.eqb_neq in Hx. rewrite Hx. exact IH.
Qed.

(** The second track of the queue raises an exception while the first is
    current: the event carries the second entry as the requester. *)
Lemma track_event_requester_witness :
  exists s',
    Player._handlePayload PlayerExamples.quiet Examples.decodes_titled 0
      (Player.event "G" (Some "Other") (Player.TrackExceptionEvent "m" "COMMON" "c"))
      (PlayerExamples.start Player.Off Player.PLAYING
         [PlayerExamples.song "AAAA"; EPartial (Examples.titled "Other")] (Some 0))
    = Player.Ok
        (Some (Player.TRACK_EXCEPTION "G"
                 (Some {| Player.decoded := Examples.decoded_titled "Other";
                          Player.written_requester :=
                            Player.requester_entry
                              (EPartial (Examples.titled "Other")) |})
                 "m" "COMMON" "c")) s'.
Proof.
  destruct (track_event_requester PlayerExamples.quiet Examples.decodes_titled 0
              "Other" "m" "COMMON" "c" (Examples.decoded_titled "Other") []
              (PlayerExamples.start Player.Off Player.PLAYING
                 [PlayerExamples.song "AAAA"; EPartial (Examples.titled "Other")]
                 (Some 0))
              eq_refl eq_refl) as (r & s' & H & _ & _ & Hr).
  destruct Hr as [Hr _].
  - intros current [= <-]. simpl. discriminate.
  - rewrite (Hr [PlayerExamples.song "AAAA"] (EPartial (Examples.titled "Other")) []
               eq_refl eq_refl) in H.
    + exists s'. exact H.
    + constructor; [simpl; discriminate|constructor].
Defined.

(** ** The life cycle of a node *)

Section SocketFacts.

Import NodeLifecycle NodeSpec.

Variable out : Outside.

(** The state of the node after a run of the retry interval. *)
Lemma reconnect_tick_state w :
  Node.reconnectTimeout (node (shared w)) = true ->
  Node.state (node (shared (reconnect_tick out w))) = Node.DESTROYED
  \/ Node.state (node (shared (reconnect_tick out w))) = Node.RECONNECTING.
Proof.
  intros Ht. unfold reconnect_tick. rewrite Ht. cbn [negb].
  destruct (negb _ && _).
  - left. apply Node_destroy_facts.
  - right. unfold connect, update_node, emit, node_emit. simpl.
    destruct (Node.listeners (node (shared w))); reflexivity.
Qed.

Lemma act_keeps_socket a w :
  socket_invariant w -> socket_invariant (act out a w).
Proof.
  unfold socket_invariant. intros Hw.
  destruct a as [|reason| |[error|]| |error|code reason]; cbn [act fail].
  - unfold connect.
    destruct (negb _ && negb _); [exact Hw|].
    intros _. destruct (negb _); reflexivity.
  - intros H. pose proof (Node_destroy_facts out reason w) as [Hd _].
    rewrite Hd in H. discriminate.
  - destruct (Node.reconnectTimeout (node (shared w))) eqn:Ht.
    + intros H. destruct (reconnect_tick_state w Ht) as [Hs|Hs];
        rewrite Hs in H; discriminate.
    + unfold reconnect_tick. rewrite Ht. exact Hw.
  - unfold attempt_error.
    destruct (Node.ws (node (shared w))) eqn:Hws; cbn [negb];
      [|intros H; specialize (Hw H); congruence].
    unfold count_failure, update_node, emit, node_emit. simpl.
    destruct (Node.state (node (shared w))) eqn:Hst, error as [e|]; simpl;
      repeat match goal with
             | |- context [if ?b then _ else _] => destruct b; simpl
             end; rewrite ?Hst; discriminate.
  - unfold attempt_timeout.
    destruct (Node.attempt (node (shared w))) eqn:Ha; cbn [negb]; [|exact Hw].
    unfold count_failure, update_node, emit, node_emit.
    destruct (Node.listeners (node (shared w))); simpl; rewrite Ha; simpl; exact Hw.
  - unfold attempt_open.
    destruct (Node.ws (node (shared w))) eqn:Hws; cbn [negb];
      [|intros H; specialize (Hw H); congruence].
    intros _. unfold update_node, emit, node_emit. simpl.
    destruct (Node.listeners (node (shared w))); simpl; exact Hws.
  - unfold _onError, emit, node_emit. destruct error as [e|]; [|exact Hw].
    destruct (Node.listeners (node (shared w))); simpl; exact Hw.
  - destruct (Node.ws (node (shared w))) eqn:Hws;
      [|intros H; specialize (Hw H); congruence].
    unfold _onClose, reconnect, update_node, emit, node_emit. simpl.
    destruct (Node.listeners (node (shared w))), (negb _ && negb _); simpl;
      intros H; first [discriminate H | exact Hws].
Qed.

Lemma run_keeps_socket l : forall w,
  socket_invariant w -> socket_invariant (run out l w).
Proof.
  unfold run. induction l as [|a l IH]; intros w Hw; [exact Hw|].
  simpl. apply IH, act_keeps_socket, Hw.
Qed.

End SocketFacts.

(** *** What [destroy] writes to the socket *)

Section UnwrittenFacts.

Import NodeLifecycle NodeSpec.

Variable out : Outside.

(** [destroy()] of a player whose node holds no socket writes nothing:
    the promise of its [node.send] rejects when the node is not
    CONNECTED and never settles when it is. *)
Lemma Player_destroy_unwritten reason s a s' :
  Player.destroy out reason s = Player.Ok a s' ->
  Node.ws (node (Player.env s)) = false ->
  node_sent (Player.env s') = node_sent (Player.env s)
  /\ node (Player.env s') = node (Player.env s).
Proof.
  intros H Hw. apply destroy_inv in H as (s1 & b & s2 & s7 & H1 & H2 & H7 & ->).
  pose proof (keeps_Ok _ _ _ _ _ (first_step_keeps out _) H1) as K1.
  pose proof (keeps_Ok _ _ _ _ _ (emit_DESTROYED_keeps out reason) H7) as K7.
  unfold PlayerSpec.tables in *. simpl in K1, K7.
  injection K1 as _ _ _ _ _ _ _ _ _ _ Hnode1 _ _ Hns1.
  injection K7 as _ _ _ _ _ _ _ _ _ Hnode7 _ Hns7.
  assert (Player.env s2 = Player.env s1) as E2.
  { unfold Player.void_send, Node_send in H2. rewrite Hnode1, Hw in H2.
    destruct (negb _); injection H2 as _ <-; reflexivity. }
  simpl. rewrite Hns7, Hnode7, E2, Hns1, Hnode1. auto.
Qed.

Lemma destroy_player_unwritten reason w a :
  Node.ws (node (shared w)) = false ->
  node_sent (shared (destroy_player out reason w a)) = node_sent (shared w).
Proof.
  intros Hw. unfold destroy_player.
  destruct (heap w !! a) as [p|]; [|reflexivity].
  destruct (destroy_returns out reason {| Player.this := p; Player.env := shared w |})
    as (s' & H).
  rewrite H. apply Player_destroy_unwritten in H as [H _]; [exact H|exact Hw].
Qed.

Lemma foldl_destroy_unwritten reason l : forall w,
  Node.ws (node (shared w)) = false ->
  node_sent (shared (foldl (destroy_player out reason) w l)) = node_sent (shared w).
Proof.
  induction l as [|a l IH]; intros w Hw; [reflexivity|].
  simpl. rewrite IH.
  - apply destroy_player_unwritten, Hw.
  - destruct (destroy_player_node out reason w a) as [-> _]. exact Hw.
Qed.

(** [destroy] on a node writes nothing to its socket. *)
Lemma Node_destroy_unwritten reason w :
  node_sent (shared (destroy out reason w)) = node_sent (shared w).
Proof.
  unfold destroy.
  set (w1 := if Node.ws (node (shared w))
             then set_shared (set_node_closed (node_closed (shared w) ++ [(1000%Z, "destroy")])
                    (shared w)) w
             else w).
  set (w4 := update_node (Node.set_reconnectTimeout false)
               (update_node (Node.set_reconnectAttempts 0%Z)
                  (update_node (Node.set_ws false) w1))).
  assert (node_sent (shared w4) = node_sent (shared w)
          /\ Node.ws (node (shared w4)) = false) as (Hs4 & Hw4).
  { subst w4 w1. destruct (Node.ws (node (shared w))); simpl; auto. }
  cbv zeta.
  set (w5 := foldl (destroy_player out "Attached node destroyed") w4 (attached w4)).
  pose proof (foldl_destroy_unwritten "Attached node destroyed" (attached w4) w4 Hw4) as H5.
  fold w5 in H5. rewrite <- Hs4, <- H5.
  clearbody w5. clear.
  destruct w5 as [h5 [n5 ns nc gs as_ ev mp mn c]].
  unfold emit, node_emit, update_node.
  cbn [heap shared node set_shared set_node Node.set_state Node.set_listeners
       Node.listeners].
  destruct n5 as [o i st ra rt ws_ at_ ls].
  destruct ls; reflexivity.
Qed.

End UnwrittenFacts.

(** A node and its socket. Between the things that happen to a node (calls
    of [connect] and [destroy], runs of the retry interval, failures and
    successes of attempts, errors and closes of the socket), from its
    construction on, a node that is CONNECTED holds a socket: a [send]
    that starts then resolves or rejects. This is not so inside [destroy]
    itself, which drops the socket before it destroys the players of the
    node and sets the state only after: [destroy] writes nothing to the
    socket, so the payload that the [destroy()] of each of these players
    sends is never written, and on a node that was CONNECTED its promise
    never settles. *)
Theorem connected_node_has_socket (out : Outside) (o : Node.NodeOptions) (i : nat)
    (n : Node.t) (w : NodeLifecycle.World) (l : list NodeLifecycle.action) (msg : Frame) :
  Node.new (Some o) (Some i) true = Returns n ->
  node (NodeLifecycle.shared w) = n ->
  let w' := NodeLifecycle.run out l w in
  NodeSpec.socket_invariant w'
  /\ fst (Node_send out msg (NodeLifecycle.shared w')) <> Unsettled
  /\ (forall reason,
      node_sent (NodeLifecycle.shared (NodeLifecycle.destroy out reason w'))
      = node_sent (NodeLifecycle.shared w'))
  /\ (Node.state (node (NodeLifecycle.shared w')) = Node.CONNECTED ->
      fst (Node_send out msg
             (NodeLifecycle.shared
                (NodeLifecycle.update_node (Node.set_ws false) w')))
      = Unsettled).
Proof.
  intros Hnew Hn w'.
  assert (NodeSpec.socket_invariant w') as Hinv.
  { apply run_keeps_socket. unfold NodeSpec.socket_invariant. rewrite Hn.
    unfold Node.new in Hnew. cbn [negb] in Hnew.
    destruct (_ >? _)%Z; [discriminate|]. injection Hnew as <-. discriminate. }
  split; [exact Hinv|]. split; [|split].
  - unfold NodeSpec.socket_invariant in Hinv. unfold Node_send.
    destruct (Node.state (node (NodeLifecycle.shared w')));
      cbn [Node.NodeState_eqb negb fst]; try discriminate.
    rewrite (Hinv eq_refl).
    destruct (ws_send_error out _); discriminate.
  - intros reason. apply Node_destroy_unwritten.
  - intros Hc. unfold Node_send, NodeLifecycle.update_node. simpl. rewrite Hc. reflexivity.
Qed.

(** A node that connects, loses its socket and reconnects at the second
    attempt writes the payload it is given. *)
Lemma connected_node_has_socket_witness :
  fst (Node_send PlayerExamples.quiet (op_stop "G")
         (NodeLifecycle.shared
            (NodeLifecycle.run PlayerExamples.quiet
               [NodeLifecycle.call_connect; NodeLifecycle.attempt_opens;
                NodeLifecycle.socket_close 1006 "";
                NodeLifecycle.interval_runs;
                NodeLifecycle.attempt_fails NodeLifecycle.by_timeout;
                NodeLifecycle.interval_runs; NodeLifecycle.attempt_opens]
               ReconnectExamples.new_world)))
  = Sent
  /\ fst (Node_send PlayerExamples.quiet (op_stop "G")
            (NodeLifecycle.shared
               (NodeLifecycle.run PlayerExamples.quiet
                  [NodeLifecycle.call_connect; NodeLifecycle.attempt_opens;
                   NodeLifecycle.socket_close 1006 "";
                   NodeLifecycle.interval_runs;
                   NodeLifecycle.attempt_fails NodeLifecycle.by_timeout;
                   NodeLifecycle.interval_runs; NodeLifecycle.attempt_opens]
                  ReconnectExamples.new_world)))
     <> Unsettled.
Proof.
  split; [vm_compute; reflexivity|].
  exact (proj1 (proj2 (connected_node_has_socket PlayerExamples.quiet NodeExamples.no_options 0
                         ReconnectExamples.new_node ReconnectExamples.new_world _
                         (op_stop "G") eq_refl eq_refl))).
Defined.

(** The close of the socket of a node. The node is DISCONNECTED and its
    DISCONNECTED event carries the reason, or "No reason specified" for an
    empty one. It starts to reconnect only when the code is not 1000 AND
    the reason is not "destroy": a close with the code 1000 leaves the node
    DISCONNECTED with no retry interval, whatever the reason. The players
    bound to the node are not touched. *)
Theorem onClose_reconnects_unless_clean (code : Z) (reason : string)
    (w : NodeLifecycle.World) :
  let w' := NodeLifecycle._onClose code reason w in
  (code = 1000%Z \/ reason = "destroy" ->
   Node.state (node (NodeLifecycle.shared w')) = Node.DISCONNECTED
   /\ Node.reconnectTimeout (node (NodeLifecycle.shared w'))
      = Node.reconnectTimeout (node (NodeLifecycle.shared w)))
  /\ (code <> 1000%Z /\ reason <> "destroy" ->
      Node.state (node (NodeLifecycle.shared w')) = Node.RECONNECTING
      /\ Node.reconnectTimeout (node (NodeLifecycle.shared w')) = true)
  /\ (Node.listeners (node (NodeLifecycle.shared w)) = true ->
      events (NodeLifecycle.shared w')
      = (events (NodeLifecycle.shared w)
         ++ [NODE_DISCONNECTED (Node.identifier (node (NodeLifecycle.shared w))) code
               (if String.eqb reason "" then "No reason specified" else reason)])%list)
  /\ NodeLifecycle.heap w' = NodeLifecycle.heap w
  /\ manager_players (NodeLifecycle.shared w') = manager_players (NodeLifecycle.shared w)
  /\ Node.reconnectAttempts (node (NodeLifecycle.shared w'))
     = Node.reconnectAttempts (node (NodeLifecycle.shared w)).
Proof.
  cbv zeta.
  unfold NodeLifecycle._onClose, NodeLifecycle.reconnect, NodeLifecycle.update_node,
    NodeLifecycle.emit, node_emit, truthy_string.
  cbn [NodeLifecycle.shared NodeLifecycle.set_shared node set_node Node.listeners
       Node.set_state].
  split; [|split; [|split]].
  - intros Hc.
    assert (negb (code =? 1000)%Z && negb (String.eqb reason "destroy") = false) as ->.
    { destruct Hc as [-> | ->]; [reflexivity|]. rewrite String.eqb_refl. apply andb_false_r. }
    destruct (Node.listeners (node (NodeLifecycle.shared w))); simpl; auto.
  - intros [Hc Hr].
    apply Z.eqb_neq in Hc. apply String.eqb_neq in Hr. rewrite Hc, Hr. cbn [negb andb].
    destruct (Node.listeners (node (NodeLifecycle.shared w))); simpl; auto.
  - intros Hl. rewrite Hl.
    destruct (negb (code =? 1000)%Z && negb (String.eqb reason "destroy"));
      destruct (String.eqb reason ""); reflexivity.
  - destruct (Node.listeners (node (NodeLifecycle.shared w)));
      destruct (negb (code =? 1000)%Z && negb (String.eqb reason "destroy")); simpl; auto.
Qed.

Section CounterFacts.

Import NodeLifecycle NodeSpec.

Variable out : Outside.

(** A run of the interval below the cap whose attempt succeeds. *)
Lemma tick_then_open w0 w k :
  retrying w0 w k ->
  Node.c_maxRetrys (Node.options (node (shared w0))) = 0%Z
  \/ (k < Node.c_maxRetrys (Node.options (node (shared w0))))%Z ->
  let w' := attempt_open (reconnect_tick out w) in
  Node.state (node (shared w')) = Node.CONNECTED
  /\ Node.reconnectAttempts (node (shared w')) = k
  /\ Node.reconnectTimeout (node (shared w')) = false
  /\ Node.ws (node (shared w')) = true
  /\ Node.options (node (shared w')) = Node.options (node (shared w0))
  /\ Node.identifier (node (shared w')) = Node.identifier (node (shared w0))
  /\ heap w' = heap w0
  /\ manager_players (shared w') = manager_players (shared w0)
  /\ manager_nodes (shared w') = manager_nodes (shared w0).
Proof.
  intros (Hh & Hp & Hn & Ho & Hi & Ht & Hs & Ha) Hcap. cbv zeta.
  assert (negb (Node.c_maxRetrys (Node.options (node (shared w0))) =? 0)%Z
          && (k >=? Node.c_maxRetrys (Node.options (node (shared w0))))%Z = false) as Hc.
  { destruct Hcap as [->|Hlt]; [reflexivity|].
    apply andb_false_iff. right. rewrite Z.geb_leb. apply Z.leb_gt. exact Hlt. }
  destruct w as [h [n ns nc gs as_ ev mp mn c]].
  destruct n as [o i st ra rt ws_ at_ ls].
  cbn [heap shared node manager_players manager_nodes Node.options Node.identifier
       Node.state Node.reconnectAttempts Node.reconnectTimeout] in *.
  subst h mp mn o i rt st ra.
  unfold reconnect_tick.
  cbn [shared node Node.reconnectTimeout Node.options Node.reconnectAttempts negb].
  rewrite Hc. destruct ls; vm_compute; auto 10.
Qed.

End CounterFacts.

(** The counter of failed attempts is reset by [destroy] alone: a
    successful reconnection leaves it where the failures brought it. A node
    with [maxRetrys = m > 0] that reconnects after [k < m] failed attempts
    is CONNECTED with [k] attempts counted; when its socket closes again, it
    gives up and is destroyed after [m - k] further failures, not after
    [m]. *)
Theorem reconnect_attempts_accumulate (out : Outside) (w : NodeLifecycle.World)
    (fs1 fs2 : list NodeLifecycle.failure) (code : Z) (reason : string) :
  let cap := Node.c_maxRetrys (Node.options (node (NodeLifecycle.shared w))) in
  let connected :=
    NodeLifecycle.attempt_open
      (NodeLifecycle.reconnect_tick out
         (NodeLifecycle.failed_rounds out fs1 (NodeLifecycle.reconnect w))) in
  let closed := NodeLifecycle._onClose code reason connected in
  Node.reconnectAttempts (node (NodeLifecycle.shared w)) = 0%Z ->
  (Z.of_nat (List.length fs1) < cap)%Z ->
  code <> 1000%Z -> reason <> "destroy" ->
  Node.state (node (NodeLifecycle.shared connected)) = Node.CONNECTED
  /\ Node.reconnectAttempts (node (NodeLifecycle.shared connected))
     = Z.of_nat (List.length fs1)
  /\ ((Z.of_nat (List.length fs1) + Z.of_nat (List.length fs2) = cap)%Z ->
      Node.state
        (node
           (NodeLifecycle.shared
              (NodeLifecycle.reconnect_tick out
                 (NodeLifecycle.failed_rounds out fs2 closed))))
      = Node.DESTROYED)
  /\ ((Z.of_nat (List.length fs1) + Z.of_nat (List.length fs2) < cap)%Z ->
      Node.state
        (node
           (NodeLifecycle.shared
              (NodeLifecycle.reconnect_tick out
                 (NodeLifecycle.failed_rounds out fs2 closed))))
      = Node.RECONNECTING).
Proof.
  intros cap connected closed H0 Hk Hcode Hreason.
  pose proof (rounds_retrying out w fs1 (NodeLifecycle.reconnect w) 0
                ltac:(rewrite <- H0; apply reconnect_retrying)
                ltac:(right; fold cap; lia)) as Hr1.
  destruct (tick_then_open out w _ _ Hr1 ltac:(right; fold cap; lia))
    as (Hst & Ha & Ht & Hws & Ho & Hi & Hh & Hp & Hn).
  fold connected in Hst, Ha, Ht, Hws, Ho, Hi, Hh, Hp, Hn.
  split; [exact Hst|]. split; [rewrite Ha; lia|].
  assert (NodeSpec.retrying closed closed (0 + Z.of_nat (List.length fs1))
          /\ Node.c_maxRetrys (Node.options (node (NodeLifecycle.shared closed))) = cap)
    as [Hr2 Hcap].
  { subst closed.
    unfold NodeLifecycle._onClose, NodeLifecycle.reconnect, NodeLifecycle.update_node,
      NodeLifecycle.emit, node_emit, NodeSpec.retrying.
    apply Z.eqb_neq in Hcode. apply String.eqb_neq in Hreason. rewrite Hcode, Hreason.
    cbn [negb andb NodeLifecycle.shared NodeLifecycle.set_shared node set_node
         Node.listeners Node.set_state].
    destruct (Node.listeners (node (NodeLifecycle.shared connected))); simpl;
      rewrite ?Ha, ?Ho; auto 10. }
  split.
  - intros Hsum.
    pose proof (rounds_retrying out closed fs2 closed _ Hr2
                  ltac:(right; rewrite Hcap; lia))
      as (_ & _ & _ & Ho3 & _ & Ht3 & _ & Ha3).
    unfold NodeLifecycle.reconnect_tick. rewrite Ht3, Ha3, Ho3, Hcap. cbn [negb].
    assert (negb (cap =? 0)%Z
            && (0 + Z.of_nat (List.length fs1) + Z.of_nat (List.length fs2) >=? cap)%Z
            = true) as ->.
    { apply andb_true_iff. split.
      - apply negb_true_iff, Z.eqb_neq. lia.
      - rewrite Z.geb_leb. apply Z.leb_le. lia. }
    apply Node_destroy_facts.
  - intros Hsum.
    pose proof (rounds_retrying out closed fs2 closed _ Hr2
                  ltac:(right; rewrite Hcap; lia)) as Hr3.
    pose proof (round_retrying out closed _ _ NodeLifecycle.by_timeout Hr3
                  ltac:(right; rewrite Hcap; lia)) as (_ & _ & _ & _ & _ & _ & Hs4 & _).
    destruct Hr3 as (_ & _ & _ & Ho3 & _ & Ht3 & Hs3 & Ha3).
    destruct (reconnect_tick_state out _ Ht3) as [Hd|Hrc]; [|exact Hrc].
    exfalso. revert Hd. unfold NodeLifecycle.reconnect_tick.
    rewrite Ht3, Ha3, Ho3, Hcap. cbn [negb].
    assert (negb (cap =? 0)%Z
            && (0 + Z.of_nat (List.length fs1) + Z.of_nat (List.length fs2) >=? cap)%Z
            = false) as ->.
    { apply andb_false_iff. right. rewrite Z.geb_leb. apply Z.leb_gt. lia. }
    unfold NodeLifecycle.connect, NodeLifecycle.update_node, NodeLifecycle.emit, node_emit.
    simpl.
    destruct (Node.listeners
                (node (NodeLifecycle.shared (NodeLifecycle.failed_rounds out fs2 closed))));
      simpl; discriminate.
Qed.

(** With [maxRetrys = 3]: two failures, a success, a close, and one more
    failure destroy the node at the next run of the interval. *)
Lemma reconnect_attempts_accumulate_witness :
  Node.state
    (node
       (NodeLifecycle.shared
          (NodeLifecycle.reconnect_tick PlayerExamples.quiet
             (NodeLifecycle.failed_rounds PlayerExamples.quiet [NodeLifecycle.by_timeout]
                (NodeLifecycle._onClose 1006 ""
                   (NodeLifecycle.attempt_open
                      (NodeLifecycle.reconnect_tick PlayerExamples.quiet
                         (NodeLifecycle.failed_rounds PlayerExamples.quiet
                            [NodeLifecycle.by_timeout; NodeLifecycle.by_error None]
                            (NodeLifecycle.reconnect (ReconnectExamples.world 3))))))))))
  = Node.DESTROYED.
Proof.
  exact (proj1 (proj2 (proj2
           (reconnect_attempts_accumulate PlayerExamples.quiet (ReconnectExamples.world 3)
              [NodeLifecycle.by_timeout; NodeLifecycle.by_error None]
              [NodeLifecycle.by_timeout] 1006 "" eq_refl eq_refl
              ltac:(discriminate) ltac:(discriminate)))) eq_refl).
Defined.

(** ** A node destroyed twice *)

Section NodeDestroyFacts.

Import NodeLifecycle NodeSpec.

Variable out : Outside.

Lemma foldl_destroy_other reason l : forall w a,
  a ∉ l -> heap (foldl (destroy_player out reason) w l) !! a = heap w !! a.
Proof.
  induction l as [|b l IH]; intros w a Hn; [reflexivity|].
  simpl. apply not_elem_of_cons in Hn as [Hne Hn].
  rewrite IH by exact Hn. apply destroy_player_other. exact Hne.
Qed.

Lemma destroy_player_table reason w b kv :
  kv ∈ manager_players (shared (destroy_player out reason w b)) ->
  kv ∈ manager_players (shared w).
Proof.
  destruct (heap w !! b) as [pb|] eqn:Hb.
  - destruct (destroy_player_facts out reason w b pb Hb) as (_ & _ & _ & _ & M & _).
    rewrite M. unfold players_delete. intros H.
    apply list_elem_of_In, filter_In in H as [H _]. apply list_elem_of_In, H.
  - rewrite destroy_player_unbound by exact Hb. auto.
Qed.

Lemma foldl_destroy_table reason l : forall w kv,
  kv ∈ manager_players (shared (foldl (destroy_player out reason) w l)) ->
  kv ∈ manager_players (shared w).
Proof.
  induction l as [|b l IH]; intros w kv H; [exact H|].
  simpl in H. apply IH in H. eapply destroy_player_table, H.
Qed.

Lemma filter_none {A} (f : A -> bool) l :
  (forall x, x ∈ l -> f x = false) -> List.filter f l = [].
Proof.
  induction l as [|x l IH]; intros H; [reflexivity|].
  simpl. rewrite (H x) by apply list_elem_of_here.
  apply IH. intros y Hy. apply H. apply list_elem_of_further, Hy.
Qed.

Lemma filter_all {A} (f : A -> bool) l :
  (forall x, x ∈ l -> f x = true) -> List.filter f l = l.
Proof.
  induction l as [|x l IH]; intros H; [reflexivity|].
  simpl. rewrite (H x) by apply list_elem_of_here.
  f_equal. apply IH. intros y Hy. apply H. apply list_elem_of_further, Hy.
Qed.

(** Once the players of a node are destroyed, the manager's table leads
    to no player of the node. *)
Lemma attached_after_destroy reason w :
  consistent w ->
  attached (foldl (destroy_player out reason) w (attached w)) = [].
Proof.
  intros Hcons.
  set (w5 := foldl (destroy_player out reason) w (attached w)).
  destruct (foldl_destroy_node out reason (attached w) w) as [N5 _]. fold w5 in N5.
  unfold attached at 1. apply filter_none. intros a Ha.
  apply list_elem_of_fmap in Ha as ([g a'] & -> & Hin). simpl.
  destruct (heap w5 !! a') as [p5|] eqn:H5; [|reflexivity].
  apply Nat.eqb_neq. intros Hid. rewrite N5 in Hid.
  pose proof (foldl_destroy_table reason (attached w) w _ Hin) as Hin0.
  destruct (decide (a' ∈ attached w)) as [Hat|Hat].
  - pose proof Hat as Hat'. unfold attached in Hat'.
    apply list_elem_of_In, filter_In in Hat' as [_ Hf].
    destruct (heap w !! a') as [p|] eqn:Hp; [|discriminate].
    pose proof (Hcons g a' p Hin0 Hp) as Hg.
    destruct (foldl_destroy_establishes out reason p a' (attached w) w Hat Hp)
      as (p' & _ & _ & _ & Hhas & _).
    fold w5 in Hhas. rewrite Hg in Hhas.
    assert (players_has g (manager_players (shared w5)) = true) as Ht.
    { unfold players_has. apply existsb_exists. exists (g, a').
      split; [apply list_elem_of_In, Hin|]. apply String.eqb_refl. }
    congruence.
  - unfold w5 in H5. rewrite foldl_destroy_other in H5 by exact Hat.
    apply Hat. unfold attached. apply list_elem_of_In, filter_In.
    split.
    + apply list_elem_of_In, list_elem_of_fmap. exists (g, a'). auto.
    + rewrite H5. apply Nat.eqb_eq, Hid.
Qed.

Lemma attached_ext w w' :
  heap w = heap w' ->
  manager_players (shared w) = manager_players (shared w') ->
  Node.identifier (node (shared w)) = Node.identifier (node (shared w')) ->
  attached w = attached w'.
Proof. unfold attached. intros -> -> ->. reflexivity. Qed.

(** [destroy] on a node that is already destroyed. *)
Lemma destroy_fixed reason w :
  Node.ws (node (shared w)) = false ->
  Node.reconnectAttempts (node (shared w)) = 0%Z ->
  Node.reconnectTimeout (node (shared w)) = false ->
  Node.state (node (shared w)) = Node.DESTROYED ->
  Node.listeners (node (shared w)) = false ->
  attached w = [] ->
  Node.identifier (node (shared w)) ∉ manager_nodes (shared w) ->
  destroy out reason w = w.
Proof.
  destruct w as [h [n ns nc gs as_ ev mp mn c]].
  destruct n as [o i st ra rt ws_ at_ ls]. simpl.
  intros -> -> -> -> -> Hatt Hnot.
  set (W := {| heap := h;
               shared :=
                 {| node := {| Node.options := o; Node.identifier := i;
                               Node.state := Node.DESTROYED;
                               Node.reconnectAttempts := 0%Z;
                               Node.reconnectTimeout := false; Node.ws := false;
                               Node.attempt := at_; Node.listeners := false |};
                    node_sent := ns; node_closed := nc; gateway_sent := gs;
                    api_sent := as_; events := ev; manager_players := mp;
                    manager_nodes := mn; clock := c |} |}) in *.
  assert (update_node (Node.set_reconnectTimeout false)
            (update_node (Node.set_reconnectAttempts 0%Z)
               (update_node (Node.set_ws false) W)) = W) as E4 by reflexivity.
  assert (update_node (Node.set_state Node.DESTROYED) W = W) as E6 by reflexivity.
  assert (forall r, emit (NODE_DESTROYED (Node.identifier (node (shared W))) r) W = W)
    as E7 by reflexivity.
  assert (update_node (Node.set_listeners false) W = W) as E8 by reflexivity.
  unfold destroy.
  change (Node.ws (node (shared W))) with false. cbv beta iota zeta.
  rewrite E4, Hatt. cbn [foldl]. rewrite E6, E7, E8.
  unfold set_shared, set_manager_nodes. subst W. cbn [heap shared node Node.identifier
    node_sent node_closed gateway_sent api_sent events manager_players manager_nodes clock].
  rewrite filter_all; [reflexivity|].
  intros x Hx. apply negb_true_iff, Nat.eqb_neq. intros ->. exact (Hnot Hx).
Qed.

(** What [destroy] leaves of the node. *)
Lemma destroy_leaves reason w :
  consistent w ->
  let w' := destroy out reason w in
  Node.ws (node (shared w')) = false
  /\ Node.reconnectAttempts (node (shared w')) = 0%Z
  /\ Node.reconnectTimeout (node (shared w')) = false
  /\ Node.state (node (shared w')) = Node.DESTROYED
  /\ Node.listeners (node (shared w')) = false
  /\ attached w' = []
  /\ Node.identifier (node (shared w')) ∉ manager_nodes (shared w').
Proof.
  intros Hcons w'. subst w'. unfold destroy.
  set (w1 := if Node.ws (node (shared w))
             then set_shared (set_node_closed (node_closed (shared w) ++ [(1000%Z, "destroy")])
                    (shared w)) w
             else w).
  set (w4 := update_node (Node.set_reconnectTimeout false)
               (update_node (Node.set_reconnectAttempts 0%Z)
                  (update_node (Node.set_ws false) w1))).
  assert (heap w4 = heap w
          /\ manager_players (shared w4) = manager_players (shared w)
          /\ Node.ws (node (shared w4)) = false
          /\ Node.reconnectAttempts (node (shared w4)) = 0%Z
          /\ Node.reconnectTimeout (node (shared w4)) = false)
    as (Hh4 & Hm4 & Hw4 & Ha4 & Ht4).
  { subst w4 w1. destruct (Node.ws (node (shared w))); simpl; auto 10. }
  assert (consistent w4) as Hcons4.
  { intros g a p. rewrite Hm4, Hh4. apply Hcons. }
  cbv zeta.
  set (w5 := foldl (destroy_player out "Attached node destroyed") w4 (attached w4)).
  destruct (foldl_destroy_node out "Attached node destroyed" (attached w4) w4) as [N5 _].
  fold w5 in N5.
  pose proof (attached_after_destroy "Attached node destroyed" w4 Hcons4) as Hatt.
  fold w5 in Hatt.
  rewrite <- N5 in Hw4, Ha4, Ht4.
  clearbody w5. clear - Hw4 Ha4 Ht4 Hatt.
  destruct w5 as [h5 [n5 ns nc gs as_ ev mp mn c]].
  destruct n5 as [o i st ra rt ws_ at_ ls]. simpl in Hw4, Ha4, Ht4. subst ws_ ra rt.
  unfold emit, node_emit, update_node.
  cbn [heap shared node set_shared set_node Node.set_state Node.set_listeners
       Node.listeners Node.identifier Node.state Node.ws Node.reconnectAttempts
       Node.reconnectTimeout].
  destruct ls;
    cbn [heap shared node set_shared set_node set_events set_manager_nodes
         Node.set_state Node.set_listeners manager_nodes
         Node.listeners Node.identifier Node.state Node.ws Node.reconnectAttempts
         Node.reconnectTimeout];
    (repeat (split; [reflexivity|])); (split; [exact Hatt|]);
    intros Hin; apply list_elem_of_In, filter_In in Hin as [_ Hin];
    rewrite Nat.eqb_refl in Hin; discriminate.
Qed.

End NodeDestroyFacts.

(** [destroy] on a node is idempotent, where every player of the
    manager's table is filed under its own guild: a second call changes
    nothing at all. The socket was closed and dropped, the counter and the
    retry interval were cleared, the players of the node were destroyed
    and taken out of the manager's table, and the listeners were removed
    by the first call, so the second closes nothing, destroys no player
    and emits no event. *)
Theorem Node_destroy_twice (out : Outside) (reason1 reason2 : string)
    (w : NodeLifecycle.World) :
  NodeSpec.consistent w ->
  NodeLifecycle.destroy out reason2 (NodeLifecycle.destroy out reason1 w)
  = NodeLifecycle.destroy out reason1 w.
Proof.
  intros Hcons.
  destruct (destroy_leaves out reason1 w Hcons) as (H1 & H2 & H3 & H4 & H5 & H6 & H7).
  apply destroy_fixed; assumption.
Qed.

(** The node of the guild "G", destroyed twice. *)
Lemma Node_destroy_twice_witness :
  NodeLifecycle.destroy PlayerExamples.quiet "again"
    (NodeLifecycle.destroy PlayerExamples.quiet "Manual destroy" (ReconnectExamples.world 3))
  = NodeLifecycle.destroy PlayerExamples.quiet "Manual destroy" (ReconnectExamples.world 3).
Proof.
  apply Node_destroy_twice.
  intros g a p Hin Hp. simpl in Hin.
  apply list_elem_of_In in Hin. simpl in Hin. destruct Hin as [[= <- <-]|[]].
  vm_compute in Hp. injection Hp as <-. reflexivity.
Defined.

(** ** The manager *)

Section ManagerSearchFacts.

Import LavalinkManager.

Variable SPOTIFY_REGEX_match : string -> option (string * string).
Variable spotify_lookup : string -> string -> string -> outcome SearchResult.
Variable request_loadtracks : string -> outcome (option LoadTracksJson).
Variable manager : Manager.
Variable Canonicalize : string -> string.

(** Without a token every search that passes the checks goes to the
    node. *)
Lemma search_route_without_token query source r :
  truthy_ostring (spotifyToken manager) = false ->
  search_route SPOTIFY_REGEX_match manager query source = Returns r ->
  r = ToNode (loadtracks_identifier query source).
Proof.
  unfold search_route. intros Ht.
  destruct (negb (searchNode manager)); [discriminate|].
  destruct (negb (existsb _ _)); [discriminate|].
  rewrite Ht. cbn [andb].
  destruct (SPOTIFY_REGEX_match query) as [[kind id]|]; intros [= <-]; reflexivity.
Qed.

Lemma search_without_token query requester source found :
  truthy_ostring (spotifyToken manager) = false ->
  search SPOTIFY_REGEX_match spotify_lookup request_loadtracks manager query requester source
  = Returns found ->
  exists json,
    request_loadtracks (loadtracks_identifier query source) = Returns (Some json)
    /\ found = searchResult_of_json json requester.
Proof.
  intros Ht. unfold search.
  destruct (search_route SPOTIFY_REGEX_match manager query source) as [r|e] eqn:Hr;
    [|discriminate].
  apply (search_route_without_token _ _ _ Ht) in Hr. subst r.
  destruct (request_loadtracks _) as [[json|]|e]; try discriminate.
  intros [= <-]. eauto.
Qed.

Lemma only_tracks_elem t es : t ∈ only_tracks es -> ETrack t ∈ es.
Proof.
  induction es as [|[t'|p] es IH]; simpl.
  - intros H. apply elem_of_nil in H. contradiction.
  - intros H. apply elem_of_cons in H as [->|H].
    + apply list_elem_of_here.
    + apply list_elem_of_further, IH, H.
  - intros H. apply list_elem_of_further, IH, H.
Qed.

Lemma head_filter_elem (f : Track -> bool) l t :
  head (List.filter f l) = Some t -> t ∈ l.
Proof.
  intros H. apply list_elem_of_In.
  assert (In t (List.filter f l)) as Hin.
  { destruct (List.filter f l); [discriminate|]. injection H as ->. left. reflexivity. }
  apply filter_In in Hin. apply Hin.
Qed.

(** What [resolveTrack] returns is one of the tracks of its search. *)
Lemma resolveTrack_Returns p t :
  resolveTrack SPOTIFY_REGEX_match spotify_lookup request_loadtracks manager Canonicalize p
  = Returns t ->
  exists found,
    search SPOTIFY_REGEX_match spotify_lookup request_loadtracks manager
      (resolve_query p) (partial_requester p) (defaultSource manager) = Returns found
    /\ loadType found = SEARCH_RESULT
    /\ ETrack t ∈ tracks found.
Proof.
  unfold resolveTrack.
  destruct (search _ _ _ _ _ _ _) as [found|e]; [|discriminate].
  intros H. exists found. split; [reflexivity|].
  destruct (only_tracks (tracks found)) as [|first rest] eqn:E; [discriminate|].
  destruct (loadType found) eqn:Hl; try discriminate. split; [reflexivity|].
  apply only_tracks_elem. rewrite E.
  cbn [LoadType_eqb negb] in H.
  match type of H with
  | match ?a with _ => _ end = _ => destruct a as [t1|] eqn:Ha
  end.
  { injection H as <-.
    destruct (partial_author p) as [a|]; [|discriminate].
    destruct (truthy_string a); [|discriminate].
    eapply head_filter_elem, Ha. }
  match type of H with
  | match ?a with _ => _ end = _ => destruct a as [t2|] eqn:Hd
  end.
  { injection H as <-.
    destruct (partial_length p) as [l|]; [|discriminate].
    destruct (truthy_number l); [|discriminate].
    eapply head_filter_elem, Hd. }
  injection H as <-. apply list_elem_of_here.
Qed.

End ManagerSearchFacts.

(** A search on a manager without a Spotify token never goes to the
    Spotify Web API: what it returns is built from the body of the node's
    [/loadtracks] response for the identifier of the query, one track for
    each track of the body, in the order of the body, each with the
    requester given to [search]; no entry of the result is unresolved. *)
Theorem search_without_token_asks_node
    (SPOTIFY_REGEX_match : string -> option (string * string))
    (spotify_lookup : string -> string -> string -> outcome LavalinkManager.SearchResult)
    (request_loadtracks : string -> outcome (option LavalinkManager.LoadTracksJson))
    (manager : LavalinkManager.Manager) (query requester : string)
    (source : LavalinkManager.Source) (found : LavalinkManager.SearchResult) :
  truthy_ostring (LavalinkManager.spotifyToken manager) = false ->
  LavalinkManager.search SPOTIFY_REGEX_match spotify_lookup request_loadtracks manager
    query requester source = Returns found ->
  exists json,
    request_loadtracks (LavalinkManager.loadtracks_identifier query source)
    = Returns (Some json)
    /\ LavalinkManager.loadType found = LavalinkManager.json_loadType json
    /\ LavalinkManager.tracks found
       = map (fun data => ETrack (new_Track data requester))
           (LavalinkManager.json_tracks json)
    /\ LavalinkManager.only_tracks (LavalinkManager.tracks found)
       = map (fun data => new_Track data requester) (LavalinkManager.json_tracks json)
    /\ LavalinkManager.searchNode manager = true
    /\ existsb (LavalinkManager.Source_eqb source) (LavalinkManager.enabledSources manager)
       = true.
Proof.
  intros Ht H.
  destruct (search_without_token _ spotify_lookup _ _ _ _ _ _ Ht H) as (json & Hreq & ->).
  exists json. split; [exact Hreq|]. split; [reflexivity|]. split; [reflexivity|].
  split.
  - simpl. induction (LavalinkManager.json_tracks json) as [|d l IH]; [reflexivity|].
    simpl. rewrite IH. reflexivity.
  - unfold LavalinkManager.search, LavalinkManager.search_route in H.
    destruct (LavalinkManager.searchNode manager); [|discriminate].
    destruct (existsb _ _); [|discriminate]. auto.
Qed.

(** A search for "hello" on the example manager returns the two tracks of
    the node's answer, for the requester "user". *)
Lemma search_without_token_asks_node_witness :
  exists json,
    Examples.answer [ResolveExamples.by_duration_only; ResolveExamples.by_author]
      "ytsearch:hello"
    = Returns (Some json)
    /\ LavalinkManager.json_tracks json
       = [ResolveExamples.by_duration_only; ResolveExamples.by_author].
Proof.
  destruct (search_without_token_asks_node Examples.no_spotify_match
              Examples.no_spotify_lookup
              (Examples.answer [ResolveExamples.by_duration_only; ResolveExamples.by_author])
              Examples.manager "hello" "user" LavalinkManager.youtube _ eq_refl eq_refl)
    as (json & Hreq & _).
  exists json. split; [exact Hreq|].
  injection Hreq as <-. reflexivity.
Defined.

(** What [resolveTrack] returns is always one of the tracks its search
    found, in a result of the load type SEARCH_RESULT; on a manager without
    a Spotify token it is built from a track of the node's response and
    carries the requester of the unresolved entry. *)
Theorem resolveTrack_returns_candidate
    (SPOTIFY_REGEX_match : string -> option (string * string))
    (spotify_lookup : string -> string -> string -> outcome LavalinkManager.SearchResult)
    (request_loadtracks : string -> outcome (option LavalinkManager.LoadTracksJson))
    (manager : LavalinkManager.Manager) (Canonicalize : string -> string)
    (p : TrackPartial) (t : Track) :
  LavalinkManager.resolveTrack SPOTIFY_REGEX_match spotify_lookup request_loadtracks
    manager Canonicalize p = Returns t ->
  (exists found,
      LavalinkManager.search SPOTIFY_REGEX_match spotify_lookup request_loadtracks manager
        (LavalinkManager.resolve_query p) (partial_requester p)
        (LavalinkManager.defaultSource manager) = Returns found
      /\ LavalinkManager.loadType found = LavalinkManager.SEARCH_RESULT
      /\ ETrack t ∈ LavalinkManager.tracks found)
  /\ (truthy_ostring (LavalinkManager.spotifyToken manager) = false ->
      exists json data,
        request_loadtracks
          (LavalinkManager.loadtracks_identifier (LavalinkManager.resolve_query p)
             (LavalinkManager.defaultSource manager))
        = Returns (Some json)
        /\ data ∈ LavalinkManager.json_tracks json
        /\ t = new_Track data (partial_requester p)
        /\ requester t = partial_requester p).
Proof.
  intros H.
  destruct (resolveTrack_Returns _ _ _ _ _ _ _ H) as (found & Hs & Hl & Hin).
  split; [eauto|].
  intros Ht.
  destruct (search_without_token _ _ _ _ _ _ _ _ Ht Hs) as (json & Hreq & ->).
  simpl in Hin. apply list_elem_of_fmap in Hin as (data & Heq & Hd).
  injection Heq as ->. exists json, data. auto.
Qed.

(** The track resolved for the hint of the examples carries the requester
    of the hint. *)
Lemma resolveTrack_returns_candidate_witness :
  exists json data,
    Examples.answer [ResolveExamples.by_duration_only; ResolveExamples.by_author]
      (LavalinkManager.loadtracks_identifier
         (LavalinkManager.resolve_query (Examples.hint "Artist" (Some 180000%Z)))
         LavalinkManager.youtube)
    = Returns (Some json)
    /\ data ∈ LavalinkManager.json_tracks json
    /\ new_Track ResolveExamples.by_author "user"
       = new_Track data (partial_requester (Examples.hint "Artist" (Some 180000%Z))).
Proof.
  destruct (proj2 (resolveTrack_returns_candidate Examples.no_spotify_match
                     Examples.no_spotify_lookup
                     (Examples.answer [ResolveExamples.by_duration_only;
                                       ResolveExamples.by_author])
                     Examples.manager Examples.canonicalize_string
                     (Examples.hint "Artist" (Some 180000%Z))
                     (new_Track ResolveExamples.by_author "user") eq_refl) eq_refl)
    as (json & data & Hreq & Hin & Ht & _).
  exists json, data. auto.
Defined.

Section ConstructorFacts.

Import LavalinkManager ManagerLifecycle.

(** The nodes the constructor builds, from the identifier [i] on. *)
Lemma new_nodes_Returns l : forall i ns,
  new_nodes i l = Returns ns ->
  List.length ns = List.length l
  /\ forall k n,
       ns !! k = Some n ->
       Node.identifier n = i + k
       /\ Node.state n = Node.DISCONNECTED
       /\ Node.reconnectAttempts n = 0%Z
       /\ exists o,
            l !! k = Some o
            /\ Node.options n = Node.complete o
            /\ (Node.c_connectionTimeout (Node.complete o)
                <= Node.c_retryDelay (Node.complete o))%Z.
Proof.
  induction l as [|o l IH]; intros i ns H; cbn [new_nodes] in H.
  - injection H as <-. split; [reflexivity|]. intros k n [=].
  - destruct (Node.new (Some o) (Some i) true) as [n0|e] eqn:Hn; [|discriminate].
    destruct (new_nodes (S i) l) as [ns'|e] eqn:Hns; [|discriminate].
    injection H as <-. destruct (IH _ _ Hns) as [Hlen Hall].
    split; [simpl; congruence|].
    intros [|k] n Hk; simpl in Hk.
    + injection Hk as <-. unfold Node.new in Hn. cbn [negb] in Hn.
      destruct (_ >? _)%Z eqn:E; [discriminate|]. injection Hn as <-. simpl.
      rewrite Nat.add_0_r. repeat split. exists o. repeat split.
      rewrite Z.gtb_ltb in E. apply Z.ltb_ge in E. exact E.
    + destruct (Hall k n Hk) as (Hi & Hrest). split; [lia|exact Hrest].
Qed.

(** One node whose connection timeout is greater than its retry delay
    makes the constructor of the nodes throw. *)
Lemma new_nodes_Throws l : forall i k o,
  l !! k = Some o ->
  (Node.c_connectionTimeout (Node.complete o) > Node.c_retryDelay (Node.complete o))%Z ->
  new_nodes i l
  = Throws (Error "Node connection timeout must be greater than the reconnect retry delay").
Proof.
  induction l as [|o0 l IH]; intros i k o Hk Hgt; [discriminate|].
  cbn [new_nodes]. destruct k as [|k]; simpl in Hk.
  - injection Hk as ->. unfold Node.new. cbn [negb].
    assert ((Node.c_connectionTimeout (Node.complete o)
             >? Node.c_retryDelay (Node.complete o))%Z = true) as ->; [|reflexivity].
    rewrite Z.gtb_ltb. apply Z.ltb_lt. lia.
  - unfold Node.new at 1. cbn [negb].
    destruct (_ >? _)%Z; [reflexivity|].
    rewrite (IH (S i) k o Hk Hgt). reflexivity.
Qed.

Lemma new_Returns o m :
  new (Some o) true = Returns m ->
  exists l ns,
    nodeOptions o = Some l /\ l <> []
    /\ new_nodes 0 l = Returns ns
    /\ m = {| nodes := ns; c_nodeOptions := l;
              c_enabledSources := Node.nullish (o_enabledSources o) [youtube; soundcloud];
              c_defaultSource := Node.nullish (o_defaultSource o) youtube;
              c_spotifyAuth := spotifyAuth o |}
    /\ (forall es src,
           o_enabledSources o = Some es -> o_defaultSource o = Some src ->
           existsb (Source_eqb src) es = true)
    /\ (forall auth,
           spotifyAuth o = Some auth -> clientId auth <> "" /\ clientSecret auth <> "").
Proof.
  unfold new. cbn [negb].
  destruct (nodeOptions o) as [[|o0 l]|]; try discriminate.
  match goal with |- (if ?b then _ else _) = _ -> _ => destruct b eqn:Hsrc end;
    [discriminate|].
  match goal with |- (if ?b then _ else _) = _ -> _ => destruct b eqn:Hauth end;
    [discriminate|].
  destruct (new_nodes 0 (o0 :: l)) as [ns|e] eqn:Hns; [|discriminate].
  intros [= <-]. exists (o0 :: l), ns.
  split; [reflexivity|]. split; [discriminate|]. split; [exact Hns|].
  split; [reflexivity|]. split.
  - intros es src Hes Hs. rewrite Hes, Hs in Hsrc. apply negb_false_iff in Hsrc. exact Hsrc.
  - intros auth Ha. rewrite Ha in Hauth.
    apply orb_false_iff in Hauth as [H1 H2].
    apply negb_false_iff in H1, H2. split; apply truthy_string_true; assumption.
Qed.

End ConstructorFacts.

(** The manager the constructor builds. When [new LavalinkManager] returns,
    the options named at least one node and one node was built for each,
    in order, with its index as identifier, DISCONNECTED, with no attempt
    counted, and with a connection timeout that is not greater than its
    retry delay; the enabled sources default to youtube and soundcloud and
    the default source to youtube; a default source given with enabled
    sources is one of them; the Spotify credentials, when given, are not
    empty; and no node is connected yet. One node option whose connection
    timeout is greater than its retry delay makes the whole construction
    throw. *)
Theorem manager_new_builds_nodes (o : ManagerLifecycle.LavalinkManagerOptions) :
  (forall m,
      ManagerLifecycle.new (Some o) true = Returns m ->
      exists l,
        ManagerLifecycle.nodeOptions o = Some l /\ l <> []
        /\ List.length (ManagerLifecycle.nodes m) = List.length l
        /\ (forall k n,
               ManagerLifecycle.nodes m !! k = Some n ->
               Node.identifier n = k
               /\ Node.state n = Node.DISCONNECTED
               /\ Node.reconnectAttempts n = 0%Z
               /\ exists ok,
                    l !! k = Some ok
                    /\ Node.options n = Node.complete ok
                    /\ (Node.c_connectionTimeout (Node.complete ok)
                        <= Node.c_retryDelay (Node.complete ok))%Z)
        /\ ManagerLifecycle.c_enabledSources m
           = Node.nullish (ManagerLifecycle.o_enabledSources o)
               [LavalinkManager.youtube; LavalinkManager.soundcloud]
        /\ ManagerLifecycle.c_defaultSource m
           = Node.nullish (ManagerLifecycle.o_defaultSource o) LavalinkManager.youtube
        /\ (forall es src,
               ManagerLifecycle.o_enabledSources o = Some es ->
               ManagerLifecycle.o_defaultSource o = Some src ->
               existsb (LavalinkManager.Source_eqb src) es = true)
        /\ (forall auth,
               ManagerLifecycle.spotifyAuth o = Some auth ->
               ManagerLifecycle.clientId auth <> "" /\ ManagerLifecycle.clientSecret auth <> "")
        /\ ManagerLifecycle.has_connected_node m = false)
  /\ (forall l k ok,
      ManagerLifecycle.nodeOptions o = Some l ->
      l !! k = Some ok ->
      (Node.c_connectionTimeout (Node.complete ok)
       > Node.c_retryDelay (Node.complete ok))%Z ->
      exists e, ManagerLifecycle.new (Some o) true = Throws e).
Proof.
  split.
  - intros m H. apply new_Returns in H as (l & ns & Hl & Hne & Hns & -> & Hsrc & Hauth).
    apply new_nodes_Returns in Hns as [Hlen Hall].
    exists l. split; [exact Hl|]. split; [exact Hne|]. split; [exact Hlen|].
    split; [exact Hall|]. split; [reflexivity|]. split; [reflexivity|].
    split; [exact Hsrc|]. split; [exact Hauth|].
    unfold ManagerLifecycle.has_connected_node. simpl.
    apply not_true_is_false. intros Hex. apply existsb_exists in Hex as (n & Hin & Hc).
    apply list_elem_of_In, list_elem_of_lookup in Hin as (k & Hk).
    destruct (Hall k n Hk) as (_ & Hst & _). rewrite Hst in Hc. discriminate.
  - intros l k ok Hl Hk Hgt. unfold ManagerLifecycle.new. cbn [negb]. rewrite Hl.
    destruct l as [|o0 l]; [discriminate|].
    repeat match goal with
           | |- exists e, (if ?b then _ else _) = _ => destruct b; [eauto|]
           end.
    rewrite (new_nodes_Throws _ 0 k ok Hk Hgt). eauto.
Qed.

(** The constructor checks a default source against the enabled sources
    only when both are given. With enabled sources that leave out youtube
    and no default source, the manager is built with the default source
    youtube, which is not enabled: every search that relies on the default
    source then throws, and so does every [resolveTrack], so that no
    unresolved entry of a queue can be resolved. *)
Theorem default_source_unchecked (o : ManagerLifecycle.LavalinkManagerOptions)
    (m : ManagerLifecycle.t) (es : list LavalinkManager.Source) :
  ManagerLifecycle.new (Some o) true = Returns m ->
  ManagerLifecycle.o_enabledSources o = Some es ->
  ManagerLifecycle.o_defaultSource o = None ->
  existsb (LavalinkManager.Source_eqb LavalinkManager.youtube) es = false ->
  ManagerLifecycle.c_defaultSource m = LavalinkManager.youtube
  /\ ManagerLifecycle.c_enabledSources m = es
  /\ forall (m' : ManagerLifecycle.t) token SPOTIFY_REGEX_match spotify_lookup
            request_loadtracks Canonicalize,
       ManagerLifecycle.c_enabledSources m' = ManagerLifecycle.c_enabledSources m ->
       ManagerLifecycle.c_defaultSource m' = ManagerLifecycle.c_defaultSource m ->
       let manager := ManagerLifecycle.searching m' token in
       let error :=
         if ManagerLifecycle.has_connected_node m'
         then Error "The provided source is not enabled"
         else Error "No available nodes to perform a search" in
       (forall query requester,
           LavalinkManager.search SPOTIFY_REGEX_match spotify_lookup request_loadtracks
             manager query requester (LavalinkManager.defaultSource manager)
           = Throws error)
       /\ (forall p,
           LavalinkManager.resolveTrack SPOTIFY_REGEX_match spotify_lookup
             request_loadtracks manager Canonicalize p
           = Throws error).
Proof.
  intros H Hes Hd Hy.
  apply new_Returns in H as (l & ns & _ & _ & _ & -> & _).
  rewrite Hes, Hd. simpl. split; [reflexivity|]. split; [reflexivity|].
  intros m' token mt lookup req canon He' Hd'.
  assert (forall query requester,
             LavalinkManager.search mt lookup req (ManagerLifecycle.searching m' token)
               query requester
               (LavalinkManager.defaultSource (ManagerLifecycle.searching m' token))
             = Throws (if ManagerLifecycle.has_connected_node m'
                       then Error "The provided source is not enabled"
                       else Error "No available nodes to perform a search")) as Hs.
  { intros query requester.
    unfold LavalinkManager.search, LavalinkManager.search_route,
      ManagerLifecycle.searching. simpl. rewrite He', Hd', Hy.
    destruct (ManagerLifecycle.has_connected_node m'); reflexivity. }
  split; [exact Hs|].
  intros p. apply resolveTrack_search_throws. apply Hs.
Qed.

(** A manager for soundcloud alone is built, and its searches throw. *)
Lemma default_source_unchecked_witness :
  exists m,
    ManagerLifecycle.new (Some ManagerExamples.soundcloud_only) true = Returns m
    /\ forall query,
         LavalinkManager.search Examples.no_spotify_match Examples.no_spotify_lookup
           (Examples.answer [])
           (ManagerLifecycle.searching m None) query "user"
           (LavalinkManager.defaultSource (ManagerLifecycle.searching m None))
         = Throws (Error "No available nodes to perform a search").
Proof.
  eexists. split; [reflexivity|]. intros query.
  exact (proj1 (proj2 (proj2
           (default_source_unchecked ManagerExamples.soundcloud_only _
              [LavalinkManager.soundcloud] eq_refl eq_refl eq_refl eq_refl))
           _ None Examples.no_spotify_match Examples.no_spotify_lookup (Examples.answer [])
           Examples.canonicalize_string eq_refl eq_refl) query "user").
Defined.

Section CreateFacts.

Import NodeLifecycle ManagerLifecycle.

Variable out : Outside.

(** What a call of [createPlayer] that returns has checked and built. *)
Lemma createPlayer_Returns o w a w1 :
  createPlayer (Some o) w = Returns (a, w1) ->
  exists g p,
    Player.o_guildId o = Some g /\ g <> ""
    /\ players_has g (manager_players (shared w)) = false
    /\ node_available w = true
    /\ Player.new (Some o) (Node.identifier (node (shared w))) true
         (manager_players (shared w)) = Returns p
    /\ a = fresh (dom (heap w))
    /\ w1 = {| heap := <[a := p]> (heap w);
               shared := set_manager_players (manager_players (shared w) ++ [(g, a)])
                           (shared w) |}.
Proof.
  unfold createPlayer. cbn [mbind option_bind].
  destruct (Player.o_guildId o) as [g|] eqn:Hg; [|discriminate].
  cbn [truthy_ostring default]. unfold id.
  destruct (truthy_string g) eqn:Ht; cbn [negb]; [|discriminate].
  destruct (players_has g (manager_players (shared w))) eqn:Hhas; [discriminate|].
  destruct (node_available w) eqn:Hn; cbn [negb]; [|discriminate].
  destruct (Player.new _ _ _ _) as [p|e] eqn:Hp; [|discriminate].
  intros [= <- <-]. exists g, p. repeat split; auto.
  apply truthy_string_true, Ht.
Qed.

Lemma Player_new_Returns o i players p :
  Player.new (Some o) i true players = Returns p ->
  Player.state p = Player.DISCONNECTED
  /\ Player.queue p = [] /\ Player.queuePosition p = None
  /\ Player.volume p = 100%Z /\ Player.loop p = Player.Off
  /\ Player.currentVoiceChannel p = None
  /\ Player.node_identifier p = i
  /\ Player.listeners p = true
  /\ Some (Player.guild p) = Player.o_guildId o
  /\ Some (Player.textChannelId (Player.options p)) = Player.o_textChannelId o
  /\ Some (Player.voiceChannelId (Player.options p)) = Player.o_voiceChannelId o
  /\ Player.selfDeafen (Player.options p) = Node.nullish (Player.o_selfDeafen o) true
  /\ Player.selfMute (Player.options p) = Node.nullish (Player.o_selfMute o) false
  /\ Player.moveBehavior (Player.options p)
     = Node.nullish (Player.o_moveBehavior o) Player.behavior_destroy
  /\ Player.stageMoveBehavior (Player.options p)
     = Node.nullish (Player.o_stageMoveBehavior o) Player.behavior_pause.
Proof.
  unfold Player.new. cbn [negb].
  destruct (Player.o_guildId o) as [g|]; [|discriminate].
  destruct (Player.o_textChannelId o) as [tc|];
    [|destruct (negb (truthy_ostring (Some g))); discriminate].
  destruct (Player.o_voiceChannelId o) as [vc|];
    [|destruct (negb (truthy_ostring (Some g))), (negb (truthy_ostring (Some tc)));
      discriminate].
  repeat match goal with
         | |- (if ?b then _ else _) = _ -> _ => destruct b; [discriminate|]
         end.
  cbv zeta.
  repeat match goal with
         | |- (if ?b then _ else _) = _ -> _ => destruct b; [discriminate|]
         end.
  intros [= <-]. simpl. repeat split.
Qed.

Lemma players_delete_app_new g a m :
  players_has g m = false -> players_delete g (m ++ [(g, a)]) = m.
Proof.
  unfold players_has, players_delete. intros H.
  rewrite List.filter_app. simpl. rewrite String.eqb_refl. simpl. rewrite app_nil_r.
  induction m as [|kv m IH]; [reflexivity|].
  simpl in H |- *. apply orb_false_iff in H as [H1 H2].
  rewrite H1. simpl. rewrite (IH H2). reflexivity.
Qed.

Lemma players_has_app g m a : players_has g (m ++ [(g, a)]) = true.
Proof.
  unfold players_has. rewrite existsb_app. simpl. rewrite String.eqb_refl.
  rewrite orb_true_r. reflexivity.
Qed.

End CreateFacts.

(** [createPlayer] files a new player under its guild. When it returns,
    the guild had no player, the node is in the manager's table and
    CONNECTED, and the player is a new object (the objects that existed are
    untouched) filed last in the manager's table under its guild; the
    player is DISCONNECTED, bound to the node, with an empty queue, volume
    100, loop mode off, and the defaults self-deafened, not self-muted,
    move behaviour destroy and stage move behaviour pause. A second
    [createPlayer] for the guild throws and leaves the manager as it is. *)
Theorem createPlayer_registers (o : Player.PlayerOptions) (w : NodeLifecycle.World)
    (a : nat) (w1 : NodeLifecycle.World) :
  ManagerLifecycle.createPlayer (Some o) w = Returns (a, w1) ->
  exists g p,
    Player.o_guildId o = Some g /\ g <> ""
    /\ players_has g (manager_players (NodeLifecycle.shared w)) = false
    /\ Node.state (node (NodeLifecycle.shared w)) = Node.CONNECTED
    /\ NodeLifecycle.heap w !! a = None
    /\ NodeLifecycle.heap w1 !! a = Some p
    /\ (forall b, b <> a -> NodeLifecycle.heap w1 !! b = NodeLifecycle.heap w !! b)
    /\ manager_players (NodeLifecycle.shared w1)
       = (manager_players (NodeLifecycle.shared w) ++ [(g, a)])%list
    /\ Player.guild p = g
    /\ Player.state p = Player.DISCONNECTED
    /\ Player.queue p = [] /\ Player.queuePosition p = None
    /\ Player.volume p = 100%Z /\ Player.loop p = Player.Off
    /\ Player.node_identifier p = Node.identifier (node (NodeLifecycle.shared w))
    /\ Player.selfDeafen (Player.options p) = Node.nullish (Player.o_selfDeafen o) true
    /\ Player.selfMute (Player.options p) = Node.nullish (Player.o_selfMute o) false
    /\ Player.moveBehavior (Player.options p)
       = Node.nullish (Player.o_moveBehavior o) Player.behavior_destroy
    /\ Player.stageMoveBehavior (Player.options p)
       = Node.nullish (Player.o_stageMoveBehavior o) Player.behavior_pause
    /\ ManagerLifecycle.createPlayer (Some o) w1
       = Throws (Error "A player already exists for that guild").
Proof.
  intros H.
  apply createPlayer_Returns in H as (g & p & Hg & Hne & Hhas & Hn & Hp & -> & ->).
  pose proof (Player_new_Returns _ _ _ _ Hp)
    as (Hst & Hq & Hqp & Hv & Hl & _ & Hni & _ & Hgp & _ & _ & Hsd & Hsm & Hmb & Hsb).
  exists g, p. split; [exact Hg|]. split; [exact Hne|]. split; [exact Hhas|].
  split.
  { unfold ManagerLifecycle.node_available in Hn. apply andb_true_iff in Hn as [_ Hn].
    destruct (Node.state (node (NodeLifecycle.shared w))); try discriminate. reflexivity. }
  split; [apply not_elem_of_dom, is_fresh|].
  cbn [NodeLifecycle.heap NodeLifecycle.shared manager_players set_manager_players].
  split; [apply lookup_insert_eq|].
  split; [intros b Hb; apply lookup_insert_ne; congruence|].
  split; [reflexivity|].
  split; [rewrite Hg in Hgp; injection Hgp as ->; reflexivity|].
  do 10 (split; [assumption|]).
  unfold ManagerLifecycle.createPlayer. cbn [mbind option_bind].
  rewrite Hg. cbn [truthy_ostring default]. unfold id.
  rewrite (truthy_string_of_ne _ Hne). cbn [negb].
  cbn [NodeLifecycle.shared manager_players set_manager_players].
  rewrite players_has_app. reflexivity.
Qed.

(** A player for the guild "G2" on the manager of the examples is filed
    behind the player of "G". *)
Lemma createPlayer_registers_witness :
  exists a w1,
    ManagerLifecycle.createPlayer (Some ManagerExamples.for_G2) ManagerExamples.world
    = Returns (a, w1)
    /\ manager_players (NodeLifecycle.shared w1) = [("G", 0); ("G2", a)].
Proof.
  destruct (ManagerLifecycle.createPlayer (Some ManagerExamples.for_G2) ManagerExamples.world)
    as [[a w1]|e] eqn:H; [|vm_compute in H; discriminate H].
  exists a, w1. split; [reflexivity|].
  destruct (createPlayer_registers _ _ _ _ H) as (g & p & Hg & _ & _ & _ & _ & _ & _ & Ht & _).
  rewrite Ht. injection Hg as <-. reflexivity.
Defined.

(** [createPlayer] and [destroy] undo each other in the manager's table:
    after the new player is destroyed the table is what it was before the
    player was created, the player object is torn down, and a player can
    be created for the guild again. *)
Theorem createPlayer_then_destroy (out : Outside) (o : Player.PlayerOptions)
    (reason : string) (w : NodeLifecycle.World) (a : nat) (w1 : NodeLifecycle.World) :
  ManagerLifecycle.createPlayer (Some o) w = Returns (a, w1) ->
  let w2 := NodeLifecycle.destroy_player out reason w1 a in
  manager_players (NodeLifecycle.shared w2) = manager_players (NodeLifecycle.shared w)
  /\ (exists p, NodeLifecycle.heap w2 !! a = Some p /\ PlayerSpec.torn_down p)
  /\ (forall b, b <> a -> NodeLifecycle.heap w2 !! b = NodeLifecycle.heap w !! b)
  /\ exists a' w3, ManagerLifecycle.createPlayer (Some o) w2 = Returns (a', w3).
Proof.
  intros H w2.
  apply createPlayer_Returns in H as (g & p & Hg & Hne & Hhas & Hn & Hp & -> & ->).
  pose proof (Player_new_Returns _ _ _ _ Hp)
    as (_ & _ & _ & _ & _ & _ & _ & _ & Hgp & _).
  rewrite Hg in Hgp. injection Hgp as Hgp.
  set (a := fresh (dom (NodeLifecycle.heap w))) in *.
  set (w1 := {| NodeLifecycle.heap := <[a := p]> (NodeLifecycle.heap w);
                NodeLifecycle.shared :=
                  set_manager_players
                    (manager_players (NodeLifecycle.shared w) ++ [(g, a)])
                    (NodeLifecycle.shared w) |}) in *.
  destruct (destroy_player_facts out reason w1 a p (lookup_insert_eq _ _ _))
    as (p' & Hh & Ht & _ & Hm & Hmn & Hnode & _).
  fold w2 in Hh, Hm, Hmn, Hnode.
  assert (manager_players (NodeLifecycle.shared w2)
          = manager_players (NodeLifecycle.shared w)) as Hm2.
  { rewrite Hm, Hgp. apply players_delete_app_new, Hhas. }
  split; [exact Hm2|].
  split; [exists p'; rewrite Hh; split; [apply lookup_insert_eq|exact Ht]|].
  split.
  { intros b Hb. rewrite Hh. rewrite lookup_insert_ne by congruence.
    apply lookup_insert_ne. congruence. }
  unfold ManagerLifecycle.createPlayer. cbn [mbind option_bind].
  rewrite Hg. cbn [truthy_ostring default]. unfold id.
  rewrite (truthy_string_of_ne _ Hne). cbn [negb]. rewrite Hm2, Hhas.
  assert (ManagerLifecycle.node_available w2 = true) as ->.
  { unfold ManagerLifecycle.node_available in *. rewrite Hmn, Hnode. exact Hn. }
  cbn [negb]. rewrite Hnode.
  change (node (NodeLifecycle.shared w1)) with (node (NodeLifecycle.shared w)).
  rewrite Hp. eauto.
Qed.

(** The player of "G2" of the examples, created and destroyed. *)
Lemma createPlayer_then_destroy_witness :
  exists a w1,
    ManagerLifecycle.createPlayer (Some ManagerExamples.for_G2) ManagerExamples.world
    = Returns (a, w1)
    /\ manager_players
         (NodeLifecycle.shared
            (NodeLifecycle.destroy_player PlayerExamples.quiet "Manual destroy" w1 a))
       = [("G", 0)].
Proof.
  destruct (ManagerLifecycle.createPlayer (Some ManagerExamples.for_G2) ManagerExamples.world)
    as [[a w1]|e] eqn:H; [|vm_compute in H; discriminate H].
  exists a, w1. split; [reflexivity|].
  exact (proj1 (createPlayer_then_destroy PlayerExamples.quiet _ "Manual destroy" _ _ _ H)).
Defined.
